(** * ibpmvis: field-level lineage inference, layering and reachability

    A shallow embedding of [src/ibpmvis.py]:
    - [readFlow]       (field catalog + lineage inference, lines 8-61),
    - [compute_levels] (Kahn-style longest-path layering, lines 64-88),
    - [main]           (the control flow around both, lines 91-266),
    - [traverse]       (the visited-set walk of the embedded script,
                        lines 214-217) with the adjacency indices it runs
                        on, the connectors of [drawLinks] and the redraw
                        on scroll and resize (lines 176-250).

    Conventions.
    - The input document is taken as [json.load] returns it when it has
      the expected shape: the alias of a field is a string, and an entry
      of [output] either has no key ['formula'] or has a string under it.
      A document with a number as field alias or with [null] as formula is
      outside this shape and has no counterpart in [flow]; for such a
      document line 45 can raise [TypeError]. A Python [str]
      is a [string], one [ascii] per character (code points below 256);
      the character class [[a-zA-Z0-9_]] of the match pattern only holds
      ASCII characters.
    - A Python [dict] is an association list in insertion order
      ([dict_get], [dict_set]): assigning to an existing key keeps its
      position, assigning to a new key appends it.
    - An exception is a [Raise] outcome. The [while] loop of
      [compute_levels] runs on fuel; [assign_levels_fuel] and [main_ends]
      show that the fuel the model gives it is never used up.
    - The recursion of [traverse] has no guard on its depth: it is bounded
      by the call stack of the engine only. The walks take the room on the
      stack as a parameter, counted in levels of the recursion, and throw
      [RangeError] when a call finds no room.
    - The connectors are the [path] elements the document holds. A field
      row is found or not by [document.querySelector]; the ids are taken
      to form selectors the engine parses.
    - A JavaScript object used as a map or as a set is a [gmap] or a
      [gset]: its keys have the shape [nodeId|fieldAlias], which is no
      property name of [Object.prototype]. *)

From stdpp Require Import base option list strings gmap sorting.
From Stdlib Require Import Ascii ZArith Lia.

Local Open Scope Z_scope.

(** ** Python dictionaries, in insertion order *)

Section assoc.
Context {K V : Type} `{EqDecision K}.

Fixpoint dict_get (d : list (K * V)) (k : K) : option V :=
  match d with
  | [] => None
  | (k', v) :: d' => if decide (k' = k) then Some v else dict_get d' k
  end.

Fixpoint dict_set (d : list (K * V)) (k : K) (v : V) : list (K * V) :=
  match d with
  | [] => [(k, v)]
  | (k', v') :: d' =>
      if decide (k' = k) then (k, v) :: d' else (k', v') :: dict_set d' k v
  end.

Definition dict_keys (d : list (K * V)) : list K := d.*1.
End assoc.

(** A dict with [str] keys. *)
Abbreviation dict V := (list (string * V)).

(** ** Outcomes of fallible code *)

Inductive exn :=
| KeyError (k : string)
| TypeError
| IndexError
| RangeError.    (* of the embedded script: the call stack is used up *)

Inductive outcome (A : Type) :=
| Ok (a : A)
| Raise (e : exn)
| OutOfFuel.
Arguments Ok {A} a.
Arguments Raise {A} e.
Arguments OutOfFuel {A}.

Definition bind {A B} (m : outcome A) (k : A → outcome B) : outcome B :=
  match m with
  | Ok a => k a
  | Raise e => Raise e
  | OutOfFuel => OutOfFuel
  end.

Notation "'do' x <- m ; k" := (bind m (λ x, k))
  (at level 10, x pattern, m at level 100, k at level 200).

(** [for x in xs: body], threading the state through the iterations. *)
Fixpoint for_each {A S} (body : A → S → outcome S) (xs : list A) (s : S)
  : outcome S :=
  match xs with
  | [] => Ok s
  | x :: xs' => do s' <- body x s; for_each body xs' s'
  end.

(** [d[k]] on a plain dict. *)
Definition subscript {V} (d : dict V) (k : string) : outcome V :=
  match dict_get d k with
  | Some v => Ok v
  | None => Raise (KeyError k)
  end.

(** ** The match pattern of the Lineage Inferrer (lines 43-45) *)

(** The class [[a-zA-Z0-9_]]. *)
Definition in_class (c : ascii) : bool :=
  let n := N_of_ascii c in
  ((97 <=? n) && (n <=? 122) || (65 <=? n) && (n <=? 90)
   || (48 <=? n) && (n <=? 57) || (n =? 95))%N.

(** The fragment of the [re] syntax that the pattern uses. [re.escape s]
    denotes the pattern that matches exactly the characters of [s]. *)
Inductive re_item :=
| NegLookbehind (cls : ascii → bool)
| Literal (s : string)
| NegLookahead (cls : ascii → bool).

Definition re_escape (s : string) : re_item := Literal s.

Definition pattern (sField : string) : list re_item :=
  [NegLookbehind in_class; re_escape sField; NegLookahead in_class].

(** [consume l prev s]: [l] is a prefix of [s]; returns the character
    before the new position and the rest of the subject. *)
Fixpoint consume (l : string) (prev : option ascii) (s : string)
  : option (option ascii * string) :=
  match l with
  | EmptyString => Some (prev, s)
  | String a l' =>
      match s with
      | EmptyString => None
      | String b s' => if decide (a = b) then consume l' (Some b) s' else None
      end
  end.

(** Matching at one position: [prev] is the character before it. *)
Fixpoint match_here (r : list re_item) (prev : option ascii) (s : string)
  : bool :=
  match r with
  | [] => true
  | NegLookbehind cls :: r' =>
      match prev with
      | Some p => negb (cls p)
      | None => true
      end && match_here r' prev s
  | Literal l :: r' =>
      match consume l prev s with
      | Some (prev', s') => match_here r' prev' s'
      | None => false
      end
  | NegLookahead cls :: r' =>
      match s with
      | String a _ => negb (cls a)
      | EmptyString => true
      end && match_here r' prev s
  end.

(** [re.search]: the positions of the subject from left to right,
    the end of the subject included. *)
Fixpoint search_from (r : list re_item) (prev : option ascii) (s : string)
  : bool :=
  match_here r prev s
  || match s with
     | String a s' => search_from r (Some a) s'
     | EmptyString => false
     end.

Definition re_search (r : list re_item) (s : string) : bool :=
  search_from r None s.

(** ** The input document and the field catalog *)

(** One entry of a node's [output], [inoutput] or [fields] collection:
    [field['alias']], the string under ['formula'] ([None] when the entry
    has no such key, where line 18 takes [''] instead) and the truth value
    of [field.get('select')]. *)
Record raw_field := RawField {
  rf_alias : string;
  rf_formula : option string;
  rf_select : bool
}.

(** One entry of [file['nodes']]; [rn_alias] is [str(node['alias'])]. *)
Record raw_node := RawNode {
  rn_alias : string;
  rn_name : option string;
  rn_type : option string;
  rn_output : list raw_field;
  rn_inoutput : list raw_field;
  rn_fields : list raw_field
}.

(** One entry of [file['edges']], after [str]. *)
Record raw_edge := RawEdge {
  e_source : string;
  e_target : string
}.

Record flow := Flow {
  fl_nodes : list raw_node;
  fl_edges : list raw_edge
}.

(** [{'nodeId': .., 'fieldAlias': ..}] *)
Record ref := Ref {
  nodeId : string;
  fieldAlias : string
}.

(** The value of a field in a node's [output] dict: the formula and the
    inferred-source annotation (the key ['source'], absent until set). *)
Record field_meta := FieldMeta {
  formula : string;
  meta_source : option ref
}.

Record node := Node {
  name : option string;
  alias : string;
  nodeType : option string;
  output : dict field_meta
}.

Record link := Link {
  source : ref;
  target : ref
}.

#[global] Instance ref_eq_dec : EqDecision ref.
Proof. solve_decision. Defined.
#[global] Instance link_eq_dec : EqDecision link.
Proof. solve_decision. Defined.
#[global] Instance exn_eq_dec : EqDecision exn.
Proof. solve_decision. Defined.

(** Lines 15-25: the three groups, later groups overwriting earlier ones. *)
Definition collect_output (n : raw_node) : dict field_meta :=
  let output := [] in
  let output :=
    foldl (λ o f, dict_set o (rf_alias f)
                    (FieldMeta (default "" (rf_formula f)) None))
          output (rn_output n) in
  let output :=
    foldl (λ o f, dict_set o (rf_alias f) (FieldMeta (rf_alias f) None))
          output (rn_inoutput n) in
  foldl (λ o f, if rf_select f
                then dict_set o (rf_alias f) (FieldMeta (rf_alias f) None)
                else o)
        output (rn_fields n).

(** Lines 9-31. *)
Definition build_nodes (ns : list raw_node) : dict node :=
  foldl (λ nodes n,
           if decide (rn_type n = Some "exception") then nodes
           else dict_set nodes (rn_alias n)
                  (Node (rn_name n) (rn_alias n) (rn_type n)
                        (collect_output n)))
        [] ns.

(** ** The Lineage Inferrer (lines 33-61) *)

(** Line 47: [nodes[tgt]['output'][tField]['source'] = r]. *)
Definition set_source (nodes : dict node) (tgt tField : string) (r : ref)
  : outcome (dict node) :=
  do n <- subscript nodes tgt;
  do m <- subscript (output n) tField;
  Ok (dict_set nodes tgt
        (Node (name n) (alias n) (nodeType n)
              (dict_set (output n) tField
                        (FieldMeta (formula m) (Some r))))).

(** The state of the second loop: the catalog and [allLinks]. *)
Abbreviation infer_state := (dict node * list link)%type.

(** Lines 42-60, one source field. *)
Definition match_source (src tgt tField fml : string) (sField : string)
  (st : infer_state) : outcome infer_state :=
  if re_search (pattern sField) fml then
    do nodes' <- set_source st.1 tgt tField (Ref src sField);
    Ok (nodes', st.2 ++ [Link (Ref src sField) (Ref tgt tField)])
  else Ok st.

(** Lines 40-60, one target field. The keys of [sourceFields] and the
    formulas of [targetFields] are not changed by line 47, so the two
    [for] loops run over the dicts as they are when the edge is entered. *)
Definition match_target (src tgt : string) (sourceFields : list string)
  (t : string * field_meta) (st : infer_state) : outcome infer_state :=
  for_each (match_source src tgt t.1 (formula t.2)) sourceFields st.

(** Lines 35-60, one structural edge. *)
Definition infer_edge (e : raw_edge) (st : infer_state)
  : outcome infer_state :=
  let src := e_source e in
  let tgt := e_target e in
  do sn <- subscript st.1 src;
  do tn <- subscript st.1 tgt;
  for_each (match_target src tgt (dict_keys (output sn))) (output tn) st.

Definition readFlow (file : flow) : outcome infer_state :=
  for_each infer_edge (fl_edges file) (build_nodes (fl_nodes file), []).

(** ** The Level Assigner (lines 64-88) *)

(** Lines 67-71, one link: [children] is a [defaultdict(list)]. *)
Definition count_link (st : dict (list string) * dict Z) (l : link)
  : dict (list string) * dict Z :=
  let src := nodeId (source l) in
  let tgt := nodeId (target l) in
  (dict_set st.1 src (default [] (dict_get st.1 src) ++ [tgt]),
   dict_set st.2 tgt (default 0 (dict_get st.2 tgt) + 1)).

Record level_state := LevelState {
  queue : list string;
  indegree : dict Z;
  levels : dict (option Z)
}.

(** Lines 79-84, one child [c] of the node [nid] taken from the queue. *)
Definition visit_child (nid c : string) (st : level_state)
  : outcome level_state :=
  do d <- subscript (indegree st) c;
  let indegree' := dict_set (indegree st) c (d - 1) in
  do ln <- subscript (levels st) nid;
  do lvl <- match ln with
            | Some l => Ok (l + 1)
            | None => Raise TypeError
            end;
  do lc <- subscript (levels st) c;
  let levels' :=
    if match lc with
       | None => true
       | Some l => bool_decide (lvl > l)
       end
    then dict_set (levels st) c (Some lvl) else levels st in
  do d' <- subscript indegree' c;
  let queue' := if decide (d' = 0) then queue st ++ [c] else queue st in
  Ok (LevelState queue' indegree' levels').

(** Lines 76-84: [while queue]. *)
Fixpoint drain (children : dict (list string)) (fuel : nat)
  (st : level_state) : outcome level_state :=
  match queue st with
  | [] => Ok st
  | nid :: rest =>
      match fuel with
      | O => OutOfFuel
      | S fuel' =>
          do st' <- for_each (visit_child nid)
                      (default [] (dict_get children nid))
                      (LevelState rest (indegree st) (levels st));
          drain children fuel' st'
      end
  end.

(** Lines 65-84: the levels when the queue is empty. *)
Definition assign_levels (nodes : dict node) (links : list link)
  : outcome (dict (option Z)) :=
  let indegree0 := foldl (λ d nid, dict_set d nid 0) [] (dict_keys nodes) in
  let '(children, indegree1) := foldl count_link ([], indegree0) links in
  let queue0 := (filter (λ p, p.2 = 0) indegree1).*1 in
  let levels0 := foldl (λ d nid, dict_set d nid None) [] (dict_keys nodes) in
  let levels1 := foldl (λ d nid, dict_set d nid (Some 0)) levels0 queue0 in
  do st <- drain children (S (length indegree1))
             (LevelState queue0 indegree1 levels1);
  Ok (levels st).

(** Lines 85-87: [groups[lvl].append(nid)] over [levels.items()]. *)
Definition group_levels (levels : dict (option Z))
  : list (option Z * list string) :=
  foldl (λ g p, dict_set g p.2 (default [] (dict_get g p.2) ++ [p.1]))
        [] levels.

(** [sorted] on keys that are [None] or integers: [None < 0] and
    [0 < None] raise [TypeError]; a list of at most one key is returned
    without any comparison. *)
Definition sorted (ks : list (option Z)) : outcome (list (option Z)) :=
  match ks with
  | [] | [_] => Ok ks
  | _ =>
      do zs <- for_each (λ k zs, match k with
                                 | Some z => Ok (zs ++ [z])
                                 | None => Raise TypeError
                                 end) ks [];
      Ok (Some <$> merge_sort Z.le zs)
  end.

Definition compute_levels (nodes : dict node) (links : list link)
  : outcome (list (list string)) :=
  do lv <- assign_levels nodes links;
  let groups := group_levels lv in
  do ls <- sorted (dict_keys groups);
  Ok ((λ l, default [] (dict_get groups l)) <$> ls).

(** ** The command (lines 91-266) *)

Record payload := Payload {
  p_nodes : dict node;
  p_links : list link;
  p_levels : list (list string)
}.

(** What is printed on stderr. *)
Inductive report :=
| FailedToLoad (e : exn)        (* line 105 *)
| Traceback (e : exn)           (* an exception nobody catches *)
| FailedToWrite.                (* line 265 *)

Inductive run :=
| Exit (code : Z) (stderr : option report) (artifact : option payload)
| Diverge.

(** [loaded] is the outcome of [json.load(...)] followed by [file['flow']];
    [writable] tells whether the output file can be written. *)
Definition main (loaded : outcome (list flow)) (writable : bool) : run :=
  let data :=
    do flows <- loaded;
    do part <- match flows with
               | part :: _ => Ok part
               | [] => Raise IndexError
               end;
    readFlow part in
  match data with
  | Raise e => Exit 1 (Some (FailedToLoad e)) None
  | OutOfFuel => Diverge
  | Ok (nodes, links) =>
      match compute_levels nodes links with
      | Raise e => Exit 1 (Some (Traceback e)) None
      | OutOfFuel => Diverge
      | Ok levels =>
          if writable then Exit 0 None (Some (Payload nodes links levels))
          else Exit 1 (Some FailedToWrite) None
      end
  end.

(** ** The Reachability Highlighter (lines 175-182 and 214-226) *)

Definition key_of (r : ref) : string := nodeId r +:+ "|" +:+ fieldAlias r.

(** Lines 177-182, one link: [(m[k] = m[k] || []).push(v)] on both maps. *)
Definition index_link
  (st : gmap string (list string) * gmap string (list string)) (l : link)
  : gmap string (list string) * gmap string (list string) :=
  let sKey := key_of (source l) in
  let tKey := key_of (target l) in
  (<[sKey := default [] (st.1 !! sKey) ++ [tKey]]> st.1,
   <[tKey := default [] (st.2 !! tKey) ++ [sKey]]> st.2).

Definition adjacency (links : list link)
  : gmap string (list string) * gmap string (list string) :=
  foldl index_link (∅, ∅) links.

(** Lines 214-217. The code puts no bound on the depth of the recursion;
    [room] is the number of levels of it (a call of [traverse] with the
    [forEach] and the callback it runs) that still fit on the call stack
    of the engine. A call that finds no room throws [RangeError], which
    nothing catches. *)
Fixpoint traverse (room : nat) (map : gmap string (list string))
  (key : string) (vis : gset string) : outcome (gset string) :=
  match room with
  | O => Raise RangeError
  | S room' =>
      if decide (key ∈ vis) then Ok vis
      else for_each (λ k vis', traverse room' map k vis')
                    (default [] (map !! key)) ({[key]} ∪ vis)
  end.

(** Lines 224-225: [anc] and [desc]. The first call of a walk fits on the
    stack; [stack] is the number of further levels that fit below it. *)
Definition ancestors (stack : nat) (links : list link) (key : string)
  : outcome (gset string) :=
  traverse (S stack) (adjacency links).2 key ∅.

Definition descendants (stack : nat) (links : list link) (key : string)
  : outcome (gset string) :=
  traverse (S stack) (adjacency links).1 key ∅.

(** ** The connectors (lines 192-203 and 224-234) *)

(** A [path.link] element: [dataset.src] and [dataset.tgt]. *)
Record path := Path {
  p_src : string;
  p_tgt : string
}.

(** Lines 199-200. *)
Definition draw_path (l : link) : path :=
  Path (key_of (source l)) (key_of (target l)).

(** Lines 192-203 without the geometry: one connector for every link
    whose two field rows are found (line 196), in the order of the links.
    [found r] tells whether [document.querySelector] finds the row of the
    field [r]. *)
Definition drawLinks (found : ref → bool) (links : list link) : list path :=
  draw_path <$> filter (λ l, found (source l) && found (target l)) links.

(** Lines 224-226: [anc], [desc] and
    [all = {...anc, ...desc}; all[key] = true]. *)
Definition all_keys (stack : nat) (links : list link) (key : string)
  : outcome (gset string) :=
  do anc <- ancestors stack links key;
  do desc <- descendants stack links key;
  Ok ({[key]} ∪ (anc ∪ desc)).

(** Lines 232-234: of the connectors in the document, those are
    highlighted whose two keys are in [all]. *)
Definition highlighted_paths (stack : nat) (links : list link)
  (paths : list path) (key : string) : outcome (list path) :=
  do all <- all_keys stack links key;
  Ok (filter (λ p, p_src p ∈ all ∧ p_tgt p ∈ all) paths).

(** ** Notions the statements use *)

(** The characters of an identifier-like token, spelled out. *)
Definition word_chars : string :=
  "abcdefghijklmnopqrstuvwxyzABCDEFGHIJKLMNOPQRSTUVWXYZ0123456789_".

Fixpoint occurs (c : ascii) (s : string) : Prop :=
  match s with
  | EmptyString => False
  | String a s' => a = c ∨ occurs c s'
  end.

Definition is_word_char (c : ascii) : Prop := occurs c word_chars.

(** The last character of [pre], or [prev] when [pre] is empty. *)
Fixpoint last_char (prev : option ascii) (pre : string) : option ascii :=
  match pre with
  | EmptyString => prev
  | String c pre' => last_char (Some c) pre'
  end.

Definition first_char (post : string) : option ascii :=
  match post with
  | EmptyString => None
  | String c _ => Some c
  end.

Definition no_word_char (c : option ascii) : Prop :=
  match c with
  | Some c => ¬ is_word_char c
  | None => True
  end.

(** [a] occurs in [fm] as a whole token: some occurrence of exactly the
    characters of [a] has no word character right before or right after. *)
Definition whole_token (a fm : string) : Prop :=
  ∃ pre post,
    fm = pre +:+ a +:+ post
    ∧ no_word_char (last_char None pre)
    ∧ no_word_char (first_char post).

(** The catalog without the annotations: the node aliases in order, and
    per node the field aliases in order with their formulas. *)
Definition shape_node (n : node) : dict string :=
  prod_map id formula <$> output n.

Definition shape (nodes : dict node) : dict (dict string) :=
  prod_map id shape_node <$> nodes.

(** [nodes[r.nodeId]['output'][r.fieldAlias]] *)
Definition field_of (nodes : dict node) (r : ref) : option field_meta :=
  n ← dict_get nodes (nodeId r); dict_get (output n) (fieldAlias r).

(** The links the Lineage Inferrer emits, in closed form over the shape of
    the catalog: for one target field [t] (alias and formula), the matching
    source fields in order; for one edge, the target fields in order; for
    the flow, the edges in order. *)
Definition emitted (src tgt : string) (sourceFields : list string)
  (t : string * string) : list link :=
  sourceFields ≫= λ sField,
    if re_search (pattern sField) t.2
    then [Link (Ref src sField) (Ref tgt t.1)] else [].

Definition edge_links (sh : dict (dict string)) (e : raw_edge) : list link :=
  match dict_get sh (e_source e), dict_get sh (e_target e) with
  | Some sf, Some tf => tf ≫= emitted (e_source e) (e_target e) (dict_keys sf)
  | _, _ => []
  end.

Definition all_links (sh : dict (dict string)) (edges : list raw_edge)
  : list link :=
  edges ≫= edge_links sh.

(** Every key of the catalog and every field alias of a node occurs once. *)
Definition wf_shape (sh : dict (dict string)) : Prop :=
  NoDup (dict_keys sh) ∧ Forall (λ p, NoDup (dict_keys p.2)) sh.

(** The annotation of every field is the source of the last link emitted
    so far that targets the field. *)
Definition annotated (st : infer_state) : Prop :=
  ∀ r m, field_of st.1 r = Some m →
         meta_source m = source <$> last (filter (λ l, target l = r) st.2).

(** The invariant of the second loop of [readFlow]. *)
Definition infer_inv (sh : dict (dict string)) (st : infer_state) : Prop :=
  shape st.1 = sh ∧ annotated st.

(** Both ends of a structural edge are in the catalog. *)
Definition resolvable (sh : dict (dict string)) (e : raw_edge) : Prop :=
  e_source e ∈ dict_keys sh ∧ e_target e ∈ dict_keys sh.

#[global] Instance resolvable_dec sh e : Decision (resolvable sh e).
Proof. unfold resolvable. apply _. Defined.

(** A freshly collected node: unique field aliases, no annotation. *)
Definition pristine (o : dict field_meta) : Prop :=
  NoDup (dict_keys o) ∧ Forall (λ p, meta_source p.2 = None) o.

(** The field aliases of node [src], in insertion order. *)
Definition field_keys (nodes : dict node) (src : string) : list string :=
  default [] (dict_keys ∘ output <$> dict_get nodes src).

(** The source fields that match the formula [fml] of a field of node
    [tgt], in the order in which the Lineage Inferrer evaluates them: the
    edges into [tgt] in order, and for each the fields of its source node
    in insertion order. *)
Definition matching_sources (nodes : dict node) (edges : list raw_edge)
  (tgt fml : string) : list ref :=
  edges ≫= λ e,
    if decide (e_target e = tgt)
    then Ref (e_source e)
           <$> filter (λ s, re_search (pattern s) fml = true)
                      (field_keys nodes (e_source e))
    else [].

(** ** Sample flows *)

Definition out_field (a : string) (fml : option string) : raw_field :=
  RawField a fml false.

(** Scenario A of the specification: [Node1.a] without a formula,
    [Node2.b = a + 1], one edge [Node1 -> Node2]. *)
Definition flow_A : flow :=
  Flow [RawNode "Node1" None None [out_field "a" None] [] [];
        RawNode "Node2" None None [out_field "b" (Some "a + 1")] [] []]
       [RawEdge "Node1" "Node2"].

(** The same two nodes without the structural edge. *)
Definition flow_A_no_edge : flow :=
  Flow (fl_nodes flow_A) [].

(** Two source fields that both match one target formula. *)
Definition flow_fan_in : flow :=
  Flow [RawNode "Node1" None None
          [out_field "a" None; out_field "b" None] [] [];
        RawNode "Node2" None None [out_field "c" (Some "a + b")] [] []]
       [RawEdge "Node1" "Node2"].

(** A source field whose alias is the empty string, and a target field
    without a formula. *)
Definition flow_empty_alias : flow :=
  Flow [RawNode "Node1" None None [out_field "" None] [] [];
        RawNode "Node2" None None [out_field "b" None] [] []]
       [RawEdge "Node1" "Node2"].

(** An edge into a node that is filtered out as an exception node. *)
Definition flow_exception : flow :=
  Flow [RawNode "Node1" None None [out_field "a" None] [] [];
        RawNode "Err" None (Some "exception") [out_field "b" (Some "a")] [] []]
       [RawEdge "Node1" "Err"].

(** The statement that a field with an empty formula is never the target
    of a link of [file]. *)
Definition empty_formula_never_target (file : flow) : Prop :=
  ∀ nodes links l m,
    readFlow file = Ok (nodes, links) → l ∈ links →
    field_of nodes (target l) = Some m → formula m ≠ "".

(** ** The projected node graph *)

Definition src_node (l : link) : string := nodeId (source l).
Definition tgt_node (l : link) : string := nodeId (target l).

(** There is a link from a field of [a] to a field of [b]. *)
Definition node_edge (links : list link) (a b : string) : Prop :=
  ∃ l, l ∈ links ∧ src_node l = a ∧ tgt_node l = b.

(** No node reaches itself along one or more projected edges. *)
Definition acyclic (links : list link) : Prop :=
  ∀ n, ¬ tc (node_edge links) n n.

(** Both ends of every link are nodes of the catalog. *)
Definition closed_links (ks : list string) (links : list link) : Prop :=
  ∀ l, l ∈ links → src_node l ∈ ks ∧ tgt_node l ∈ ks.

(** The node has no inbound field-level link. *)
Definition no_inbound (links : list link) (n : string) : Prop :=
  ∀ l, l ∈ links → tgt_node l ≠ n.

(** [children[nid]]: the targets of the links out of [nid], in order. *)
Definition children_of (links : list link) (nid : string) : list string :=
  tgt_node <$> filter (λ l, src_node l = nid) links.

(** The number of links into [n] whose source is not in [done]. *)
Definition pending (links : list link) (done : list string) (n : string)
  : nat :=
  length (filter (λ l, tgt_node l = n ∧ src_node l ∉ done) links).

Definition occ (n : string) (cs : list string) : nat :=
  length (filter (λ c, c = n) cs).

(** A path: every element has a projected edge to the next one. *)
Fixpoint chain (links : list link) (p : list string) : Prop :=
  match p with
  | a :: p' =>
      match p' with
      | b :: _ => node_edge links a b ∧ chain links p'
      | [] => True
      end
  | [] => True
  end.

(** The progress measure of the [while] loop: the nodes in the queue and
    the nodes whose in-degree is still positive. *)
Definition waiting (st : level_state) : nat :=
  length (queue st) + length (filter (λ p, 0 < p.2) (indegree st)).

(** The invariant of the [while] loop; [done] are the nodes taken from the
    queue so far. *)
Record level_inv (ks : list string) (links : list link)
    (done : list string) (st : level_state) : Prop := LevelInv {
  li_nodup : NoDup (done ++ queue st);
  li_nodes : ∀ n, n ∈ done ++ queue st → n ∈ ks;
  li_indeg : ∀ n, n ∈ ks →
    dict_get (indegree st) n = Some (Z.of_nat (pending links done n));
  li_ready : ∀ n, n ∈ ks →
    (n ∈ done ++ queue st ↔ pending links done n = 0%nat);
  li_keys : ∀ n, is_Some (dict_get (levels st) n) ↔ n ∈ ks;
  li_level : ∀ n, n ∈ done ++ queue st →
    ∃ z, dict_get (levels st) n = Some (Some z);
  li_forward : ∀ l, l ∈ links → src_node l ∈ done →
    ∃ zs zt, dict_get (levels st) (src_node l) = Some (Some zs)
             ∧ dict_get (levels st) (tgt_node l) = Some (Some zt)
             ∧ zs < zt;
  li_root : ∀ n, n ∈ ks → no_inbound links n →
    dict_get (levels st) n = Some (Some 0)
}.

(** ** Sample graphs *)

Definition plain_node (a : string) : string * node :=
  (a, Node None a None [("f", FieldMeta "" None)]).

Definition plain_link (a b : string) : link :=
  Link (Ref a "f") (Ref b "f").

(** Scenario C of the specification: [A -> B -> C -> A]. *)
Definition nodes_ABC : dict node :=
  [plain_node "A"; plain_node "B"; plain_node "C"].

Definition links_cycle : list link :=
  [plain_link "A" "B"; plain_link "B" "C"; plain_link "C" "A"].

(** The cycle next to a node [D] without links. *)
Definition nodes_ABCD : dict node :=
  nodes_ABC ++ [plain_node "D"].

(** A diamond [A -> B -> D], [A -> C], [C -> D] with a shortcut [A -> D]. *)
Definition links_diamond : list link :=
  [plain_link "A" "D"; plain_link "A" "B"; plain_link "A" "C";
   plain_link "B" "D"; plain_link "C" "D"].

(** ** The layout columns *)

(** Node [n] is in the [i]-th group of the result of [compute_levels]. *)
Definition in_column (groups : list (list string)) (n : string) (i : nat)
  : Prop :=
  ∃ g, groups !! i = Some g ∧ n ∈ g.

(** The nodes whose level is [k], in the order of the levels dict. *)
Definition with_level (lev : dict (option Z)) (k : option Z) : list string :=
  (filter (λ p, p.2 = k) lev).*1.

(** A topological rank of the diamond. *)
Definition rank_diamond (n : string) : nat :=
  if decide (n = "A") then 0%nat else if decide (n = "D") then 2%nat else 1%nat.

(** ** Reachability in an adjacency index *)

(** [map[a] || []] *)
Definition successors (map : gmap string (list string)) (a : string)
  : list string :=
  default [] (map !! a).

(** [b] is listed under [a] in the index. *)
Definition listed (map : gmap string (list string)) (a b : string) : Prop :=
  b ∈ successors map a.

(** [k] is reachable from [key]: by zero or more steps of the index. *)
Definition reachable (map : gmap string (list string)) (key k : string)
  : Prop :=
  rtc (listed map) key k.

(** What one call of [traverse] on [key] adds to the visited set, with [U]
    a set that holds the keys the index lists. *)
Definition walked (map : gmap string (list string)) (U : gset string)
    (key : string) (vis vis' : gset string) : Prop :=
  vis ⊆ vis' ∧ key ∈ vis'
  ∧ vis' ⊆ vis ∪ U
  ∧ (∀ k, k ∈ vis' → k ∉ vis → reachable map key k)
  ∧ (∀ a b, a ∈ vis' → a ∉ vis → listed map a b → b ∈ vis').

(** The keys a walk from [key] can meet: [key] and the listed keys. *)
Definition universe (listed_keys : list string) (key : string) : gset string :=
  {[key]} ∪ list_to_set listed_keys.

(** Case analysis on the elements of an explicit list. *)
Ltac each_elem H :=
  repeat (apply elem_of_cons in H as [->|H]);
  [..|by apply elem_of_nil in H].

(** Scenario C as an input document: the formula of each field names the
    field of the previous node, and the edges close the cycle. *)
Definition flow_cycle : flow :=
  Flow [RawNode "A" None None [out_field "a" (Some "c")] [] [];
        RawNode "B" None None [out_field "b" (Some "a")] [] [];
        RawNode "C" None None [out_field "c" (Some "b")] [] []]
       [RawEdge "A" "B"; RawEdge "B" "C"; RawEdge "C" "A"].

(** The same cycle next to a node [D] without links. *)
Definition flow_cycle_and_root : flow :=
  Flow (fl_nodes flow_cycle ++ [RawNode "D" None None [] [] []])
       (fl_edges flow_cycle).

(** ** Notions for the properties of the field catalog *)

(** The entry of the catalog for one input node (lines 26-31). *)
Definition catalog_entry (n : raw_node) : node :=
  Node (rn_name n) (rn_alias n) (rn_type n) (collect_output n).

(** The input nodes that line 13 does not skip and that have alias [k]. *)
Definition kept_as (k : string) (n : raw_node) : Prop :=
  rn_alias n = k ∧ rn_type n ≠ Some "exception".

#[global] Instance kept_as_dec k n : Decision (kept_as k n).
Proof. unfold kept_as. apply _. Defined.

(** The field aliases of one input node in the order of the three loops. *)
Definition declared_aliases (n : raw_node) : list string :=
  (rf_alias <$> rn_output n)
  ++ (rf_alias <$> rn_inoutput n)
  ++ (rf_alias <$> filter (λ f, rf_select f = true) (rn_fields n)).

(** The elements of a list in the order of their first occurrence. *)
Definition first_seen (l : list string) : list string :=
  foldl (λ acc x, if decide (x ∈ acc) then acc else acc ++ [x]) [] l.

(** The catalog without any inferred-source annotation. *)
Definition clear_field (m : field_meta) : field_meta :=
  FieldMeta (formula m) None.

Definition clear_node (n : node) : node :=
  Node (name n) (alias n) (nodeType n) (prod_map id clear_field <$> output n).

Definition clear_sources (nodes : dict node) : dict node :=
  prod_map id clear_node <$> nodes.

(** ** Notions for the properties of the match *)

(** A string of letters, digits and underscores only. *)
Definition all_word (s : string) : Prop :=
  ∀ c, occurs c s → is_word_char c.

(** A pass-through field [total] below a node with the output fields
    [total] and [sub_total]. *)
Definition flow_carrier : flow :=
  Flow [RawNode "Node1" None None
          [out_field "total" None; out_field "sub_total" None] [] [];
        RawNode "Node2" None None [] [out_field "total" None] []]
       [RawEdge "Node1" "Node2"].

(** ** Notions for the properties of the levels *)

(** Every level is justified: a node has level 0 because no link targets
    it, or level [z] because a link comes from a node taken from the queue
    whose level is [z - 1]. *)
Definition tight (links : list link) (done : list string) (st : level_state)
  : Prop :=
  ∀ n z, dict_get (levels st) n = Some (Some z) →
         0 ≤ z
         ∧ (z = 0 ∧ no_inbound links n
            ∨ ∃ l, l ∈ links ∧ tgt_node l = n ∧ src_node l ∈ done
                   ∧ dict_get (levels st) (src_node l) = Some (Some (z - 1))).

(** ** Notions for the properties of the highlighter *)

(** A walk ends by returning or by using up the stack. *)
Definition returns_or_overflows {A} (m : outcome A) : Prop :=
  (∃ a, m = Ok a) ∨ m = Raise RangeError.

(** The statement that, with room for [stack] levels, both walks return
    the reachable keys on every link list and for every selected key. *)
Definition walks_return_on_every_link_list (stack : nat) : Prop :=
  ∀ links key,
    ∃ anc desc,
      ancestors stack links key = Ok anc
      ∧ descendants stack links key = Ok desc
      ∧ (∀ k, k ∈ anc ↔ reachable (adjacency links).2 key k)
      ∧ (∀ k, k ∈ desc ↔ reachable (adjacency links).1 key k).

(** A chain of [n] links over [n + 1] nodes: the node ids are
    ["n"], ["nn"], ["nnn"], ... and every node has the one field [f]. *)
Fixpoint chain_name (i : nat) : string :=
  match i with
  | O => "n"
  | S j => String "n" (chain_name j)
  end.

Definition chain_ref (i : nat) : ref := Ref (chain_name i) "f".

Definition chain_links (n : nat) : list link :=
  (λ i, Link (chain_ref i) (chain_ref (S i))) <$> seq 0 n.

(** The separator of the keys does not occur in the string. *)
Definition no_bar (s : string) : Prop := ¬ occurs "|"%char s.

(** The key touches no link. *)
Definition unlinked (links : list link) (key : string) : Prop :=
  ∀ l, l ∈ links → key_of (source l) ≠ key ∧ key_of (target l) ≠ key.

(** ** Redrawing on scroll and resize (lines 241-253) *)











(** * Properties *)

(** ** Dictionaries *)

Section assoc_facts.
Context {K V : Type} `{EqDecision K}.
Implicit Types (d : list (K * V)) (k : K) (v : V).

Lemma dict_get_set d k k' v :
  dict_get (dict_set d k v) k'
  = if decide (k = k') then Some v else dict_get d k'.
Proof.
  induction d as [|[k0 v0] d IH]; simpl.
  - repeat case_decide; congruence.
  - repeat (case_decide; simpl; subst); try congruence.
    all: rewrite IH; case_decide; congruence.
Qed.

Lemma dict_get_set_eq d k v : dict_get (dict_set d k v) k = Some v.
Proof. rewrite dict_get_set. by case_decide. Qed.

Lemma dict_get_set_ne d k k' v :
  k ≠ k' → dict_get (dict_set d k v) k' = dict_get d k'.
Proof. intros. rewrite dict_get_set. by case_decide. Qed.

Lemma dict_get_is_Some d k : is_Some (dict_get d k) ↔ k ∈ dict_keys d.
Proof.
  unfold dict_keys. induction d as [|[k0 v0] d IH]; simpl.
  - rewrite elem_of_nil. split; [intros [? [=]] | done].
  - rewrite elem_of_cons. case_decide; subst.
    + split; eauto.
    + rewrite IH. split; [by right | by intros [?|?]].
Qed.

Lemma dict_get_None d k : dict_get d k = None ↔ k ∉ dict_keys d.
Proof. rewrite <- dict_get_is_Some, eq_None_not_Some. done. Qed.

Lemma dict_get_Some_key d k v : dict_get d k = Some v → k ∈ dict_keys d.
Proof. intros. apply dict_get_is_Some. eauto. Qed.

Lemma dict_keys_set_in d k v :
  k ∈ dict_keys d → dict_keys (dict_set d k v) = dict_keys d.
Proof.
  unfold dict_keys. induction d as [|[k0 v0] d IH]; simpl.
  - by intros ?%elem_of_nil.
  - intros Hk. case_decide as Hk0; simpl; [by rewrite Hk0|].
    f_equal. apply IH. apply elem_of_cons in Hk as [Hk|Hk]; [congruence|done].
Qed.

Lemma dict_keys_set_notin d k v :
  k ∉ dict_keys d → dict_keys (dict_set d k v) = dict_keys d ++ [k].
Proof.
  unfold dict_keys. induction d as [|[k0 v0] d IH]; simpl; [done|].
  intros Hk. apply not_elem_of_cons in Hk as [Hk0 Hk].
  rewrite decide_False by done. simpl. f_equal. auto.
Qed.

Lemma dict_keys_set_NoDup d k v :
  NoDup (dict_keys d) → NoDup (dict_keys (dict_set d k v)).
Proof.
  intros Hd. destruct (decide (k ∈ dict_keys d)) as [Hk|Hk].
  - by rewrite dict_keys_set_in.
  - rewrite dict_keys_set_notin by done.
    apply NoDup_app. split_and!; [done | | apply NoDup_singleton].
    intros x Hx Hx'. apply list_elem_of_singleton in Hx'. by subst.
Qed.

Lemma dict_keys_set_elem d k v k' :
  k' ∈ dict_keys (dict_set d k v) ↔ k' = k ∨ k' ∈ dict_keys d.
Proof.
  rewrite <- !dict_get_is_Some, dict_get_set. case_decide; subst.
  - split; eauto.
  - split; [eauto | intros [?|?]; congruence].
Qed.

Lemma dict_get_elem_of d k v : dict_get d k = Some v → (k, v) ∈ d.
Proof.
  induction d as [|[k0 v0] d IH]; simpl; [done|].
  case_decide as Hk.
  - intros Hv. injection Hv as Hv. rewrite Hk, Hv. left.
  - intros. right. auto.
Qed.

Lemma dict_elem_of_get d k v :
  NoDup (dict_keys d) → (k, v) ∈ d → dict_get d k = Some v.
Proof.
  unfold dict_keys. induction d as [|[k0 v0] d IH]; simpl.
  - intros _ Hin. by apply elem_of_nil in Hin.
  - intros [Hk0 Hd]%NoDup_cons Hin. apply elem_of_cons in Hin as [Heq|Hin].
    + injection Heq as Hk Hv. by rewrite decide_True, Hv.
    + rewrite decide_False; [auto|]. intros ->. apply Hk0.
      apply list_elem_of_fmap. by exists (k, v).
Qed.

Lemma dict_get_fmap {W} (g : V → W) d k :
  dict_get (prod_map id g <$> d) k = g <$> dict_get d k.
Proof.
  induction d as [|[k0 v0] d IH]; simpl; [done|]. by case_decide.
Qed.

Lemma dict_keys_fmap {W} (g : V → W) d :
  dict_keys (prod_map id g <$> d) = dict_keys d.
Proof.
  unfold dict_keys. rewrite <- list_fmap_compose.
  apply list_fmap_ext. by intros ? [].
Qed.

Lemma dict_set_fmap_same {W} (g : V → W) d k v v0 :
  dict_get d k = Some v0 → g v = g v0 →
  prod_map id g <$> dict_set d k v = prod_map id g <$> d.
Proof.
  induction d as [|[k1 v1] d IH]; simpl; [done|].
  case_decide; subst; simpl.
  - intros [= ->] Hg. f_equal. unfold prod_map. simpl. by rewrite Hg.
  - intros. f_equal. auto.
Qed.
End assoc_facts.

(** ** Loops *)

Section for_each_facts.
Context {A S : Type}.
Implicit Types (body : A → S → outcome S) (xs : list A) (s : S).

Lemma bind_Ok {B C} (m : outcome B) (k : B → outcome C) c :
  bind m k = Ok c ↔ ∃ b, m = Ok b ∧ k b = Ok c.
Proof.
  destruct m as [b| |]; simpl.
  - split; [eauto | by intros (? & [= <-] & ?)].
  - split; [done | by intros (? & ? & _)].
  - split; [done | by intros (? & ? & _)].
Qed.

(** An invariant of the loop body is an invariant of the loop. *)
Lemma for_each_inv (I : S → Prop) body xs s s' :
  (∀ x s1 s2, x ∈ xs → I s1 → body x s1 = Ok s2 → I s2) →
  I s → for_each body xs s = Ok s' → I s'.
Proof.
  revert s. induction xs as [|x xs IH]; intros s Hbody Hs; simpl.
  - by intros [= <-].
  - intros (s1 & H1 & H2)%bind_Ok. eapply IH; [|by eapply Hbody; [left|..]|done].
    intros ? ? ? ?. apply Hbody. by right.
Qed.

(** A loop whose iterations return and each append to an output list. *)
Lemma for_each_emit {L} (I : S → Prop) (out : S → list L) (g : A → list L)
    body xs s :
  (∀ x s1, x ∈ xs → I s1 →
           ∃ s2, body x s1 = Ok s2 ∧ I s2 ∧ out s2 = out s1 ++ g x) →
  I s →
  ∃ s', for_each body xs s = Ok s' ∧ I s' ∧ out s' = out s ++ (xs ≫= g).
Proof.
  revert s. induction xs as [|x xs IH]; intros s Hbody Hs; simpl.
  - exists s. by rewrite app_nil_r.
  - destruct (Hbody x s) as (s1 & -> & Hs1 & Ho1); [left|done|]. simpl.
    destruct (IH s1) as (s' & -> & Hs' & Ho'); [|done|].
    { intros. apply Hbody; [by right|done]. }
    exists s'. split_and!; [done..|]. by rewrite Ho', Ho1, <- app_assoc.
Qed.

End for_each_facts.

(** ** The match pattern *)

Lemma in_class_word_char c : in_class c = true ↔ is_word_char c.
Proof.
  destruct c as [[] [] [] [] [] [] [] []];
    vm_compute; split; intros H; try discriminate; try reflexivity;
    try (exfalso; repeat (destruct H as [H|H]; [discriminate H|]); exact H);
    repeat (first [left; reflexivity | right]).
Qed.

Lemma negb_in_class c : negb (in_class c) = true ↔ ¬ is_word_char c.
Proof.
  rewrite <- in_class_word_char. destruct (in_class c); simpl; split;
    try done; intros H; by destruct H.
Qed.

Lemma lookaround_ok (o : option ascii) :
  match o with Some p => negb (in_class p) | None => true end = true
  ↔ no_word_char o.
Proof. destruct o; simpl; [apply negb_in_class | done]. Qed.

Lemma lookahead_ok (s : string) :
  match s with String a _ => negb (in_class a) | EmptyString => true end = true
  ↔ no_word_char (first_char s).
Proof. destruct s; simpl; [done | apply negb_in_class]. Qed.

Lemma append_cons c (a b : string) : String c a +:+ b = String c (a +:+ b).
Proof. reflexivity. Qed.

Lemma append_nil (b : string) : "" +:+ b = b.
Proof. reflexivity. Qed.

Lemma consume_spec l prev s prev' s' :
  consume l prev s = Some (prev', s')
  ↔ s = l +:+ s' ∧ prev' = last_char prev l.
Proof.
  revert prev s. induction l as [|a l IH]; intros prev s; simpl.
  - rewrite append_nil. split; [intros [= <- <-]; done | intros [-> ->]; done].
  - rewrite append_cons. destruct s as [|b s]; [split; [done | intros [[=] _]]|].
    case_decide as Hab.
    + subst b. rewrite IH. split.
      * intros [-> ->]. done.
      * intros [[= ->] ->]. done.
    + split; [done | intros [[= ? ?] _]; done].
Qed.

Lemma match_here_pattern a prev s :
  match_here (pattern a) prev s = true
  ↔ no_word_char prev
    ∧ ∃ post, s = a +:+ post ∧ no_word_char (first_char post).
Proof.
  unfold pattern, re_escape. simpl.
  rewrite andb_true_iff, lookaround_ok.
  destruct (consume a prev s) as [[prev' s']|] eqn:Hc.
  - apply consume_spec in Hc as [-> ->].
    rewrite andb_true_r, lookahead_ok. split.
    + intros [? ?]. eauto.
    + intros [? (post & Heq & ?)]. apply String.app_inj in Heq. by subst.
  - split; [intros [_ [=]]|].
    intros [_ (post & -> & _)].
    assert (consume a prev (a +:+ post) = Some (last_char prev a, post))
      as Hc' by by apply consume_spec.
    congruence.
Qed.

Lemma search_from_spec r prev s :
  search_from r prev s = true
  ↔ ∃ pre post, s = pre +:+ post
                ∧ match_here r (last_char prev pre) post = true.
Proof.
  revert prev. induction s as [|c s IH]; intros prev; simpl.
  - rewrite orb_false_r. split.
    + intros H. by exists "", "".
    + intros (pre & post & Heq & H). destruct pre; [|done].
      rewrite append_nil in Heq. by subst.
  - rewrite orb_true_iff, IH. split.
    + intros [H | (pre & post & -> & H)].
      * by exists "", (String c s).
      * by exists (String c pre), post.
    + intros (pre & post & Heq & H). destruct pre as [|c' pre].
      * rewrite append_nil in Heq. left. by subst.
      * rewrite append_cons in Heq. injection Heq as <- ->. right. eauto.
Qed.

Lemma re_search_whole_token a fm :
  re_search (pattern a) fm = true ↔ whole_token a fm.
Proof.
  unfold re_search, whole_token. rewrite search_from_spec. split.
  - intros (pre & rest & -> & H). apply match_here_pattern in H
      as [Hb (post & -> & Ha)]. by exists pre, post.
  - intros (pre & post & -> & Hb & Ha). exists pre, (a +:+ post).
    split; [done|]. apply match_here_pattern. eauto.
Qed.

(** C2: the match test of the Lineage Inferrer, [re.search] with the
    pattern built from the escaped alias, succeeds exactly when the alias
    occurs in the formula character for character (so case-sensitively and
    with no metacharacter read into it) with no letter, digit or underscore
    right before or right after the occurrence; the alias [x] does not match
    [max] or [x1] and matches [x], [x+1] and [(x)]. *)
Theorem token_match_is_whole_word :
  (∀ sField fml, re_search (pattern sField) fml = true
                 ↔ whole_token sField fml)
  ∧ re_search (pattern "x") "max" = false
  ∧ re_search (pattern "x") "x1" = false
  ∧ re_search (pattern "x") "x" = true
  ∧ re_search (pattern "x") "x+1" = true
  ∧ re_search (pattern "x") "(x)" = true
  ∧ re_search (pattern "x") "X" = false
  ∧ re_search (pattern "a.b") "axb" = false.
Proof.
  split; [exact re_search_whole_token|].
  repeat split; reflexivity.
Qed.

Lemma token_match_is_whole_word_witness :
  re_search (pattern "x") "(x)" = true ∧ whole_token "x" "(x)".
Proof.
  split; [reflexivity|].
  apply (proj1 (proj1 token_match_is_whole_word "x" "(x)")). reflexivity.
Defined.

(** ** The field catalog *)

Lemma foldl_inv {A B} (I : B → Prop) (f : B → A → B) (l : list A) (b : B) :
  (∀ b x, x ∈ l → I b → I (f b x)) → I b → I (foldl f b l).
Proof.
  revert b. induction l as [|x l IH]; intros b Hf Hb; simpl; [done|].
  apply IH.
  - intros. apply Hf; [by right|done].
  - apply Hf; [left|done].
Qed.

Lemma dict_set_Forall {K V} `{EqDecision K} (P : K * V → Prop)
    (d : list (K * V)) k v :
  Forall P d → P (k, v) → Forall P (dict_set d k v).
Proof.
  induction 1 as [|[k0 v0] d H0 Hd IH]; intros Hkv; simpl.
  - by constructor.
  - case_decide; constructor; auto.
Qed.

Lemma pristine_set o f fml :
  pristine o → pristine (dict_set o f (FieldMeta fml None)).
Proof.
  intros [Hn Hf]. split.
  - by apply dict_keys_set_NoDup.
  - by apply dict_set_Forall.
Qed.

Lemma collect_output_pristine n : pristine (collect_output n).
Proof.
  unfold collect_output.
  repeat (apply foldl_inv; [intros o f _ Ho|]).
  - destruct (rf_select f); [by apply pristine_set | done].
  - by apply pristine_set.
  - by apply pristine_set.
  - split; [apply NoDup_nil_2 | constructor].
Qed.

Lemma build_nodes_pristine ns :
  NoDup (dict_keys (build_nodes ns))
  ∧ Forall (λ p, pristine (output p.2)) (build_nodes ns).
Proof.
  unfold build_nodes. apply foldl_inv.
  - intros nodes n _ [Hk Hp]. case_decide; [done|]. split.
    + by apply dict_keys_set_NoDup.
    + apply dict_set_Forall; [done|]. apply collect_output_pristine.
  - split; [apply NoDup_nil_2 | constructor].
Qed.

Lemma build_nodes_wf ns : wf_shape (shape (build_nodes ns)).
Proof.
  destruct (build_nodes_pristine ns) as [Hk Hp]. split.
  - unfold shape. by rewrite dict_keys_fmap.
  - unfold shape. apply Forall_fmap. eapply Forall_impl; [exact Hp|].
    intros [k n] [Hn _]. simpl. unfold shape_node.
    by rewrite dict_keys_fmap.
Qed.

Lemma build_nodes_annotated ns : annotated (build_nodes ns, []).
Proof.
  intros r m. unfold field_of. simpl.
  destruct (dict_get (build_nodes ns) (nodeId r)) as [n|] eqn:Hn; [|done].
  simpl. intros Hm.
  destruct (build_nodes_pristine ns) as [_ Hp].
  rewrite Forall_forall in Hp.
  apply dict_get_elem_of in Hn. apply Hp in Hn as [_ Hf]. simpl in Hf.
  rewrite Forall_forall in Hf.
  apply dict_get_elem_of in Hm. by apply Hf in Hm.
Qed.

(** ** The Lineage Inferrer *)

Lemma shape_get nodes k :
  dict_get (shape nodes) k = shape_node <$> dict_get nodes k.
Proof. apply dict_get_fmap. Qed.

Lemma shape_node_get n f :
  dict_get (shape_node n) f = formula <$> dict_get (output n) f.
Proof. apply dict_get_fmap. Qed.

Lemma shape_keys nodes : dict_keys (shape nodes) = dict_keys nodes.
Proof. apply dict_keys_fmap. Qed.

Lemma shape_node_keys n : dict_keys (shape_node n) = dict_keys (output n).
Proof. apply dict_keys_fmap. Qed.

Lemma set_source_spec nodes tgt tField r n m :
  dict_get nodes tgt = Some n →
  dict_get (output n) tField = Some m →
  ∃ nodes',
    set_source nodes tgt tField r = Ok nodes'
    ∧ shape nodes' = shape nodes
    ∧ ∀ r', field_of nodes' r'
            = if decide (r' = Ref tgt tField)
              then Some (FieldMeta (formula m) (Some r))
              else field_of nodes r'.
Proof.
  intros Hn Hm. unfold set_source, subscript. rewrite Hn. simpl.
  rewrite Hm. simpl. eexists. split; [done|]. split.
  - unfold shape. eapply dict_set_fmap_same; [done|].
    unfold shape_node. simpl. by eapply dict_set_fmap_same.
  - intros [n' f']. unfold field_of. simpl. rewrite dict_get_set.
    destruct (decide (tgt = n')) as [<-|Hne]; simpl.
    + rewrite dict_get_set, Hn. simpl.
      destruct (decide (tField = f')) as [<-|Hnf].
      * by rewrite decide_True.
      * rewrite decide_False by congruence. done.
    + rewrite decide_False by congruence. done.
Qed.

Lemma match_source_spec sh src tgt tField fml sField st tf :
  infer_inv sh st →
  dict_get sh tgt = Some tf →
  dict_get tf tField = Some fml →
  ∃ st',
    match_source src tgt tField fml sField st = Ok st'
    ∧ infer_inv sh st'
    ∧ st'.2 = st.2 ++ (if re_search (pattern sField) fml
                       then [Link (Ref src sField) (Ref tgt tField)]
                       else []).
Proof.
  intros [Hsh Han] Htf Hfml. unfold match_source.
  destruct (re_search (pattern sField) fml);
    [|exists st; by rewrite app_nil_r].
  subst sh. rewrite shape_get in Htf.
  destruct (dict_get st.1 tgt) as [n|] eqn:Hn; [|done].
  injection Htf as <-. rewrite shape_node_get in Hfml.
  destruct (dict_get (output n) tField) as [m|] eqn:Hm; [|done].
  destruct (set_source_spec st.1 tgt tField (Ref src sField) n m)
    as (nodes' & -> & Hsh' & Hf'); [done..|].
  simpl. eexists. split; [done|]. split; [|done]. split; [done|].
  intros r m'. simpl. rewrite Hf', filter_app, last_app.
  case_decide as Hr.
  - intros [= <-]. subst r. rewrite filter_cons_True by done. done.
  - rewrite filter_cons_False by (simpl; congruence). simpl. apply Han.
Qed.

Lemma match_target_spec sh src tgt sourceFields t st tf :
  infer_inv sh st →
  dict_get sh tgt = Some tf →
  dict_get tf t.1 = Some (formula t.2) →
  ∃ st',
    match_target src tgt sourceFields t st = Ok st'
    ∧ infer_inv sh st'
    ∧ st'.2 = st.2 ++ emitted src tgt sourceFields (prod_map id formula t).
Proof.
  intros Hst Htf Ht. unfold match_target, emitted.
  apply (for_each_emit (infer_inv sh) snd); [|done].
  intros sField s1 _ Hs1. by eapply match_source_spec.
Qed.

Lemma infer_edge_spec sh e st :
  wf_shape sh → infer_inv sh st → resolvable sh e →
  ∃ st',
    infer_edge e st = Ok st'
    ∧ infer_inv sh st'
    ∧ st'.2 = st.2 ++ edge_links sh e.
Proof.
  intros [_ Hwf] Hst [Hs Ht]. unfold infer_edge, edge_links, subscript.
  pose proof Hst as [Hsh _].
  apply dict_get_is_Some in Hs as [sf Hsf].
  apply dict_get_is_Some in Ht as [tf Htf].
  rewrite Hsf, Htf. rewrite <- Hsh, shape_get in Hsf, Htf.
  destruct (dict_get st.1 (e_source e)) as [sn|]; [|done].
  destruct (dict_get st.1 (e_target e)) as [tn|] eqn:Htn; [|done].
  simpl in *. injection Hsf as <-. injection Htf as <-.
  rewrite shape_node_keys.
  assert (dict_get sh (e_target e) = Some (shape_node tn)) as Htf.
  { by rewrite <- Hsh, shape_get, Htn. }
  assert (NoDup (dict_keys (output tn))) as Hnd.
  { rewrite Forall_forall in Hwf. apply dict_get_elem_of, Hwf in Htf.
    simpl in Htf. by rewrite shape_node_keys in Htf. }
  unfold shape_node. rewrite list_fmap_bind.
  apply (for_each_emit (infer_inv sh) snd); [|done].
  intros t s1 Hin Hs1.
  eapply match_target_spec; [done..|].
  rewrite shape_node_get. destruct t as [f m]. simpl.
  by rewrite (dict_elem_of_get _ _ _ Hnd Hin).
Qed.

Lemma infer_edge_unresolvable sh e st :
  shape st.1 = sh → ¬ resolvable sh e →
  ∃ k, (k = e_source e ∨ k = e_target e) ∧ (k ∉ dict_keys sh)
       ∧ infer_edge e st = Raise (KeyError k).
Proof.
  intros <- Hne. unfold infer_edge, subscript.
  destruct (dict_get st.1 (e_source e)) as [sn|] eqn:Hs.
  - destruct (dict_get st.1 (e_target e)) as [tn|] eqn:Ht.
    + destruct Hne. split; rewrite shape_keys; by eapply dict_get_Some_key.
    + exists (e_target e). split_and!; [by right| |done].
      rewrite shape_keys. by apply dict_get_None.
  - exists (e_source e). split_and!; [by left| |done].
    rewrite shape_keys. by apply dict_get_None.
Qed.

(** The edges are processed in order: all of them when every one is
    resolvable, and up to the first one that is not otherwise. *)
Lemma infer_edges_outcome sh edges st :
  wf_shape sh → infer_inv sh st →
  (Forall (resolvable sh) edges
   ∧ ∃ st', for_each infer_edge edges st = Ok st'
            ∧ infer_inv sh st' ∧ st'.2 = st.2 ++ all_links sh edges)
  ∨ (∃ e k, e ∈ edges ∧ (k = e_source e ∨ k = e_target e)
            ∧ (k ∉ dict_keys sh)
            ∧ for_each infer_edge edges st = Raise (KeyError k)).
Proof.
  intros Hwf. revert st. induction edges as [|e edges IH]; intros st Hst.
  - left. split; [constructor|]. exists st. simpl. by rewrite app_nil_r.
  - simpl. destruct (decide (resolvable sh e)) as [He|He].
    + destruct (infer_edge_spec sh e st) as (s1 & -> & Hs1 & Ho1); [done..|].
      simpl. destruct (IH s1 Hs1) as [[Hall (s2 & -> & Hs2 & Ho2)]|Hbad].
      * left. split; [by constructor|]. exists s2. split_and!; [done..|].
        unfold all_links in *. simpl. by rewrite Ho2, Ho1, <- app_assoc.
      * right. destruct Hbad as (e' & k & ? & ? & ? & ?).
        exists e', k. split_and!; [by right|done..].
    + right. destruct Hst as [Hsh _].
      destruct (infer_edge_unresolvable sh e st) as (k & ? & ? & ->);
        [done..|].
      exists e, k. split_and!; [left|done..].
Qed.

(** What [readFlow] returns when it returns. *)
Lemma readFlow_Ok file nodes links :
  readFlow file = Ok (nodes, links) →
  let sh := shape (build_nodes (fl_nodes file)) in
  shape nodes = sh
  ∧ wf_shape sh
  ∧ annotated (nodes, links)
  ∧ links = all_links sh (fl_edges file)
  ∧ Forall (resolvable sh) (fl_edges file).
Proof.
  intros Hrun sh. unfold readFlow in Hrun.
  assert (wf_shape sh) as Hwf by apply build_nodes_wf.
  destruct (infer_edges_outcome sh (fl_edges file)
              (build_nodes (fl_nodes file), []) Hwf)
    as [[Hall (st' & Hst' & [Hsh Han] & Hout)]|(e & k & _ & _ & _ & Hr)].
  - split; [done | apply build_nodes_annotated].
  - rewrite Hrun in Hst'. injection Hst' as <-. simpl in *. by subst.
  - congruence.
Qed.

(** [readFlow] returns exactly when every edge is resolvable. *)
Lemma readFlow_total file :
  Forall (resolvable (shape (build_nodes (fl_nodes file)))) (fl_edges file) →
  ∃ nodes links, readFlow file = Ok (nodes, links).
Proof.
  intros Hall. unfold readFlow.
  destruct (infer_edges_outcome (shape (build_nodes (fl_nodes file)))
              (fl_edges file) (build_nodes (fl_nodes file), []))
    as [[_ ([nodes links] & -> & _)]|(e & k & He & Hk & Hn & _)].
  - apply build_nodes_wf.
  - split; [done | apply build_nodes_annotated].
  - eauto.
  - rewrite Forall_forall in Hall. apply Hall in He as [? ?].
    destruct Hk; by subst.
Qed.

Lemma elem_of_emitted src tgt sourceFields t l :
  l ∈ emitted src tgt sourceFields t
  ↔ ∃ sField, sField ∈ sourceFields
              ∧ re_search (pattern sField) t.2 = true
              ∧ l = Link (Ref src sField) (Ref tgt t.1).
Proof.
  unfold emitted. rewrite list_elem_of_bind. split.
  - intros (sField & Hl & Hin). exists sField.
    destruct (re_search (pattern sField) t.2).
    + apply list_elem_of_singleton in Hl. done.
    + by apply elem_of_nil in Hl.
  - intros (sField & Hin & Hm & ->). exists sField. rewrite Hm.
    split; [left | done].
Qed.

Lemma elem_of_edge_links sh e l :
  l ∈ edge_links sh e
  ↔ ∃ sf tf t sField,
      dict_get sh (e_source e) = Some sf
      ∧ dict_get sh (e_target e) = Some tf
      ∧ t ∈ tf ∧ sField ∈ dict_keys sf
      ∧ re_search (pattern sField) t.2 = true
      ∧ l = Link (Ref (e_source e) sField) (Ref (e_target e) t.1).
Proof.
  unfold edge_links. split.
  - destruct (dict_get sh (e_source e)) as [sf|];
      [|by intros ?%elem_of_nil].
    destruct (dict_get sh (e_target e)) as [tf|];
      [|by intros ?%elem_of_nil].
    intros (t & Hl & Ht)%list_elem_of_bind.
    apply elem_of_emitted in Hl as (sField & ? & ? & ?).
    by exists sf, tf, t, sField.
  - intros (sf & tf & t & sField & -> & -> & Ht & Hs & Hm & ->).
    apply list_elem_of_bind. exists t. split; [|done].
    apply elem_of_emitted. by exists sField.
Qed.

Lemma elem_of_all_links sh edges l :
  l ∈ all_links sh edges ↔ ∃ e, e ∈ edges ∧ l ∈ edge_links sh e.
Proof.
  unfold all_links. rewrite list_elem_of_bind. split.
  - intros (e & ? & ?). by exists e.
  - intros (e & ? & ?). by exists e.
Qed.

(** An emitted link, read back in the returned catalog. *)
Lemma readFlow_link file nodes links l :
  readFlow file = Ok (nodes, links) → l ∈ links →
  ∃ e sn tn m,
    e ∈ fl_edges file
    ∧ nodeId (source l) = e_source e ∧ nodeId (target l) = e_target e
    ∧ dict_get nodes (e_source e) = Some sn
    ∧ dict_get nodes (e_target e) = Some tn
    ∧ fieldAlias (source l) ∈ dict_keys (output sn)
    ∧ dict_get (output tn) (fieldAlias (target l)) = Some m
    ∧ re_search (pattern (fieldAlias (source l))) (formula m) = true.
Proof.
  intros Hrun Hl.
  apply readFlow_Ok in Hrun as (Hsh & [_ Hwf] & _ & -> & _).
  apply elem_of_all_links in Hl as (e & He & Hl).
  apply elem_of_edge_links in Hl
    as (sf & tf & [tField fml] & sField & Hsf & Htf & Ht & Hs & Hm & ->).
  rewrite <- Hsh, shape_get in Hsf, Htf.
  destruct (dict_get nodes (e_source e)) as [sn|] eqn:Hsn; [|done].
  destruct (dict_get nodes (e_target e)) as [tn|] eqn:Htn; [|done].
  simpl in *. injection Hsf as <-. injection Htf as <-.
  rewrite shape_node_keys in Hs.
  assert (dict_get (shape_node tn) tField = Some fml) as Hf.
  { apply dict_elem_of_get; [|done].
    rewrite Forall_forall in Hwf.
    apply (Hwf (e_target e, shape_node tn)).
    apply dict_get_elem_of. by rewrite <- Hsh, shape_get, Htn. }
  rewrite shape_node_get in Hf.
  destruct (dict_get (output tn) tField) as [m|] eqn:Hm'; [|done].
  injection Hf as <-. by exists e, sn, tn, m.
Qed.

(** C4: a link that [readFlow] emits joins fields of two nodes that a
    declared structural edge joins, from the source node of the edge to its
    target node; a textual match alone never yields a link. *)
Theorem links_follow_structural_edges file nodes links l :
  readFlow file = Ok (nodes, links) → l ∈ links →
  ∃ e, e ∈ fl_edges file
       ∧ e_source e = nodeId (source l)
       ∧ e_target e = nodeId (target l).
Proof.
  intros Hrun Hl.
  destruct (readFlow_link _ _ _ _ Hrun Hl)
    as (e & _ & _ & _ & He & Hs & Ht & _).
  by exists e.
Qed.

Lemma links_follow_structural_edges_witness :
  let l := Link (Ref "Node1" "a") (Ref "Node2" "b") in
  (∃ nodes, readFlow flow_A = Ok (nodes, [l]))
  ∧ (∃ nodes, readFlow flow_A_no_edge = Ok (nodes, []))
  ∧ ∃ e, e ∈ fl_edges flow_A
         ∧ e_source e = nodeId (source l) ∧ e_target e = nodeId (target l).
Proof.
  intros l. split; [eexists; vm_compute; reflexivity|].
  split; [eexists; vm_compute; reflexivity|].
  eapply (links_follow_structural_edges flow_A _ [l] l).
  - vm_compute. reflexivity.
  - left.
Defined.

(** C10: whenever [readFlow] returns, both ends of every link are in the
    returned catalog: the node ids are keys of the node mapping and the
    field aliases are keys of the field mappings of those nodes. *)
Theorem links_well_formed file nodes links l :
  readFlow file = Ok (nodes, links) → l ∈ links →
  ∃ sn tn,
    dict_get nodes (nodeId (source l)) = Some sn
    ∧ dict_get nodes (nodeId (target l)) = Some tn
    ∧ fieldAlias (source l) ∈ dict_keys (output sn)
    ∧ fieldAlias (target l) ∈ dict_keys (output tn).
Proof.
  intros Hrun Hl.
  destruct (readFlow_link _ _ _ _ Hrun Hl)
    as (e & sn & tn & m & _ & -> & -> & Hsn & Htn & Hs & Ht & _).
  exists sn, tn. split_and!; [done..|]. by eapply dict_get_Some_key.
Qed.

Lemma links_well_formed_witness :
  let l := Link (Ref "Node1" "a") (Ref "Node2" "b") in
  ∃ nodes,
    readFlow flow_A = Ok (nodes, [l])
    ∧ ∃ sn tn,
        dict_get nodes (nodeId (source l)) = Some sn
        ∧ dict_get nodes (nodeId (target l)) = Some tn
        ∧ fieldAlias (source l) ∈ dict_keys (output sn)
        ∧ fieldAlias (target l) ∈ dict_keys (output tn).
Proof.
  intros l. eexists. split; [vm_compute; reflexivity|].
  eapply (links_well_formed flow_A _ [l] l).
  - vm_compute. reflexivity.
  - left.
Defined.

Lemma filter_none {A} (P : A → Prop) `{∀ x, Decision (P x)} (l : list A) :
  (∀ x, x ∈ l → ¬ P x) → filter P l = [].
Proof.
  induction l as [|x l IH]; intros Hall; [done|].
  rewrite filter_cons, decide_False by (apply Hall; left).
  apply IH. intros. apply Hall. by right.
Qed.

Lemma filter_all {A} (P : A → Prop) `{∀ x, Decision (P x)} (l : list A) :
  (∀ x, x ∈ l → P x) → filter P l = l.
Proof.
  induction l as [|x l IH]; intros Hall; [done|].
  rewrite filter_cons, decide_True by (apply Hall; left).
  f_equal. apply IH. intros. apply Hall. by right.
Qed.

Lemma filter_bind {A B} (P : B → Prop) `{∀ x, Decision (P x)}
    (f : A → list B) (l : list A) :
  filter P (l ≫= f) = l ≫= λ x, filter P (f x).
Proof.
  induction l as [|x l IH]; [done|].
  cbn [mbind list_bind]. by rewrite filter_app, IH.
Qed.

Lemma fmap_bind {A B C} (g : B → C) (f : A → list B) (l : list A) :
  g <$> (l ≫= f) = l ≫= λ x, g <$> f x.
Proof.
  induction l as [|x l IH]; [done|].
  cbn [mbind list_bind]. by rewrite fmap_app, IH.
Qed.

Lemma emitted_sources src tgt sourceFields t :
  source <$> emitted src tgt sourceFields t
  = Ref src <$> filter (λ s, re_search (pattern s) t.2 = true) sourceFields.
Proof.
  unfold emitted. induction sourceFields as [|s ss IH]; [done|].
  cbn [mbind list_bind]. rewrite fmap_app, IH, filter_cons.
  destruct (re_search (pattern s) t.2); case_decide; done.
Qed.

Lemma emitted_targets src tgt sourceFields t l :
  l ∈ emitted src tgt sourceFields t → target l = Ref tgt t.1.
Proof. by intros (s & _ & _ & ->)%elem_of_emitted. Qed.

(** Among the links of one edge, those into the field [tField] are the
    matches of its formula. *)
Lemma edge_links_into src tgt (tf : dict string) sourceFields tField fml :
  NoDup (dict_keys tf) → dict_get tf tField = Some fml →
  source <$> filter (λ l, target l = Ref tgt tField)
                    (tf ≫= emitted src tgt sourceFields)
  = Ref src <$> filter (λ s, re_search (pattern s) fml = true) sourceFields.
Proof.
  intros Hnd Hget. rewrite filter_bind.
  unfold dict_keys in Hnd.
  induction tf as [|[k fm] tf IH]; [done|].
  cbn [mbind list_bind]. simpl in Hget, Hnd.
  apply NoDup_cons in Hnd as [Hk Hnd]. rewrite fmap_app.
  destruct (decide (k = tField)) as [->|Hne].
  - injection Hget as ->. rewrite filter_all.
    2: { intros l Hl. by apply emitted_targets in Hl. }
    rewrite emitted_sources. simpl.
    assert (tf ≫= (λ x, filter (λ l, target l = Ref tgt tField)
                               (emitted src tgt sourceFields x)) = []) as ->.
    { clear IH Hnd. induction tf as [|[k' fm'] tf IH]; [done|].
      cbn [mbind list_bind]. apply not_elem_of_cons in Hk as [Hk' Hk].
      rewrite IH by done. rewrite filter_none; [done|].
      intros l Hl%emitted_targets. rewrite Hl. simpl in *. congruence. }
    by rewrite app_nil_r.
  - rewrite filter_none.
    2: { intros l Hl%emitted_targets. rewrite Hl. simpl. congruence. }
    simpl. by apply IH.
Qed.

(** The sources of the links into a field, in the order of emission. *)
Lemma links_into nodes edges tgt tField m :
  wf_shape (shape nodes) →
  field_of nodes (Ref tgt tField) = Some m →
  source <$> filter (λ l, target l = Ref tgt tField)
                    (all_links (shape nodes) edges)
  = matching_sources nodes edges tgt (formula m).
Proof.
  intros [_ Hwf] Hm. unfold field_of in Hm. simpl in Hm.
  destruct (dict_get nodes tgt) as [tn|] eqn:Htn; [|done]. simpl in Hm.
  unfold all_links, matching_sources. rewrite filter_bind, fmap_bind.
  induction edges as [|e edges IH]; [done|].
  cbn [mbind list_bind]. rewrite IH. f_equal.
  unfold edge_links, field_keys. rewrite !shape_get.
  destruct (decide (e_target e = tgt)) as [->|Hne].
  - rewrite Htn. simpl.
    destruct (dict_get nodes (e_source e)) as [sn|]; simpl; [|done].
    rewrite shape_node_keys. apply edge_links_into.
    + rewrite Forall_forall in Hwf.
      apply (Hwf (tgt, shape_node tn)). apply dict_get_elem_of.
      by rewrite shape_get, Htn.
    + by rewrite shape_node_get, Hm.
  - rewrite filter_none; [done|]. intros l Hl.
    destruct (dict_get nodes (e_source e)) as [sn|]; simpl in Hl;
      [|by apply elem_of_nil in Hl].
    destruct (dict_get nodes (e_target e)) as [tn'|]; simpl in Hl;
      [|by apply elem_of_nil in Hl].
    apply list_elem_of_bind in Hl as (t & Hl%emitted_targets & _).
    rewrite Hl. congruence.
Qed.

(** C3: in a returned flow, (1) for every structural edge, every source
    field of the source node whose alias matches the formula of a target
    field of the target node has its link in the link list; (2) the
    annotation of a field is the source of the last link of the list that
    targets the field, and (3) that is the last source field that matches
    its formula in the order of evaluation: the edges into its node in
    order and, per edge, the fields of the source node in insertion order
    (no annotation when nothing matches); (4) there is a flow with two
    links into one field the annotation of which is the source of the
    second link and not of the first. *)
Theorem every_match_linked_last_match_annotated :
  (∀ file nodes links,
     readFlow file = Ok (nodes, links) →
     (∀ e sn tn sField tField m,
        e ∈ fl_edges file →
        dict_get nodes (e_source e) = Some sn →
        dict_get nodes (e_target e) = Some tn →
        sField ∈ dict_keys (output sn) →
        dict_get (output tn) tField = Some m →
        re_search (pattern sField) (formula m) = true →
        Link (Ref (e_source e) sField) (Ref (e_target e) tField) ∈ links)
     ∧ (∀ r m, field_of nodes r = Some m →
               meta_source m
               = source <$> last (filter (λ l, target l = r) links))
     ∧ (∀ tgt tField m,
          field_of nodes (Ref tgt tField) = Some m →
          meta_source m
          = last (matching_sources nodes (fl_edges file) tgt (formula m))))
  ∧ ∃ nodes l1 l2 m,
      readFlow flow_fan_in = Ok (nodes, [l1; l2])
      ∧ target l1 = target l2
      ∧ field_of nodes (target l1) = Some m
      ∧ meta_source m = Some (source l2)
      ∧ meta_source m ≠ Some (source l1).
Proof.
  split.
  - intros file nodes links Hrun.
    pose proof (readFlow_Ok _ _ _ Hrun) as (Hsh & Hwf & Han & Hl & _).
    simpl in *. split_and!.
    + intros e sn tn sField tField m He Hsn Htn Hs Hm Hre.
      rewrite Hl. apply elem_of_all_links. exists e. split; [done|].
      apply elem_of_edge_links.
      exists (shape_node sn), (shape_node tn), (tField, formula m), sField.
      rewrite <- Hsh, !shape_get, Hsn, Htn, shape_node_keys.
      split_and!; try done.
      apply dict_get_elem_of. by rewrite shape_node_get, Hm.
    + exact Han.
    + intros tgt tField m Hm. rewrite (Han _ _ Hm). simpl.
      rewrite <- fmap_last, Hl, <- Hsh. f_equal.
      apply links_into; [by rewrite Hsh | done].
  - eexists _, (Link (Ref "Node1" "a") (Ref "Node2" "c")),
      (Link (Ref "Node1" "b") (Ref "Node2" "c")), _.
    split; [vm_compute; reflexivity|].
    split; [reflexivity|]. split; [vm_compute; reflexivity|].
    split; [reflexivity | discriminate].
Qed.

Lemma every_match_linked_last_match_annotated_witness :
  ∃ nodes links,
    readFlow flow_fan_in = Ok (nodes, links)
    ∧ Link (Ref "Node1" "a") (Ref "Node2" "c") ∈ links
    ∧ Link (Ref "Node1" "b") (Ref "Node2" "c") ∈ links
    ∧ (∀ m, field_of nodes (Ref "Node2" "c") = Some m →
            meta_source m = Some (Ref "Node1" "b")).
Proof.
  destruct (readFlow flow_fan_in) as [[nodes links]| |] eqn:Hrun;
    [|vm_compute in Hrun; discriminate Hrun..].
  destruct (proj1 every_match_linked_last_match_annotated
              flow_fan_in nodes links Hrun) as (Hall & _ & Hlast).
  assert (Ok (nodes, links) = readFlow flow_fan_in) as Heq by done.
  vm_compute in Heq. injection Heq as Hn Hl.
  exists nodes, links. split; [done|]. split_and!.
  - apply (Hall (RawEdge "Node1" "Node2")
             (Node None "Node1" None
                [("a", FieldMeta "" None); ("b", FieldMeta "" None)])
             (Node None "Node2" None
                [("c", FieldMeta "a + b" (Some (Ref "Node1" "b")))])
             "a" "c" (FieldMeta "a + b" (Some (Ref "Node1" "b"))));
      [left | by rewrite Hn | by rewrite Hn | left | done | done].
  - apply (Hall (RawEdge "Node1" "Node2")
             (Node None "Node1" None
                [("a", FieldMeta "" None); ("b", FieldMeta "" None)])
             (Node None "Node2" None
                [("c", FieldMeta "a + b" (Some (Ref "Node1" "b")))])
             "b" "c" (FieldMeta "a + b" (Some (Ref "Node1" "b"))));
      [left | by rewrite Hn | by rewrite Hn | right; left | done | done].
  - intros m Hm. rewrite (Hlast _ _ _ Hm).
    rewrite Hn in Hm. injection Hm as <-. by rewrite Hn.
Defined.

(** C7: when a structural edge names a node alias that is not a key of the
    field catalog, [readFlow] raises [KeyError] for an alias that is not in
    the catalog, and the command reports the failure on stderr, exits with
    status 1 and writes no artifact. *)
Theorem unresolvable_edge_is_fatal file rest writable e :
  e ∈ fl_edges file →
  (e_source e ∉ dict_keys (build_nodes (fl_nodes file)))
  ∨ (e_target e ∉ dict_keys (build_nodes (fl_nodes file))) →
  ∃ k,
    (k ∉ dict_keys (build_nodes (fl_nodes file)))
    ∧ readFlow file = Raise (KeyError k)
    ∧ main (Ok (file :: rest)) writable
      = Exit 1 (Some (FailedToLoad (KeyError k))) None.
Proof.
  intros He Hbad.
  destruct (infer_edges_outcome (shape (build_nodes (fl_nodes file)))
              (fl_edges file) (build_nodes (fl_nodes file), []))
    as [[Hall _]|(e' & k & _ & _ & Hk & Hr)].
  - apply build_nodes_wf.
  - split; [done | apply build_nodes_annotated].
  - rewrite Forall_forall in Hall. apply Hall in He as [Hs Ht].
    rewrite shape_keys in Hs, Ht. by destruct Hbad.
  - exists k. rewrite shape_keys in Hk. split; [done|].
    unfold main, readFlow. simpl. by rewrite Hr.
Qed.

Lemma unresolvable_edge_is_fatal_witness :
  RawEdge "Node1" "Err" ∈ fl_edges flow_exception
  ∧ ("Err" ∉ dict_keys (build_nodes (fl_nodes flow_exception)))
  ∧ ∃ k,
      (k ∉ dict_keys (build_nodes (fl_nodes flow_exception)))
      ∧ readFlow flow_exception = Raise (KeyError k)
      ∧ main (Ok [flow_exception]) true
        = Exit 1 (Some (FailedToLoad (KeyError k))) None.
Proof.
  assert ("Err" ∉ dict_keys (build_nodes (fl_nodes flow_exception))) as Hk.
  { vm_compute. intros Hin. apply list_elem_of_In in Hin.
    simpl in Hin. destruct Hin as [Hin|[]]. discriminate Hin. }
  split; [left|]. split; [done|].
  apply (unresolvable_edge_is_fatal flow_exception [] true
           (RawEdge "Node1" "Err")).
  - left.
  - right. exact Hk.
Defined.

Lemma re_search_empty_formula a :
  re_search (pattern a) "" = true → a = "".
Proof.
  intros (pre & post & Heq & _)%re_search_whole_token.
  destruct pre; [|done]. rewrite append_nil in Heq. by destruct a.
Qed.

(** C8, as the code has it: a field whose formula text is empty is the
    target of a link only when the alias of the source field of that link
    is the empty string; and such a field can be the source of a link
    (field [a] of [Node1] in scenario A). *)
Theorem empty_formula_target_only_of_empty_alias :
  (∀ file nodes links l m,
     readFlow file = Ok (nodes, links) → l ∈ links →
     field_of nodes (target l) = Some m → formula m = "" →
     fieldAlias (source l) = "")
  ∧ ∃ nodes links l m,
      readFlow flow_A = Ok (nodes, links) ∧ l ∈ links
      ∧ field_of nodes (source l) = Some m ∧ formula m = "".
Proof.
  split.
  - intros file nodes links l m Hrun Hl Hm Hf.
    destruct (readFlow_link _ _ _ _ Hrun Hl)
      as (e & sn & tn & m' & _ & _ & Ht & _ & Htn & _ & Hm' & Hre).
    unfold field_of in Hm. rewrite Ht, Htn in Hm. simpl in Hm.
    rewrite Hm' in Hm. injection Hm as ->. rewrite Hf in Hre.
    by apply re_search_empty_formula.
  - eexists _, _, (Link (Ref "Node1" "a") (Ref "Node2" "b")), _.
    split; [vm_compute; reflexivity|]. split; [left|].
    split; [vm_compute; reflexivity | reflexivity].
Qed.

Lemma empty_formula_target_only_of_empty_alias_witness :
  let l := Link (Ref "Node1" "") (Ref "Node2" "b") in
  ∃ nodes,
    readFlow flow_empty_alias = Ok (nodes, [l])
    ∧ field_of nodes (target l) = Some (FieldMeta "" (Some (source l)))
    ∧ fieldAlias (source l) = "".
Proof.
  intros l. eexists. split; [vm_compute; reflexivity|].
  split; [vm_compute; reflexivity|].
  eapply (proj1 empty_formula_target_only_of_empty_alias
            flow_empty_alias _ [l] l).
  - vm_compute. reflexivity.
  - left.
  - vm_compute. reflexivity.
  - reflexivity.
Defined.

(** C8 as stated fails: with a source field whose alias is the empty
    string, the field [b] of [Node2], which has no formula, is the target
    of a link. *)
Lemma empty_formula_can_be_target :
  ¬ empty_formula_never_target flow_empty_alias.
Proof.
  intros H.
  eapply (H _ [Link (Ref "Node1" "") (Ref "Node2" "b")]).
  - vm_compute. reflexivity.
  - left.
  - vm_compute. reflexivity.
  - reflexivity.
Qed.

(** ** The Level Assigner: termination *)

Lemma subscript_Ok {V} (d : dict V) k v :
  subscript d k = Ok v ↔ dict_get d k = Some v.
Proof.
  unfold subscript. destruct (dict_get d k); split; intros [=]; by subst.
Qed.

(** Decrementing [indegree[c]] moves [c] from the positive in-degrees to
    the queue exactly when the in-degree was one. *)
Lemma positive_after_decrement (ind : dict Z) c d :
  dict_get ind c = Some d →
  Nat.add (length (filter (λ p, 0 < p.2) (dict_set ind c (d - 1))))
          (if decide (d - 1 = 0) then 1%nat else 0%nat)
  = length (filter (λ p, 0 < p.2) ind).
Proof.
  induction ind as [|[k z] ind IH]; simpl; [done|].
  destruct (decide (k = c)) as [Hk|Hk].
  - intros [= ->]. rewrite !filter_cons. simpl.
    repeat case_decide; simpl; lia.
  - intros Hd. rewrite !filter_cons. simpl.
    specialize (IH Hd). repeat case_decide; simpl in *; lia.
Qed.

Lemma visit_child_waiting nid c st st' :
  visit_child nid c st = Ok st' → waiting st' = waiting st.
Proof.
  unfold visit_child.
  intros (d & Hd%subscript_Ok & H)%bind_Ok.
  apply bind_Ok in H as (ln & _ & H).
  apply bind_Ok in H as (lvl & _ & H).
  apply bind_Ok in H as (lc & _ & H).
  apply bind_Ok in H as (d' & Hd'%subscript_Ok & H).
  injection H as <-. unfold waiting. simpl.
  rewrite dict_get_set_eq in Hd'. injection Hd' as <-.
  rewrite <- (positive_after_decrement _ _ _ Hd).
  case_decide; [rewrite length_app; simpl|]; lia.
Qed.

Lemma visit_children_waiting nid cs st st' :
  for_each (visit_child nid) cs st = Ok st' → waiting st' = waiting st.
Proof.
  apply (for_each_inv (λ s, waiting s = waiting st)); [|done].
  intros c s1 s2 _ <-. apply visit_child_waiting.
Qed.

Lemma visit_child_fuel nid c st : visit_child nid c st ≠ OutOfFuel.
Proof.
  unfold visit_child, subscript.
  repeat (match goal with
          | |- context [match ?x with _ => _ end] => destruct x
          end; simpl; try done).
Qed.

Lemma for_each_fuel {A S} (body : A → S → outcome S) xs s :
  (∀ x s, body x s ≠ OutOfFuel) → for_each body xs s ≠ OutOfFuel.
Proof.
  intros Hbody. revert s. induction xs as [|x xs IH]; intros s; simpl.
  - done.
  - destruct (body x s) eqn:Hb; simpl; [apply IH | done | by apply Hbody in Hb].
Qed.

(** The loop ends within as many iterations as nodes are waiting. *)
Lemma drain_terminates children fuel st :
  (waiting st ≤ fuel)%nat → drain children fuel st ≠ OutOfFuel.
Proof.
  revert st. induction fuel as [|fuel IH]; intros st Hw; simpl.
  - unfold waiting in Hw. destruct (queue st); [done|simpl in Hw; lia].
  - destruct (queue st) as [|nid rest] eqn:Hq; [done|].
    destruct (for_each _ _ _) as [st'| |] eqn:Hfe; simpl; [|done|].
    + apply IH. apply visit_children_waiting in Hfe. rewrite Hfe.
      unfold waiting in *. rewrite Hq in Hw. simpl in *. lia.
    + by apply for_each_fuel in Hfe; [|apply visit_child_fuel].
Qed.

(** ** The Level Assigner: one node taken from the queue *)

Lemma occ_cons n c cs :
  occ n (c :: cs) = ((if decide (c = n) then 1 else 0) + occ n cs)%nat.
Proof. unfold occ. rewrite filter_cons. by case_decide. Qed.

Lemma occ_pos n cs : n ∈ cs ↔ (0 < occ n cs)%nat.
Proof.
  induction cs as [|c cs IH].
  - split; [by intros ?%elem_of_nil | unfold occ; simpl; lia].
  - rewrite occ_cons, elem_of_cons, IH. case_decide; subst.
    + split; [lia | by left].
    + split; [intros [?|?]; [done|lia] | intros ?; right; lia].
Qed.

Lemma visit_child_spec nid c st d L :
  dict_get (indegree st) c = Some d →
  dict_get (levels st) nid = Some (Some L) →
  is_Some (dict_get (levels st) c) →
  ∃ st',
    visit_child nid c st = Ok st'
    ∧ queue st' = queue st ++ (if decide (d = 1) then [c] else [])
    ∧ indegree st' = dict_set (indegree st) c (d - 1)
    ∧ (∀ n, n ≠ c → dict_get (levels st') n = dict_get (levels st) n)
    ∧ ∃ z, dict_get (levels st') c = Some (Some z) ∧ L + 1 ≤ z
           ∧ ∀ z0, dict_get (levels st) c = Some (Some z0) → z0 ≤ z.
Proof.
  intros Hd HL [lc Hlc]. unfold visit_child, subscript.
  rewrite Hd, HL, Hlc. simpl. rewrite dict_get_set_eq. simpl.
  eexists. split; [done|]. simpl. split_and!.
  - repeat case_decide; try lia; by rewrite ?app_nil_r.
  - done.
  - intros n Hn. destruct lc as [l|]; [case_bool_decide|];
      by rewrite ?dict_get_set_ne.
  - destruct lc as [l|]; [case_bool_decide|].
    + exists (L + 1). rewrite dict_get_set_eq. split_and!; [done|lia|].
      intros z0 [= ->]. lia.
    + exists l. rewrite Hlc. split_and!; [done|lia|].
      intros z0 [= ->]. lia.
    + exists (L + 1). rewrite dict_get_set_eq. split_and!; [done|lia|].
      by intros z0 [=].
Qed.

Lemma visit_children_spec nid L cs st :
  nid ∉ cs →
  dict_get (levels st) nid = Some (Some L) →
  (∀ c, c ∈ cs →
        is_Some (dict_get (levels st) c)
        ∧ ∃ d, dict_get (indegree st) c = Some d ∧ Z.of_nat (occ c cs) ≤ d) →
  ∃ st' added,
    for_each (visit_child nid) cs st = Ok st'
    ∧ queue st' = queue st ++ added
    ∧ NoDup added
    ∧ (∀ n, n ∈ added ↔ n ∈ cs ∧ dict_get (indegree st') n = Some 0)
    ∧ (∀ n, dict_get (indegree st') n
            = (λ d, d - Z.of_nat (occ n cs)) <$> dict_get (indegree st) n)
    ∧ (∀ n, n ∉ cs → dict_get (levels st') n = dict_get (levels st) n)
    ∧ (∀ n, n ∈ cs →
            ∃ z, dict_get (levels st') n = Some (Some z) ∧ L + 1 ≤ z)
    ∧ (∀ n z, dict_get (levels st) n = Some (Some z) →
              ∃ z', dict_get (levels st') n = Some (Some z') ∧ z ≤ z')
    ∧ (∀ n, is_Some (dict_get (levels st') n)
            ↔ is_Some (dict_get (levels st) n)).
Proof.
  revert st. induction cs as [|c cs IH]; intros st Hnid HL Hcs.
  - exists st, []. simpl. split_and!.
    + done.
    + by rewrite app_nil_r.
    + apply NoDup_nil_2.
    + intros n. split; [by intros ?%elem_of_nil | by intros [?%elem_of_nil _]].
    + intros n. unfold occ. simpl. destruct (dict_get _ n); simpl; [|done].
      f_equal. lia.
    + done.
    + by intros n ?%elem_of_nil.
    + intros n z ?. exists z. split; [done|lia].
    + done.
  - apply not_elem_of_cons in Hnid as [Hne Hnid].
    destruct (Hcs c) as [Hlc (d & Hd & Hocc)]; [left|].
    destruct (visit_child_spec nid c st d L Hd HL Hlc)
      as (s1 & Hrun & Hq1 & Hi1 & Hl1 & z1 & Hz1 & HLz1 & Hmono1).
    simpl. rewrite Hrun. simpl.
    assert (∀ n, dict_get (indegree s1) n
                 = if decide (c = n) then Some (d - 1)
                   else dict_get (indegree st) n) as Hget1.
    { intros n. by rewrite Hi1, dict_get_set. }
    destruct (IH s1) as (s2 & added & -> & Hq2 & Hnd & Hadd & Hi2 & Hl2
                         & Hz2 & Hmono2 & Hk2).
    { done. }
    { by rewrite Hl1. }
    { intros c' Hc'. split.
      - destruct (decide (c' = c)) as [->|Hcc]; [by rewrite Hz1|].
        rewrite Hl1 by done. apply Hcs. by right.
      - rewrite Hget1. destruct (Hcs c') as [_ (d' & Hd' & Hocc')]; [by right|].
        rewrite occ_cons in Hocc'.
        destruct (decide (c = c')) as [<-|Hcc].
        + rewrite Hd in Hd'. injection Hd' as <-. exists (d - 1).
          split; [done|]. lia.
        + exists d'. split; [done|]. lia. }
    assert (∀ n, dict_get (indegree s2) n
                 = (λ d, d - Z.of_nat (occ n (c :: cs)))
                     <$> dict_get (indegree st) n) as Hi.
    { intros n. rewrite Hi2, Hget1, occ_cons.
      destruct (decide (c = n)) as [<-|Hcn].
      - rewrite Hd. simpl. f_equal. lia.
      - destruct (dict_get (indegree st) n); simpl; [|done]. f_equal; lia. }
    rewrite occ_cons, decide_True in Hocc by done.
    exists s2, ((if decide (d = 1) then [c] else []) ++ added).
    split_and!.
    + done.
    + by rewrite Hq2, Hq1, app_assoc.
    + case_decide as Hd1; [|done]. apply NoDup_cons. split; [|done].
      intros [Hin _]%Hadd. apply occ_pos in Hin. lia.
    + intros n. rewrite elem_of_app, Hadd, elem_of_cons. split.
      * intros [Hn | [Hn Hz]]; [|by auto].
        case_decide as Hd1; [|by apply elem_of_nil in Hn].
        apply list_elem_of_singleton in Hn as ->. split; [by left|].
        rewrite Hi, Hd, occ_cons, decide_True by done. simpl. f_equal. lia.
      * intros [[-> | Hn] Hz]; [|by auto].
        destruct (decide (c ∈ cs)) as [Hin|Hin]; [by auto|].
        left. rewrite Hi, Hd, occ_cons, decide_True in Hz by done.
        simpl in Hz. injection Hz as Hz.
        assert (occ c cs = 0%nat) as Ho.
        { destruct (occ c cs) eqn:Ho; [done|]. destruct Hin.
          apply occ_pos. lia. }
        rewrite decide_True by lia. left.
    + done.
    + intros n [Hnc Hn]%not_elem_of_cons. rewrite Hl2, Hl1; done.
    + intros n [->|Hn]%elem_of_cons; [|by auto].
      destruct (Hmono2 c z1 Hz1) as (z' & ? & ?). exists z'. split; [done|lia].
    + intros n z Hz. destruct (decide (n = c)) as [->|Hnc].
      * destruct (Hmono2 c z1 Hz1) as (z' & ? & ?). exists z'.
        split; [done|]. specialize (Hmono1 z Hz). lia.
      * apply Hmono2. by rewrite Hl1.
    + intros n. rewrite Hk2. destruct (decide (n = c)) as [->|Hnc].
      * rewrite Hz1. split; [done | eauto].
      * by rewrite Hl1.
Qed.

(** ** The Level Assigner: the invariant of the loop *)

(** Taking [nid] from the queue settles its outgoing links. *)
Lemma pending_step links done nid n :
  nid ∉ done →
  (pending links (done ++ [nid]) n + occ n (children_of links nid))%nat
  = pending links done n.
Proof.
  intros Hnid. unfold pending, occ, children_of.
  induction links as [|l ls IH]; [done|].
  rewrite !filter_cons.
  destruct (decide (src_node l = nid)) as [Hs|Hs];
    [rewrite fmap_cons, filter_cons|];
    repeat case_decide; simpl in *; try lia; exfalso; set_solver.
Qed.

Section level_inv_facts.
Variables (ks : list string) (links : list link).
Hypothesis Hclosed : closed_links ks links.

Lemma elem_of_children_of nid c :
  c ∈ children_of links nid ↔ node_edge links nid c.
Proof.
  unfold children_of, node_edge. rewrite list_elem_of_fmap. split.
  - intros (l & -> & [? ?]%list_elem_of_filter). by exists l.
  - intros (l & ? & ? & <-). exists l. split; [done|].
    by apply list_elem_of_filter.
Qed.

Lemma pending_zero done n :
  pending links done n = 0%nat
  ↔ ∀ l, l ∈ links → tgt_node l = n → src_node l ∈ done.
Proof.
  unfold pending. rewrite length_zero_iff_nil. split.
  - intros Hnil l Hl Ht. destruct (decide (src_node l ∈ done)); [done|].
    assert (l ∈ filter (λ l, tgt_node l = n ∧ src_node l ∉ done) links)
      as Hin by by apply list_elem_of_filter.
    rewrite Hnil in Hin. by apply elem_of_nil in Hin.
  - intros Hall.
    destruct (filter _ links) as [|l ls] eqn:Hf; [done|].
    assert (l ∈ filter (λ l, tgt_node l = n ∧ src_node l ∉ done) links)
      as [[Ht Hs] Hl]%list_elem_of_filter by (rewrite Hf; left).
    destruct Hs. by apply Hall.
Qed.

Lemma pending_root n : pending links [] n = 0%nat ↔ no_inbound links n.
Proof.
  rewrite pending_zero. unfold no_inbound. split.
  - intros H l Hl Ht. by apply H, elem_of_nil in Ht.
  - intros H l Hl Ht. by apply H in Ht.
Qed.

Lemma drain_step done st nid rest :
  level_inv ks links done st →
  queue st = nid :: rest →
  ∃ st',
    for_each (visit_child nid) (children_of links nid)
             (LevelState rest (indegree st) (levels st)) = Ok st'
    ∧ level_inv ks links (done ++ [nid]) st'.
Proof.
  intros [Hnd Hnodes Hind Hready Hkeys Hlevel Hfwd Hroot] Hq.
  rewrite Hq in *.
  assert (nid ∈ ks) as Hnid_ks by (apply Hnodes; set_solver).
  assert (nid ∉ done) as Hnid_done.
  { apply NoDup_app in Hnd as (_ & Hdis & _). intros Hin.
    apply (Hdis nid Hin). left. }
  destruct (Hlevel nid) as [L HL]; [set_solver|].
  assert (pending links done nid = 0%nat) as Hp0.
  { apply Hready; [done|set_solver]. }
  set (cs := children_of links nid).
  assert (∀ c, c ∈ cs → c ∈ ks) as Hcs_ks.
  { intros c (l & Hl & _ & <-)%elem_of_children_of. by apply Hclosed. }
  assert (∀ c, (occ c cs ≤ pending links done c)%nat) as Hocc.
  { intros c. rewrite <- (pending_step links done nid c Hnid_done).
    fold cs. lia. }
  assert (nid ∉ cs) as Hnid_cs.
  { intros Hin%occ_pos. specialize (Hocc nid). lia. }
  assert (∀ n, n ∈ cs → n ∉ done ++ nid :: rest) as Hfresh.
  { intros n Hn%occ_pos Hin. apply Hready in Hin; [|by apply Hcs_ks, occ_pos].
    specialize (Hocc n). lia. }
  destruct (visit_children_spec nid L cs
              (LevelState rest (indegree st) (levels st)))
    as (st' & added & Hrun & Hq' & Hnda & Hadd & Hi' & Hl' & Hz' & Hmono
        & Hk'); [done|done|..].
  { intros c Hc. simpl. split.
    - by apply Hkeys, Hcs_ks.
    - eexists. split; [by apply Hind, Hcs_ks|]. specialize (Hocc c). lia. }
  simpl in *. exists st'. split; [done|].
  assert (∀ n, n ∈ ks →
               dict_get (indegree st') n
               = Some (Z.of_nat (pending links (done ++ [nid]) n))) as Hind'.
  { intros n Hn. rewrite Hi', Hind by done. simpl. f_equal.
    rewrite <- (pending_step links done nid n Hnid_done). fold cs. lia. }
  assert (∀ n, n ∈ (done ++ [nid]) ++ rest ++ added
               ↔ n ∈ done ++ nid :: rest ∨ n ∈ added) as Hmem.
  { intros n. set_solver. }
  split.
  - rewrite Hq'.
    replace ((done ++ [nid]) ++ rest ++ added)
      with ((done ++ nid :: rest) ++ added)
      by (by rewrite <- !app_assoc).
    apply NoDup_app. split_and!; [done| |done].
    intros n Hn [Hc _]%Hadd. by apply (Hfresh n).
  - intros n. rewrite Hq', Hmem. intros [?|[? _]%Hadd]; auto.
  - done.
  - intros n Hn. rewrite Hq', Hmem. split.
    + intros [Hin|[Hc Hz]%Hadd].
      * apply Hready in Hin; [|done].
        pose proof (pending_step links done nid n Hnid_done). lia.
      * rewrite Hind' in Hz by done. injection Hz as Hz. lia.
    + intros Hz. destruct (decide (n ∈ cs)) as [Hc|Hc].
      * right. apply Hadd. split; [done|]. rewrite Hind' by done.
        by rewrite Hz.
      * left. apply Hready; [done|].
        rewrite <- (pending_step links done nid n Hnid_done). fold cs.
        destruct (occ n cs) eqn:Ho; [lia|]. destruct Hc. apply occ_pos. lia.
  - intros n. by rewrite Hk'.
  - intros n. rewrite Hq', Hmem. intros [Hin|[Hc _]%Hadd].
    + destruct (Hlevel n Hin) as [z Hz].
      destruct (Hmono n z Hz) as (z' & ? & _). eauto.
    + destruct (Hz' n Hc) as (z & ? & _). eauto.
  - intros l Hl [Hs|Hs]%elem_of_app.
    + destruct (Hfwd l Hl Hs) as (zs & zt & Hzs & Hzt & Hlt).
      destruct (Hmono _ _ Hzt) as (zt' & Hzt' & ?).
      exists zs, zt'. split_and!; [|done|lia].
      rewrite Hl'; [done|]. intros Hc. apply (Hfresh _ Hc). set_solver.
    + apply list_elem_of_singleton in Hs.
      destruct (Hz' (tgt_node l)) as (zt & Hzt & ?).
      { apply elem_of_children_of. by exists l. }
      exists L, zt. rewrite Hs. split_and!; [|done|lia].
      by rewrite Hl'.
  - intros n Hn Hno. rewrite Hl'; [by apply Hroot|].
    intros (l & Hl & _ & Ht)%elem_of_children_of. by apply (Hno l).
Qed.
End level_inv_facts.

(** ** The Level Assigner: the state when the loop is entered *)

Lemma foldl_dict_set_get {V} (v : V) (l : list string) (d0 : dict V) n :
  dict_get (foldl (λ d k, dict_set d k v) d0 l) n
  = if decide (n ∈ l) then Some v else dict_get d0 n.
Proof.
  revert d0. induction l as [|k l IH]; intros d0; cbn [foldl].
  - rewrite decide_False; [done | apply not_elem_of_nil].
  - rewrite IH, dict_get_set.
    destruct (decide (n ∈ l)) as [Hl|Hl].
    + rewrite decide_True; [done | by right].
    + destruct (decide (k = n)) as [->|Hk].
      * rewrite decide_True; [done | left].
      * rewrite decide_False; [done|]. intros [?|?]%elem_of_cons; by subst.
Qed.

Lemma foldl_dict_set_NoDup {V} (v : V) (l : list string) (d0 : dict V) :
  NoDup (dict_keys d0) → NoDup (dict_keys (foldl (λ d k, dict_set d k v) d0 l)).
Proof.
  intros. apply foldl_inv; [|done]. intros. by apply dict_keys_set_NoDup.
Qed.

Lemma children_of_cons l links n :
  children_of (l :: links) n
  = (if decide (src_node l = n) then [tgt_node l] else [])
    ++ children_of links n.
Proof. unfold children_of. rewrite filter_cons. by case_decide. Qed.

Lemma pending_nil_cons l links n :
  pending (l :: links) [] n
  = ((if decide (tgt_node l = n) then 1 else 0) + pending links [] n)%nat.
Proof.
  unfold pending. rewrite filter_cons.
  destruct (decide (tgt_node l = n)) as [Ht|Ht].
  - rewrite decide_True; [done|]. split; [done | apply not_elem_of_nil].
  - rewrite decide_False; [done|]. by intros [? _].
Qed.

Lemma count_links_spec links ch ind :
  let r := foldl count_link (ch, ind) links in
  (∀ n, default [] (dict_get r.1 n)
        = default [] (dict_get ch n) ++ children_of links n)
  ∧ (∀ n, default 0 (dict_get r.2 n)
          = default 0 (dict_get ind n) + Z.of_nat (pending links [] n))
  ∧ (∀ n, is_Some (dict_get r.2 n)
          ↔ is_Some (dict_get ind n) ∨ ∃ l, l ∈ links ∧ tgt_node l = n)
  ∧ (NoDup (dict_keys ind) → NoDup (dict_keys r.2)).
Proof.
  revert ch ind. induction links as [|l links IH]; intros ch ind; simpl.
  - split_and!; try done.
    + intros n. by rewrite app_nil_r.
    + intros n. unfold pending. simpl. lia.
    + intros n. split; [by left|]. intros [?|(l & ?%elem_of_nil & _)]; done.
  - destruct (IH (count_link (ch, ind) l).1 (count_link (ch, ind) l).2)
      as (Hch & Hind & Hsome & Hnd).
    rewrite <- surjective_pairing in Hch, Hind, Hsome, Hnd.
    unfold count_link in Hch, Hind, Hsome, Hnd at 2 3. simpl in *.
    fold (src_node l) in *. fold (tgt_node l) in *.
    split_and!.
    + intros n. rewrite Hch, dict_get_set, children_of_cons.
      destruct (decide (src_node l = n)) as [->|Hs]; simpl.
      * by rewrite <- app_assoc.
      * done.
    + intros n. rewrite Hind, dict_get_set, pending_nil_cons.
      destruct (decide (tgt_node l = n)) as [->|Ht]; simpl; lia.
    + intros n. rewrite Hsome, dict_get_set.
      destruct (decide (tgt_node l = n)) as [Ht|Ht].
      * split; [|eauto]. intros _. right. exists l. split; [left|done].
      * split.
        -- intros [?|(l' & ? & ?)]; [by left|]. right. exists l'.
           split; [by right|done].
        -- intros [?|(l' & [->|?]%elem_of_cons & ?)]; [by left|done|].
           right. by exists l'.
    + intros Hn. by apply Hnd, dict_keys_set_NoDup.
Qed.

Lemma filter_zero_positive (ind : dict Z) :
  Nat.le (Nat.add (length (filter (λ p, p.2 = 0) ind).*1)
                  (length (filter (λ p, 0 < p.2) ind)))
         (length ind).
Proof.
  rewrite length_fmap. induction ind as [|[k z] ind IH]; simpl; [done|].
  rewrite !filter_cons. simpl. repeat case_decide; simpl; lia.
Qed.

Lemma elem_of_zero_keys (ind : dict Z) n :
  NoDup (dict_keys ind) →
  n ∈ (filter (λ p, p.2 = 0) ind).*1 ↔ dict_get ind n = Some 0.
Proof.
  intros Hnd. rewrite list_elem_of_fmap. split.
  - intros ([k z] & -> & [Hz Hin]%list_elem_of_filter). simpl in *. subst z.
    by apply dict_elem_of_get.
  - intros Hget%dict_get_elem_of. exists (n, 0). split; [done|].
    by apply list_elem_of_filter.
Qed.

Lemma zero_keys_NoDup (ind : dict Z) :
  NoDup (dict_keys ind) → NoDup (filter (λ p, p.2 = 0) ind).*1.
Proof.
  unfold dict_keys. induction ind as [|[k z] ind IH]; simpl; [done|].
  intros [Hk Hnd]%NoDup_cons. rewrite filter_cons. simpl.
  case_decide; [|by auto]. simpl. apply NoDup_cons. split; [|by auto].
  intros (p & -> & [_ Hin]%list_elem_of_filter)%list_elem_of_fmap.
  apply Hk. apply list_elem_of_fmap. by exists p.
Qed.

(** ** Fuel *)

(** The second loop of [readFlow] has no unbounded iteration at all. *)
Lemma readFlow_fuel file : readFlow file ≠ OutOfFuel.
Proof.
  unfold readFlow. apply for_each_fuel. intros e st.
  unfold infer_edge, subscript.
  destruct (dict_get st.1 (e_source e)); simpl; [|done].
  destruct (dict_get st.1 (e_target e)); simpl; [|done].
  apply for_each_fuel. intros t st'. unfold match_target.
  apply for_each_fuel. intros sField st''. unfold match_source.
  destruct (re_search _ _); [|done]. unfold set_source, subscript.
  destruct (dict_get st''.1 (e_target e)) as [tn|]; simpl; [|done].
  by destruct (dict_get (output tn) t.1).
Qed.

(** With one unit of fuel per key of [indegree] and one more, the [while]
    loop ends, whatever the nodes and the links are. *)
Lemma assign_levels_fuel nodes links : assign_levels nodes links ≠ OutOfFuel.
Proof.
  unfold assign_levels.
  destruct (foldl count_link _ links) as [children ind1].
  destruct (drain _ _ _) eqn:Hrun; simpl; [done..|].
  apply drain_terminates in Hrun; [done|].
  unfold waiting. simpl. pose proof (filter_zero_positive ind1). lia.
Qed.

Lemma compute_levels_fuel nodes links : compute_levels nodes links ≠ OutOfFuel.
Proof.
  unfold compute_levels.
  destruct (assign_levels nodes links) eqn:Hrun; simpl;
    [|done|by apply assign_levels_fuel in Hrun].
  destruct (sorted _) eqn:Hs; simpl; [done..|].
  unfold sorted in Hs. destruct (dict_keys _) as [|k1 [|k2 ks]]; [done..|].
  destruct (for_each _ _ _) eqn:Hfe; simpl in Hs; [done..|].
  apply for_each_fuel in Hfe; [done|]. by intros [z|] zs.
Qed.

(** The command ends whenever loading the input does. *)
Lemma main_ends loaded writable :
  loaded ≠ OutOfFuel → main loaded writable ≠ Diverge.
Proof.
  intros Hl. unfold main. destruct loaded as [[|part rest]| |]; simpl; try done.
  destruct (readFlow part) as [[nodes links]| |] eqn:Hrun; simpl;
    [|done|by apply readFlow_fuel in Hrun].
  destruct (compute_levels nodes links) eqn:Hc;
    [by destruct writable|done|by apply compute_levels_fuel in Hc].
Qed.

(** ** The Level Assigner: the levels when the loop has ended *)

Lemma drain_inv ks links children :
  closed_links ks links →
  (∀ n, default [] (dict_get children n) = children_of links n) →
  ∀ fuel done st,
    level_inv ks links done st → (waiting st ≤ fuel)%nat →
    ∃ done' st',
      drain children fuel st = Ok st'
      ∧ queue st' = [] ∧ level_inv ks links done' st'.
Proof.
  intros Hclosed Hch. induction fuel as [|fuel IH]; intros done st Hinv Hw.
  - unfold waiting in Hw. simpl.
    destruct (queue st) as [|nid rest] eqn:Hq; [|simpl in Hw; lia].
    by exists done, st.
  - simpl. destruct (queue st) as [|nid rest] eqn:Hq; [by exists done, st|].
    destruct (drain_step ks links Hclosed done st nid rest Hinv Hq)
      as (st1 & Hrun & Hinv1).
    rewrite Hch, Hrun. simpl. apply (IH (done ++ [nid])); [done|].
    apply visit_children_waiting in Hrun. rewrite Hrun.
    unfold waiting in *. rewrite Hq in Hw. simpl in *. lia.
Qed.

Lemma assign_levels_spec nodes links :
  closed_links (dict_keys nodes) links →
  ∃ done st,
    assign_levels nodes links = Ok (levels st)
    ∧ queue st = [] ∧ level_inv (dict_keys nodes) links done st.
Proof.
  intros Hclosed. unfold assign_levels.
  set (ks := dict_keys nodes) in *.
  set (ind0 := foldl (λ d nid, dict_set d nid 0) [] ks).
  pose proof (count_links_spec links [] ind0) as (Hch & Hind & Hsome & Hnd).
  destruct (foldl count_link ([], ind0) links) as [children ind1].
  simpl in Hch, Hind, Hsome, Hnd.
  assert (∀ n, is_Some (dict_get ind0 n) ↔ n ∈ ks) as Hks0.
  { intros n. unfold ind0. rewrite foldl_dict_set_get.
    case_decide; simpl; split; try done; by intros [? ?]. }
  assert (NoDup (dict_keys ind1)) as Hnd1.
  { apply Hnd. unfold ind0. apply foldl_dict_set_NoDup, NoDup_nil_2. }
  assert (∀ n, n ∈ ks →
               dict_get ind1 n = Some (Z.of_nat (pending links [] n))) as Hget1.
  { intros n Hn. specialize (Hind n).
    assert (is_Some (dict_get ind1 n)) as [z Hz].
    { apply Hsome. left. by apply Hks0. }
    rewrite Hz in *. simpl in Hind. unfold ind0 in Hind.
    rewrite foldl_dict_set_get, decide_True in Hind by done.
    simpl in Hind. f_equal. lia. }
  assert (∀ n, is_Some (dict_get ind1 n) → n ∈ ks) as Hks1.
  { intros n [?|(l & Hl & <-)]%Hsome; [by apply Hks0|]. by apply Hclosed. }
  set (queue0 := (filter (λ p, p.2 = 0) ind1).*1).
  assert (∀ n, n ∈ queue0 ↔ dict_get ind1 n = Some 0) as Hq0.
  { intros n. by apply elem_of_zero_keys. }
  set (levels0 := foldl (λ d nid, dict_set d nid None) [] ks).
  set (levels1 := foldl (λ d nid, dict_set d nid (Some 0)) levels0 queue0).
  assert (∀ n, dict_get levels1 n
               = if decide (n ∈ queue0) then Some (Some 0)
                 else if decide (n ∈ ks) then Some None else None) as Hl1.
  { intros n. unfold levels1, levels0. by rewrite !foldl_dict_set_get. }
  set (st0 := LevelState queue0 ind1 levels1).
  assert (level_inv ks links [] st0) as Hinv0.
  { split; simpl.
    - by apply zero_keys_NoDup.
    - intros n Hn%Hq0. apply Hks1. eauto.
    - done.
    - intros n Hn. rewrite Hq0, Hget1 by done. split; [|by intros ->].
      intros [= Hz]. lia.
    - intros n. rewrite Hl1.
      destruct (decide (n ∈ queue0)) as [Hn%Hq0|Hn].
      + split; [|done]. intros _. apply Hks1. eauto.
      + case_decide; split; try done; by intros [? ?].
    - intros n Hn. exists 0. rewrite Hl1. by rewrite decide_True.
    - by intros l _ ?%elem_of_nil.
    - intros n Hn Hno. rewrite Hl1, decide_True; [done|].
      apply Hq0. rewrite Hget1 by done.
      apply (pending_root links) in Hno. by rewrite Hno. }
  destruct (drain_inv ks links children Hclosed) with (fuel := S (length ind1))
    (done := @nil string) (st := st0) as (done & st & -> & Hq & Hinv).
  - intros n. by rewrite Hch.
  - done.
  - unfold waiting, st0. simpl. pose proof (filter_zero_positive ind1).
    fold queue0 in H. lia.
  - simpl. by exists done, st.
Qed.

(** ** Acyclic graphs: every node is taken from the queue *)

Section acyclic_facts.
Variable links : list link.

Lemma chain_tc a p b :
  chain links (a :: p) → b ∈ p → tc (node_edge links) a b.
Proof.
  revert a. induction p as [|c p IH]; intros a Hc Hb.
  - by apply elem_of_nil in Hb.
  - destruct Hc as [Hac Hc]. apply elem_of_cons in Hb as [->|Hb].
    + by apply tc_once.
    + eapply tc_l; [done|]. by apply IH.
Qed.

Lemma chain_repeats p :
  chain links p → ¬ NoDup p → ∃ n, tc (node_edge links) n n.
Proof.
  induction p as [|a p IH]; intros Hc Hnd.
  - destruct Hnd. apply NoDup_nil_2.
  - destruct (decide (a ∈ p)) as [Ha|Ha].
    + exists a. by apply chain_tc with p.
    + apply IH.
      * destruct p; [done|]. by destruct Hc.
      * intros Hp. apply Hnd. by apply NoDup_cons.
Qed.

(** From a set of nodes each of which has a predecessor in the set,
    paths of any length can be drawn. *)
Lemma long_chain (U : string → Prop) :
  (∀ n, U n → ∃ p, U p ∧ node_edge links p n) →
  ∀ k n, U n →
         ∃ p, length p = S k ∧ chain links p ∧ Forall U p.
Proof.
  intros Hpred k n Hn. induction k as [|k (p & Hlen & Hc & HU)].
  - exists [n]. split_and!; [done..|]. by constructor.
  - destruct p as [|a p]; [done|].
    apply Forall_cons in HU as HU'. destruct HU' as [Ha _].
    destruct (Hpred a Ha) as (q & Hq & Hqa).
    exists (q :: a :: p). split_and!.
    + simpl in *. lia.
    + by split.
    + by constructor.
Qed.

Lemma no_trapped_nodes (U : string → Prop) (ks : list string) :
  acyclic links →
  (∀ n, U n → n ∈ ks) →
  (∀ n, U n → ∃ p, U p ∧ node_edge links p n) →
  ∀ n, ¬ U n.
Proof.
  intros Hacyc Hks Hpred n Hn.
  destruct (long_chain U Hpred (length ks) n Hn) as (p & Hlen & Hc & HU).
  destruct (chain_repeats p Hc) as [m Hm]; [|by apply (Hacyc m)].
  intros Hnd.
  assert (p ⊆+ ks) as Hsub.
  { apply NoDup_submseteq; [done|]. intros x Hx.
    rewrite Forall_forall in HU. auto. }
  apply submseteq_length in Hsub. lia.
Qed.

Lemma acyclic_all_done ks done st :
  closed_links ks links → acyclic links →
  level_inv ks links done st → queue st = [] →
  ∀ n, n ∈ ks → n ∈ done.
Proof.
  intros Hclosed Hacyc Hinv Hq n Hn.
  destruct (decide (n ∈ done)) as [|Hnd]; [done|]. exfalso.
  apply (no_trapped_nodes (λ n, n ∈ ks ∧ n ∉ done) ks Hacyc) with n;
    [by intros ? [? _] | | done].
  clear n Hn Hnd. intros n [Hn Hnd].
  destruct (filter (λ l, tgt_node l = n ∧ src_node l ∉ done) links)
    as [|l ls] eqn:Hf.
  - destruct Hnd. pose proof (li_ready _ _ _ _ Hinv n Hn) as Hr.
    rewrite Hq, app_nil_r in Hr. apply Hr. unfold pending. by rewrite Hf.
  - assert (l ∈ filter (λ l, tgt_node l = n ∧ src_node l ∉ done) links)
      as [[Ht Hs] Hl]%list_elem_of_filter by (rewrite Hf; left).
    exists (src_node l). split.
    + split; [by apply Hclosed | done].
    + by exists l.
Qed.
End acyclic_facts.

Lemma readFlow_closed file nodes links :
  readFlow file = Ok (nodes, links) → closed_links (dict_keys nodes) links.
Proof.
  intros Hrun l Hl.
  destruct (readFlow_link _ _ _ _ Hrun Hl)
    as (e & sn & tn & m & _ & Hs & Ht & Hsn & Htn & _).
  unfold src_node, tgt_node. rewrite Hs, Ht.
  split; by eapply dict_get_Some_key.
Qed.

(** The levels of an acyclic graph: every node has one, and every link
    goes to a strictly higher one. *)
Lemma assign_levels_acyclic nodes links :
  closed_links (dict_keys nodes) links → acyclic links →
  ∃ lev,
    assign_levels nodes links = Ok lev
    ∧ (∀ n, n ∈ dict_keys nodes → ∃ z, dict_get lev n = Some (Some z))
    ∧ (∀ n, is_Some (dict_get lev n) → n ∈ dict_keys nodes)
    ∧ ∀ l, l ∈ links →
           ∃ zs zt, dict_get lev (src_node l) = Some (Some zs)
                    ∧ dict_get lev (tgt_node l) = Some (Some zt)
                    ∧ zs < zt.
Proof.
  intros Hclosed Hacyc.
  destruct (assign_levels_spec nodes links Hclosed)
    as (done & st & Hrun & Hq & Hinv).
  pose proof (acyclic_all_done links _ done st Hclosed Hacyc Hinv Hq) as Hall.
  exists (levels st). split_and!; [done| | |].
  - intros n Hn. apply (li_level _ _ _ _ Hinv). rewrite Hq, app_nil_r. auto.
  - intros n. apply (li_keys _ _ _ _ Hinv).
  - intros l Hl. apply (li_forward _ _ _ _ Hinv); [done|].
    by apply Hall, Hclosed.
Qed.

(** ** Grouping and sorting (lines 85-88) *)

Lemma group_levels_from (lev : dict (option Z)) g0 :
  let g := foldl (λ g p, dict_set g p.2 (default [] (dict_get g p.2) ++ [p.1]))
                 g0 lev in
  (∀ k, default [] (dict_get g k)
        = default [] (dict_get g0 k) ++ with_level lev k)
  ∧ (∀ k, k ∈ dict_keys g ↔ k ∈ dict_keys g0 ∨ ∃ n, (n, k) ∈ lev)
  ∧ (NoDup (dict_keys g0) → NoDup (dict_keys g)).
Proof.
  revert g0. induction lev as [|[n v] lev IH]; intros g0; simpl.
  - split_and!; [|intros k; split; [by left|]|done].
    + intros k. unfold with_level. simpl. by rewrite app_nil_r.
    + intros [?|(n & ?%elem_of_nil)]; done.
  - destruct (IH (dict_set g0 v (default [] (dict_get g0 v) ++ [n])))
      as (Hget & Hkeys & Hnd). split_and!.
    + intros k. rewrite Hget, dict_get_set. unfold with_level.
      rewrite filter_cons. simpl.
      destruct (decide (v = k)) as [->|Hv]; simpl; [|done].
      by rewrite <- app_assoc.
    + intros k. rewrite Hkeys, dict_keys_set_elem. split.
      * intros [[->|?]|(n' & ?)]; [right|by left|right].
        -- exists n. left.
        -- exists n'. by right.
      * intros [?|(n' & [[= -> ->]|?]%elem_of_cons)]; [by auto|by auto|].
        right. by exists n'.
    + intros Hn. by apply Hnd, dict_keys_set_NoDup.
Qed.

Lemma group_levels_spec (lev : dict (option Z)) :
  (∀ k, default [] (dict_get (group_levels lev) k) = with_level lev k)
  ∧ (∀ k, k ∈ dict_keys (group_levels lev) ↔ ∃ n, (n, k) ∈ lev)
  ∧ NoDup (dict_keys (group_levels lev)).
Proof.
  destruct (group_levels_from lev []) as (Hget & Hkeys & Hnd).
  split_and!.
  - intros k. by rewrite Hget.
  - intros k. rewrite Hkeys. split; [|by right].
    by intros [?%elem_of_nil|?].
  - apply Hnd, NoDup_nil_2.
Qed.

Lemma collect_integers (zs acc : list Z) :
  for_each (λ k zs, match k with
                    | Some z => Ok (zs ++ [z])
                    | None => Raise TypeError
                    end) (Some <$> zs) acc
  = Ok (acc ++ zs).
Proof.
  revert acc. induction zs as [|z zs IH]; intros acc; simpl.
  - by rewrite app_nil_r.
  - rewrite IH. by rewrite <- app_assoc.
Qed.

(** Sorting integer keys: the result is the keys in ascending order. *)
Lemma sorted_integers (zs : list Z) :
  ∃ zs', sorted (Some <$> zs) = Ok (Some <$> zs')
         ∧ zs' ≡ₚ zs ∧ StronglySorted Z.le zs'.
Proof.
  destruct zs as [|z1 [|z2 zs]].
  - exists []. split_and!; [done..|constructor].
  - exists [z1]. split_and!; [done..|]. repeat constructor.
  - exists (merge_sort Z.le (z1 :: z2 :: zs)). split_and!.
    + unfold sorted. change (Some <$> z1 :: z2 :: zs)
        with (Some z1 :: Some z2 :: (Some <$> zs)).
      cbv iota beta.
      change (Some z1 :: Some z2 :: (Some <$> zs))
        with (Some <$> z1 :: z2 :: zs).
      rewrite collect_integers. done.
    + apply merge_sort_Permutation.
    + apply StronglySorted_merge_sort; apply _.
Qed.

Lemma StronglySorted_lookup_lt {A} (R : relation A) (l : list A) i j x y :
  StronglySorted R l → l !! i = Some x → l !! j = Some y → (i < j)%nat →
  R x y.
Proof.
  intros Hs. revert i j. induction Hs as [|a l Hs IH Hall]; intros i j.
  - done.
  - destruct i as [|i], j as [|j]; simpl; try lia.
    + intros [= ->] Hy _. rewrite Forall_forall in Hall.
      apply Hall. by eapply list_elem_of_lookup_2.
    + intros Hx Hy Hlt. apply (IH i j); [done..|lia].
Qed.

Lemma visit_child_levels_NoDup nid c st st' :
  visit_child nid c st = Ok st' →
  NoDup (dict_keys (levels st)) → NoDup (dict_keys (levels st')).
Proof.
  unfold visit_child.
  intros (d & _ & H)%bind_Ok Hnd.
  apply bind_Ok in H as (ln & _ & H).
  apply bind_Ok in H as (lvl & _ & H).
  apply bind_Ok in H as (lc & _ & H).
  apply bind_Ok in H as (d' & _ & H).
  injection H as <-. simpl.
  destruct (match lc with Some l => bool_decide (lvl > l) | None => true end);
    [by apply dict_keys_set_NoDup | done].
Qed.

Lemma drain_levels_NoDup children fuel st st' :
  drain children fuel st = Ok st' →
  NoDup (dict_keys (levels st)) → NoDup (dict_keys (levels st')).
Proof.
  revert st. induction fuel as [|fuel IH]; intros st; simpl.
  - destruct (queue st); [by intros [= <-] | done].
  - destruct (queue st) as [|nid rest]; [by intros [= <-]|].
    intros (s1 & H1 & H2)%bind_Ok Hnd. apply (IH s1 H2).
    eapply (for_each_inv (λ s, NoDup (dict_keys (levels s)))); [| |exact H1].
    + intros c s2 s3 _ ? ?. by eapply visit_child_levels_NoDup.
    + done.
Qed.

Lemma assign_levels_NoDup nodes links lev :
  assign_levels nodes links = Ok lev → NoDup (dict_keys lev).
Proof.
  unfold assign_levels.
  destruct (foldl count_link _ links) as [children ind1].
  intros (st & Hrun & [= <-])%bind_Ok.
  apply drain_levels_NoDup in Hrun; [done|]. simpl.
  do 2 apply foldl_dict_set_NoDup. apply NoDup_nil_2.
Qed.

Lemma all_Some_fmap {A} (l : list (option A)) :
  (∀ k, k ∈ l → is_Some k) → ∃ zs, l = Some <$> zs.
Proof.
  induction l as [|k l IH]; intros Hall.
  - by exists [].
  - destruct (Hall k) as [z ->]; [left|].
    destruct IH as [zs ->]; [intros; apply Hall; by right|].
    by exists (z :: zs).
Qed.

(** The columns of an acyclic graph: one per level that occurs, in
    ascending order of the levels. *)
Lemma compute_levels_acyclic nodes links :
  closed_links (dict_keys nodes) links → acyclic links →
  ∃ lev zs,
    assign_levels nodes links = Ok lev
    ∧ compute_levels nodes links
      = Ok ((λ z, with_level lev (Some z)) <$> zs)
    ∧ StronglySorted Z.le zs
    ∧ ∀ n z, dict_get lev n = Some (Some z) → z ∈ zs.
Proof.
  intros Hclosed Hacyc.
  destruct (assign_levels_acyclic nodes links Hclosed Hacyc)
    as (lev & Hrun & Hall & Hkeys & _).
  pose proof (assign_levels_NoDup _ _ _ Hrun) as Hnd.
  destruct (group_levels_spec lev) as (Hget & Hgk & _).
  destruct (all_Some_fmap (dict_keys (group_levels lev))) as [zs Hzs].
  { intros k (n & Hin)%Hgk. apply dict_elem_of_get in Hin; [|done].
    destruct (Hall n) as [z Hz]; [apply Hkeys; eauto|].
    rewrite Hz in Hin. injection Hin as <-. eauto. }
  destruct (sorted_integers zs) as (zs' & Hsort & Hperm & Hss).
  exists lev, zs'. split_and!; [done| |done|].
  - unfold compute_levels. rewrite Hrun. simpl. rewrite Hzs, Hsort. simpl.
    f_equal. rewrite <- list_fmap_compose. apply list_fmap_ext.
    intros i z _. simpl. apply Hget.
  - intros n z Hz. rewrite Hperm.
    assert (Some z ∈ dict_keys (group_levels lev)) as Hin.
    { apply Hgk. exists n. by apply dict_get_elem_of. }
    rewrite Hzs in Hin. apply list_elem_of_fmap in Hin as (z' & [= ->] & ?).
    done.
Qed.

(** C5: on a catalog and a link list whose links join nodes of the
    catalog (as every output of [readFlow] does) and whose projected node
    graph is acyclic, the levels are assigned and the columns are returned;
    for every link the level of the node of its target is strictly
    greater than the level of the node of its source, and the target node
    is in a strictly later column than the source node. *)
Theorem links_point_to_higher_levels nodes links :
  closed_links (dict_keys nodes) links → acyclic links →
  ∃ lev groups,
    assign_levels nodes links = Ok lev
    ∧ compute_levels nodes links = Ok groups
    ∧ ∀ l, l ∈ links →
           (∃ zs zt, dict_get lev (nodeId (source l)) = Some (Some zs)
                     ∧ dict_get lev (nodeId (target l)) = Some (Some zt)
                     ∧ zs < zt)
           ∧ (∃ i j, in_column groups (nodeId (source l)) i
                     ∧ in_column groups (nodeId (target l)) j
                     ∧ (i < j)%nat).
Proof.
  intros Hclosed Hacyc.
  destruct (compute_levels_acyclic nodes links Hclosed Hacyc)
    as (lev & zs & Hrun & Hcols & Hss & Hzs).
  destruct (assign_levels_acyclic nodes links Hclosed Hacyc)
    as (lev' & Hrun' & _ & _ & Hfwd).
  rewrite Hrun in Hrun'. injection Hrun' as <-.
  exists lev, ((λ z, with_level lev (Some z)) <$> zs).
  split_and!; [done..|]. intros l Hl.
  destruct (Hfwd l Hl) as (zs0 & zt0 & Hs & Ht & Hlt).
  split; [by exists zs0, zt0|].
  assert (∀ n z, dict_get lev n = Some (Some z) →
                 ∃ i, zs !! i = Some z
                      ∧ in_column ((λ z, with_level lev (Some z)) <$> zs) n i)
    as Hcol.
  { intros n z Hz.
    destruct (proj1 (list_elem_of_lookup zs z) (Hzs n z Hz)) as [i Hi].
    exists i. split; [done|]. exists (with_level lev (Some z)). split.
    - by rewrite list_lookup_fmap, Hi.
    - unfold with_level. apply list_elem_of_fmap. exists (n, Some z).
      split; [done|]. apply list_elem_of_filter. split; [done|].
      by apply dict_get_elem_of. }
  destruct (Hcol _ _ Hs) as (i & Hi & Hci).
  destruct (Hcol _ _ Ht) as (j & Hj & Hcj).
  exists i, j. split_and!; [done..|].
  destruct (decide (i < j)%nat) as [|Hge]; [done|]. exfalso.
  destruct (decide (i = j)) as [->|Hne].
  - rewrite Hi in Hj. injection Hj as ->. lia.
  - assert (zt0 ≤ zs0); [|lia].
    apply (StronglySorted_lookup_lt Z.le zs j i); [done..|lia].
Qed.

(** A graph with a rank that every link increases has no cycle. *)
Lemma ranked_acyclic (rank : string → nat) links :
  (∀ l, l ∈ links → (rank (src_node l) < rank (tgt_node l))%nat) →
  acyclic links.
Proof.
  intros Hrank.
  assert (∀ a b, tc (node_edge links) a b → (rank a < rank b)%nat) as Htc.
  { induction 1 as [a b (l & Hl & <- & <-)|a b c (l & Hl & <- & <-) _ IH].
    - by apply Hrank.
    - specialize (Hrank l Hl). lia. }
  intros n Hn%Htc. lia.
Qed.

Lemma links_point_to_higher_levels_witness :
  closed_links (dict_keys nodes_ABCD) links_diamond
  ∧ acyclic links_diamond
  ∧ assign_levels nodes_ABCD links_diamond
    = Ok [("A", Some 0); ("B", Some 1); ("C", Some 1); ("D", Some 2)]
  ∧ compute_levels nodes_ABCD links_diamond = Ok [["A"]; ["B"; "C"]; ["D"]]
  ∧ ∃ lev groups,
      assign_levels nodes_ABCD links_diamond = Ok lev
      ∧ compute_levels nodes_ABCD links_diamond = Ok groups
      ∧ ∀ l, l ∈ links_diamond →
             (∃ zs zt, dict_get lev (nodeId (source l)) = Some (Some zs)
                       ∧ dict_get lev (nodeId (target l)) = Some (Some zt)
                       ∧ zs < zt)
             ∧ (∃ i j, in_column groups (nodeId (source l)) i
                       ∧ in_column groups (nodeId (target l)) j
                       ∧ (i < j)%nat).
Proof.
  assert (closed_links (dict_keys nodes_ABCD) links_diamond) as Hclosed.
  { intros l Hl. each_elem Hl; split; compute_done. }
  assert (acyclic links_diamond) as Hacyc.
  { apply (ranked_acyclic rank_diamond). intros l Hl.
    each_elem Hl; vm_compute; lia. }
  split; [done|]. split; [done|].
  split; [vm_compute; reflexivity|]. split; [vm_compute; reflexivity|].
  exact (links_point_to_higher_levels nodes_ABCD links_diamond Hclosed Hacyc).
Defined.

(** ** The Reachability Highlighter *)

Lemma for_each_overflows {A S} (body : A → S → outcome S) xs s :
  (∀ x s, x ∈ xs → returns_or_overflows (body x s)) →
  returns_or_overflows (for_each body xs s).
Proof.
  revert s. induction xs as [|x xs IH]; intros s Hb; simpl.
  - left. by eexists.
  - destruct (Hb x s) as [[s' ->]| ->]; [by left| |by right].
    simpl. apply IH. intros. apply Hb. by right.
Qed.

(** A walk ends: it returns or it throws [RangeError]. *)
Lemma traverse_returns_or_overflows map room key vis :
  returns_or_overflows (traverse room map key vis).
Proof.
  revert key vis. induction room as [|room IH]; intros key vis; simpl.
  - by right.
  - destruct (decide (key ∈ vis)); [left; by eexists|].
    apply for_each_overflows. intros. apply IH.
Qed.

Section traverse_facts.
Variable map : gmap string (list string).
(** A finite set of keys that contains whatever the index lists. *)
Variable U : gset string.
Hypothesis U_closed : ∀ a b, listed map a b → b ∈ U.

Lemma traverse_children room cs key vis0 vis1 :
  (∀ k vis, k ∈ U → (size (U ∖ vis) < room)%nat →
            ∃ vis', traverse room map k vis = Ok vis'
                  ∧ walked map U k vis vis') →
  (∀ c, c ∈ cs → listed map key c) →
  vis0 ⊆ vis1 → (size (U ∖ vis0) < room)%nat →
  ∃ vis',
    for_each (λ k v, traverse room map k v) cs vis1 = Ok vis'
    ∧ vis1 ⊆ vis' ∧ (∀ c, c ∈ cs → c ∈ vis')
    ∧ vis' ⊆ vis1 ∪ U
    ∧ (∀ k, k ∈ vis' → k ∉ vis1 → reachable map key k)
    ∧ (∀ a b, a ∈ vis' → a ∉ vis1 → listed map a b → b ∈ vis').
Proof.
  intros IH. revert vis1. induction cs as [|c cs IHcs]; intros vis1 Hcs H01 Hsz.
  - exists vis1. simpl. split_and!; try done; set_solver.
  - assert (c ∈ U) as HcU by (eapply U_closed, Hcs; left).
    simpl. destruct (IH c vis1) as (vis2 & -> & H12 & Hc & Hsub & Hreach & Hcl).
    { done. }
    { eapply Nat.le_lt_trans; [|exact Hsz].
      apply subseteq_size. set_solver. }
    simpl.
    destruct (IHcs vis2) as (vis3 & -> & H23 & Hcs3 & Hsub3 & Hreach3 & Hcl3).
    { intros. apply Hcs. by right. }
    { set_solver. }
    { done. }
    exists vis3. split_and!; [done|set_solver| |set_solver| |].
    + intros c' [->|?]%elem_of_cons; [set_solver|auto].
    + intros k Hk Hk1. destruct (decide (k ∈ vis2)) as [Hk2|Hk2].
      * eapply rtc_l; [apply Hcs; left|]. by apply Hreach.
      * by apply Hreach3.
    + intros a b Ha Ha1 Hab. destruct (decide (a ∈ vis2)) as [Ha2|Ha2].
      * apply H23. by eapply Hcl.
      * by eapply Hcl3.
Qed.

(** A walk that has room for more levels than there are keys left to
    visit returns. *)
Lemma traverse_walked room key vis :
  key ∈ U → (size (U ∖ vis) < room)%nat →
  ∃ vis', traverse room map key vis = Ok vis' ∧ walked map U key vis vis'.
Proof.
  revert key vis.
  induction room as [|room IH]; intros key vis HU Hsz; [lia|].
  simpl. destruct (decide (key ∈ vis)) as [Hin|Hin].
  - exists vis. split; [done|]. unfold walked. set_solver.
  - destruct (traverse_children room (default [] (map !! key)) key
                ({[key]} ∪ vis) ({[key]} ∪ vis) IH)
      as (vis' & -> & H1 & Hcs & Hsub & Hreach & Hcl); [done|done|..].
    { assert (U ∖ ({[key]} ∪ vis) ⊂ U ∖ vis) as Hlt%subset_size
        by set_solver.
      lia. }
    exists vis'. split; [done|]. unfold walked. split_and!.
    + set_solver.
    + set_solver.
    + set_solver.
    + intros k Hk Hkv. destruct (decide (k = key)) as [->|Hne].
      * apply rtc_refl.
      * apply Hreach; [done|set_solver].
    + intros a b Ha Hav Hab. destruct (decide (a = key)) as [->|Hne].
      * by apply Hcs.
      * eapply Hcl; [done|set_solver|done].
Qed.

Lemma traverse_children_sound room cs key vis1 vis' :
  (∀ k vis vis', k ∈ U → traverse room map k vis = Ok vis' →
                 walked map U k vis vis') →
  (∀ c, c ∈ cs → listed map key c) →
  for_each (λ k v, traverse room map k v) cs vis1 = Ok vis' →
  vis1 ⊆ vis' ∧ (∀ c, c ∈ cs → c ∈ vis')
  ∧ vis' ⊆ vis1 ∪ U
  ∧ (∀ k, k ∈ vis' → k ∉ vis1 → reachable map key k)
  ∧ (∀ a b, a ∈ vis' → a ∉ vis1 → listed map a b → b ∈ vis').
Proof.
  intros IH. revert vis1. induction cs as [|c cs IHcs]; intros vis1 Hcs Hrun.
  - simpl in Hrun. injection Hrun as <-. split_and!; try done; set_solver.
  - simpl in Hrun.
    destruct (traverse room map c vis1) as [vis2| |] eqn:Hc;
      simpl in Hrun; [|done|done].
    assert (c ∈ U) as HcU by (eapply U_closed, Hcs; left).
    destruct (IH c vis1 vis2 HcU Hc) as (H12 & Hc2 & Hsub & Hreach & Hcl).
    destruct (IHcs vis2) as (H23 & Hcs3 & Hsub3 & Hreach3 & Hcl3);
      [intros; apply Hcs; by right | done |].
    split_and!; [set_solver| |set_solver| |].
    + intros c' [->|?]%elem_of_cons; [set_solver|auto].
    + intros k Hk Hk1. destruct (decide (k ∈ vis2)) as [Hk2|Hk2].
      * eapply rtc_l; [apply Hcs; left|]. by apply Hreach.
      * by apply Hreach3.
    + intros a b Ha Ha1 Hab. destruct (decide (a ∈ vis2)) as [Ha2|Ha2].
      * apply H23. by eapply Hcl.
      * by eapply Hcl3.
Qed.

(** Whatever room there is: a walk that returns has walked. *)
Lemma traverse_sound room key vis vis' :
  key ∈ U → traverse room map key vis = Ok vis' → walked map U key vis vis'.
Proof.
  revert key vis vis'.
  induction room as [|room IH]; intros key vis vis' HU Hrun; [done|].
  simpl in Hrun. destruct (decide (key ∈ vis)) as [Hin|Hin].
  - injection Hrun as <-. unfold walked. set_solver.
  - destruct (traverse_children_sound room (default [] (map !! key)) key
                ({[key]} ∪ vis) vis' IH)
      as (H1 & Hcs & Hsub & Hreach & Hcl); [done|done|].
    unfold walked. split_and!.
    + set_solver.
    + set_solver.
    + set_solver.
    + intros k Hk Hkv. destruct (decide (k = key)) as [->|Hne].
      * apply rtc_refl.
      * apply Hreach; [done|set_solver].
    + intros a b Ha Hav Hab. destruct (decide (a = key)) as [->|Hne].
      * by apply Hcs.
      * eapply Hcl; [done|set_solver|done].
Qed.
End traverse_facts.

Lemma adjacency_from links fwd0 bwd0 :
  let r := foldl index_link (fwd0, bwd0) links in
  (∀ a, successors r.1 a
        = successors fwd0 a
          ++ ((key_of ∘ target) <$> filter (λ l, key_of (source l) = a) links))
  ∧ (∀ a, successors r.2 a
          = successors bwd0 a
            ++ ((key_of ∘ source)
                  <$> filter (λ l, key_of (target l) = a) links)).
Proof.
  revert fwd0 bwd0. induction links as [|l links IH]; intros fwd0 bwd0.
  - simpl. split; intros a; by rewrite app_nil_r.
  - cbn [foldl]. destruct (IH (index_link (fwd0, bwd0) l).1
                              (index_link (fwd0, bwd0) l).2) as [Hf Hb].
    rewrite <- surjective_pairing in Hf, Hb. split; intros a.
    + rewrite Hf, filter_cons. unfold successors, index_link. simpl.
      rewrite lookup_insert. destruct (decide (key_of (source l) = a)) as [->|].
      * simpl. by rewrite <- app_assoc.
      * done.
    + rewrite Hb, filter_cons. unfold successors, index_link. simpl.
      rewrite lookup_insert. destruct (decide (key_of (target l) = a)) as [->|].
      * simpl. by rewrite <- app_assoc.
      * done.
Qed.

Lemma adjacency_listed links a b :
  (listed (adjacency links).1 a b
   ↔ ∃ l, l ∈ links ∧ key_of (source l) = a ∧ key_of (target l) = b)
  ∧ (listed (adjacency links).2 a b
     ↔ ∃ l, l ∈ links ∧ key_of (target l) = a ∧ key_of (source l) = b).
Proof.
  destruct (adjacency_from links ∅ ∅) as [Hf Hb].
  unfold listed, adjacency. rewrite Hf, Hb. unfold successors.
  rewrite !lookup_empty. simpl. split.
  - rewrite list_elem_of_fmap. split.
    + intros (l & -> & [? ?]%list_elem_of_filter). by exists l.
    + intros (l & ? & ? & <-). exists l. split; [done|].
      by apply list_elem_of_filter.
  - rewrite list_elem_of_fmap. split.
    + intros (l & -> & [? ?]%list_elem_of_filter). by exists l.
    + intros (l & ? & ? & <-). exists l. split; [done|].
      by apply list_elem_of_filter.
Qed.

Lemma size_list_to_set_le (l : list string) :
  (size (list_to_set l : gset string) ≤ length l)%nat.
Proof.
  induction l as [|x l IH]; simpl.
  - done.
  - rewrite size_union_alt, size_singleton.
    assert (size (list_to_set l ∖ {[x]} : gset string)
            ≤ size (list_to_set l : gset string))%nat
      by (apply subseteq_size; set_solver).
    lia.
Qed.

(** A walk from the empty visited set that returns, returns exactly the
    keys reachable from [key]. *)
Lemma traverse_exact_sound map (ks : list string) key room vis :
  (∀ a b, listed map a b → b ∈ ks) →
  traverse room map key ∅ = Ok vis →
  ∀ k, k ∈ vis ↔ reachable map key k.
Proof.
  intros Hks Hrun.
  destruct (traverse_sound map (universe ks key)) with
    (room := room) (key := key) (vis := (∅ : gset string)) (vis' := vis)
    as (_ & Hkey & _ & Hreach & Hclosed).
  - intros a b Hab%Hks. unfold universe. set_solver.
  - unfold universe. set_solver.
  - done.
  - intros k. split.
    + intros Hk. apply Hreach; [done|set_solver].
    + assert (∀ x y, rtc (listed map) x y → x ∈ vis → y ∈ vis) as Hrtc.
      { induction 1 as [|a b c Hab _ IH]; [done|]. intros Ha. apply IH.
        apply (Hclosed a b); [done|set_solver|done]. }
      intros Hk. by apply (Hrtc key k).
Qed.

(** With room for every listed key and two more levels, it returns. *)
Lemma traverse_exact map (ks : list string) key room :
  (∀ a b, listed map a b → b ∈ ks) →
  (2 + length ks ≤ room)%nat →
  ∃ vis, traverse room map key ∅ = Ok vis
         ∧ ∀ k, k ∈ vis ↔ reachable map key k.
Proof.
  intros Hks Hroom.
  destruct (traverse_walked map (universe ks key)) with
    (room := room) (key := key) (vis := (∅ : gset string))
    as (vis & Hrun & _).
  - intros a b Hab%Hks. unfold universe. set_solver.
  - unfold universe. set_solver.
  - eapply Nat.le_lt_trans; [apply subseteq_size with (Y := universe ks key);
                             set_solver|].
    unfold universe. rewrite size_union_alt, size_singleton.
    pose proof (size_list_to_set_le ks).
    assert (size (list_to_set ks ∖ {[key]} : gset string)
            ≤ size (list_to_set ks : gset string))%nat
      by (apply subseteq_size; set_solver).
    lia.
  - exists vis. split; [done|]. by eapply traverse_exact_sound.
Qed.

(** Both walks, whenever they return. *)
Lemma walks_sound stack links key :
  (∀ anc, ancestors stack links key = Ok anc →
          ∀ k, k ∈ anc ↔ reachable (adjacency links).2 key k)
  ∧ (∀ desc, descendants stack links key = Ok desc →
             ∀ k, k ∈ desc ↔ reachable (adjacency links).1 key k).
Proof.
  split; intros vis Hrun.
  - apply (traverse_exact_sound _ ((key_of ∘ source) <$> links) _ _ _)
      with (2 := Hrun).
    intros a b (l & Hl & _ & <-)%adjacency_listed.
    apply list_elem_of_fmap. by exists l.
  - apply (traverse_exact_sound _ ((key_of ∘ target) <$> links) _ _ _)
      with (2 := Hrun).
    intros a b (l & Hl & _ & <-)%adjacency_listed.
    apply list_elem_of_fmap. by exists l.
Qed.

(** Both walks return when more levels fit than there are links. *)
Lemma walks_return stack links key :
  (length links < stack)%nat →
  ∃ anc desc, ancestors stack links key = Ok anc
              ∧ descendants stack links key = Ok desc.
Proof.
  intros Hstack.
  destruct (traverse_exact (adjacency links).2 ((key_of ∘ source) <$> links)
              key (S stack)) as (anc & Hanc & _).
  { intros a b (l & Hl & _ & <-)%adjacency_listed.
    apply list_elem_of_fmap. by exists l. }
  { rewrite length_fmap. lia. }
  destruct (traverse_exact (adjacency links).1 ((key_of ∘ target) <$> links)
              key (S stack)) as (desc & Hdesc & _).
  { intros a b (l & Hl & _ & <-)%adjacency_listed.
    apply list_elem_of_fmap. by exists l. }
  { rewrite length_fmap. lia. }
  by exists anc, desc.
Qed.

(** ** A chain deeper than the stack *)

Lemma key_split (a a' b b' : string) :
  no_bar a → no_bar a' →
  a +:+ "|" +:+ b = a' +:+ "|" +:+ b' → a = a' ∧ b = b'.
Proof.
  unfold no_bar. revert a'. induction a as [|x a IH]; intros [|x' a'] Ha Ha' H.
  - change (String "|"%char b = String "|"%char b') in H.
    by injection H as ->.
  - change (String "|"%char b = String x' (a' +:+ "|" +:+ b')) in H.
    injection H as <- _. destruct Ha'. by left.
  - change (String x (a +:+ "|" +:+ b) = String "|"%char b') in H.
    injection H as -> _. destruct Ha. by left.
  - change (String x (a +:+ "|" +:+ b) = String x' (a' +:+ "|" +:+ b')) in H.
    injection H as -> Heq.
    destruct (IH a') as [-> ->]; [| |done|done].
    + intros ?. apply Ha. by right.
    + intros ?. apply Ha'. by right.
Qed.

Lemma chain_name_no_bar i : no_bar (chain_name i).
Proof.
  unfold no_bar. induction i as [|i IH]; simpl.
  - intros [H|[]]. discriminate H.
  - intros [H|H]; [discriminate H|auto].
Qed.

Lemma chain_name_inj i j : chain_name i = chain_name j → i = j.
Proof.
  revert j. induction i as [|i IH]; intros [|j]; simpl; intros H.
  - done.
  - injection H as H. by destruct j.
  - injection H as H. by destruct i.
  - injection H as H. f_equal. by apply IH.
Qed.

Lemma chain_key_inj i j :
  key_of (chain_ref i) = key_of (chain_ref j) → i = j.
Proof.
  intros H. apply chain_name_inj. unfold key_of, chain_ref in H. simpl in H.
  by destruct (key_split _ _ _ _ (chain_name_no_bar i) (chain_name_no_bar j) H).
Qed.

Lemma chain_links_elem n l :
  l ∈ chain_links n
  ↔ ∃ i, (i < n)%nat ∧ l = Link (chain_ref i) (chain_ref (S i)).
Proof.
  unfold chain_links. rewrite list_elem_of_fmap. split.
  - intros (i & -> & Hi%elem_of_seq). exists i. split; [lia|done].
  - intros (i & Hi & ->). exists i. split; [done|]. apply elem_of_seq. lia.
Qed.

(** The forward walk along the chain goes one level down per link. *)
Lemma chain_overflows n room i vis :
  (i + room ≤ n)%nat →
  (∀ j, key_of (chain_ref j) ∈ vis → (j < i)%nat) →
  traverse room (adjacency (chain_links n)).1 (key_of (chain_ref i)) vis
  = Raise RangeError.
Proof.
  revert i vis. induction room as [|room IH]; intros i vis Hle Hvis; [done|].
  cbn [traverse]. destruct (decide (key_of (chain_ref i) ∈ vis)) as [Hin|_].
  { apply Hvis in Hin. lia. }
  assert (listed (adjacency (chain_links n)).1 (key_of (chain_ref i))
            (key_of (chain_ref (S i)))) as Hnext.
  { apply adjacency_listed.
    exists (Link (chain_ref i) (chain_ref (S i))). split; [|done].
    apply chain_links_elem. exists i. split; [lia|done]. }
  unfold listed, successors in Hnext.
  destruct (default [] ((adjacency (chain_links n)).1 !! key_of (chain_ref i)))
    as [|c cs] eqn:Hcs.
  { by apply elem_of_nil in Hnext. }
  assert (c = key_of (chain_ref (S i))) as ->.
  { assert (listed (adjacency (chain_links n)).1 (key_of (chain_ref i)) c)
      as Hc.
    { unfold listed, successors. rewrite Hcs. left. }
    apply adjacency_listed in Hc
      as (l & (j & Hj & ->)%chain_links_elem & Hs & <-).
    cbn [source target] in *. by apply chain_key_inj in Hs as ->. }
  cbn [for_each]. rewrite IH; [done|lia|].
  intros j [Hj%elem_of_singleton|Hj]%elem_of_union.
  - apply chain_key_inj in Hj. lia.
  - apply Hvis in Hj. lia.
Qed.

(** C9, as the code has it: the forward index lists under a key the
    targets of the links out of it, the backward index the sources of the
    links into it. For every link list, with or without cycles, every
    selected key and whatever room the call stack has, the backward walk
    and the forward walk end: each returns, or it throws [RangeError]
    because the recursion went deeper than the stack; a walk that returns,
    returns exactly the set of keys reachable from the selected key by
    zero or more steps of its index; and both walks return when more
    levels fit on the stack than there are links. For every stack there
    is a chain, one link longer, on which the forward walk throws. On the
    cycle [A -> B -> C -> A] the descendants and the ancestors of [A|f]
    are the three keys. *)
Theorem reachability_returns_exactly_the_reachable_keys :
  (∀ stack links key,
     let fwd := (adjacency links).1 in
     let bwd := (adjacency links).2 in
     (∀ a b, listed fwd a b
             ↔ ∃ l, l ∈ links ∧ key_of (source l) = a ∧ key_of (target l) = b)
     ∧ (∀ a b, listed bwd a b
               ↔ ∃ l, l ∈ links ∧ key_of (target l) = a
                      ∧ key_of (source l) = b)
     ∧ returns_or_overflows (ancestors stack links key)
     ∧ returns_or_overflows (descendants stack links key)
     ∧ (∀ anc, ancestors stack links key = Ok anc →
               ∀ k, k ∈ anc ↔ reachable bwd key k)
     ∧ (∀ desc, descendants stack links key = Ok desc →
                ∀ k, k ∈ desc ↔ reachable fwd key k)
     ∧ ((length links < stack)%nat →
        ∃ anc desc, ancestors stack links key = Ok anc
                    ∧ descendants stack links key = Ok desc))
  ∧ (∀ stack, descendants stack (chain_links (S stack)) (key_of (chain_ref 0))
              = Raise RangeError)
  ∧ (∃ desc, descendants 3 links_cycle "A|f" = Ok desc
             ∧ ∀ k, k ∈ desc ↔ k ∈ ["A|f"; "B|f"; "C|f"])
  ∧ (∃ anc, ancestors 3 links_cycle "A|f" = Ok anc
            ∧ ∀ k, k ∈ anc ↔ k ∈ ["A|f"; "B|f"; "C|f"]).
Proof.
  split; [|split; [|split;
           (eexists (list_to_set ["A|f"; "B|f"; "C|f"]);
            split; [vm_compute; reflexivity | set_solver])]].
  - intros stack links key fwd bwd.
    split; [intros a b; apply adjacency_listed|].
    split; [intros a b; apply adjacency_listed|].
    split; [apply traverse_returns_or_overflows|].
    split; [apply traverse_returns_or_overflows|].
    split; [apply walks_sound|]. split; [apply walks_sound|].
    apply walks_return.
  - intros stack. unfold descendants. apply chain_overflows; [lia|].
    intros j Hj. by apply elem_of_empty in Hj.
Qed.

Lemma reachability_returns_exactly_the_reachable_keys_witness :
  (length links_diamond < 6)%nat
  ∧ ∃ anc desc, ancestors 6 links_diamond "B|f" = Ok anc
                ∧ descendants 6 links_diamond "B|f" = Ok desc
                ∧ (∀ k, k ∈ anc ↔ reachable (adjacency links_diamond).2 "B|f" k)
                ∧ (∀ k, k ∈ desc
                        ↔ reachable (adjacency links_diamond).1 "B|f" k).
Proof.
  assert (length links_diamond < 6)%nat as Hlen by (simpl; lia).
  split; [done|].
  destruct (proj1 reachability_returns_exactly_the_reachable_keys
              6%nat links_diamond "B|f")
    as (_ & _ & _ & _ & Hanc & Hdesc & Hret).
  destruct (Hret Hlen) as (anc & desc & Ha & Hd).
  exists anc, desc. split_and!; [done|done|by apply Hanc|by apply Hdesc].
Defined.

(** C9 as stated fails, whatever room the stack has: the forward walk from
    the head of a chain one link longer than the levels that fit throws
    [RangeError]. *)
Lemma deep_chain_uses_up_the_stack :
  ¬ ∃ stack, walks_return_on_every_link_list stack.
Proof.
  intros [stack H].
  destruct (H (chain_links (S stack)) (key_of (chain_ref 0)))
    as (anc & desc & _ & Hd & _).
  unfold descendants in Hd. rewrite chain_overflows in Hd; [done|lia|].
  intros j Hj. by apply elem_of_empty in Hj.
Qed.

(** ** Cycles in the projected graph *)

(** C1, what the code does on scenario C: the three nodes of the cycle
    [A -> B -> C -> A] keep the level [None] and are returned as one
    ordinary column, the very result of three nodes without any link, and
    the command writes the artifact with exit status 0; nothing names them
    as unresolved. With one more node, which gets level 0, sorting the keys
    [0] and [None] raises [TypeError], which nobody catches. *)
Theorem cycle_is_not_reported :
  assign_levels nodes_ABC links_cycle
  = Ok [("A", None); ("B", None); ("C", None)]
  ∧ compute_levels nodes_ABC links_cycle = Ok [["A"; "B"; "C"]]
  ∧ compute_levels nodes_ABC [] = Ok [["A"; "B"; "C"]]
  ∧ (∃ nodes links,
       readFlow flow_cycle = Ok (nodes, links)
       ∧ ¬ acyclic links
       ∧ main (Ok [flow_cycle]) true
         = Exit 0 None (Some (Payload nodes links [["A"; "B"; "C"]])))
  ∧ assign_levels nodes_ABCD links_cycle
    = Ok [("A", None); ("B", None); ("C", None); ("D", Some 0)]
  ∧ compute_levels nodes_ABCD links_cycle = Raise TypeError
  ∧ main (Ok [flow_cycle_and_root]) true
    = Exit 1 (Some (Traceback TypeError)) None.
Proof.
  split_and!; try (vm_compute; reflexivity).
  eexists _, [Link (Ref "A" "a") (Ref "B" "b");
              Link (Ref "B" "b") (Ref "C" "c");
              Link (Ref "C" "c") (Ref "A" "a")].
  split; [vm_compute; reflexivity|]. split; [|vm_compute; reflexivity].
  intros Hacyc. apply (Hacyc "A").
  eapply tc_l; [eexists; split; [left|done]|].
  eapply tc_l; [eexists; split; [right; left|done]|].
  apply tc_once. eexists. split; [right; right; left|done].
Qed.


(** * Further properties *)

(** ** The Field Catalog Builder (lines 9-31) *)

(** A loop of assignments [d[key f] = val f]: the last assignment to a key
    is the one that is read back. *)
Lemma foldl_dict_set_last {A V} (key : A → string) (val : A → V)
    (l : list A) (d0 : dict V) k :
  dict_get (foldl (λ d x, dict_set d (key x) (val x)) d0 l) k
  = match last (filter (λ x, key x = k) l) with
    | Some x => Some (val x)
    | None => dict_get d0 k
    end.
Proof.
  induction l as [|x l IH] using rev_ind; [done|].
  rewrite foldl_app, filter_app, last_app. cbn [foldl].
  rewrite dict_get_set, filter_cons, filter_nil.
  destruct (decide (key x = k)) as [Hk|Hk]; [done|]. simpl. exact IH.
Qed.

(** The keys after such a loop: the old keys, then the new ones in the
    order of their first assignment. *)
Lemma foldl_dict_set_keys {A V} (key : A → string) (val : A → V)
    (l : list A) (d0 : dict V) :
  dict_keys (foldl (λ d x, dict_set d (key x) (val x)) d0 l)
  = foldl (λ acc x, if decide (x ∈ acc) then acc else acc ++ [x])
          (dict_keys d0) (key <$> l).
Proof.
  induction l as [|x l IH] using rev_ind; [done|].
  rewrite fmap_app, !foldl_app. cbn [foldl fmap list_fmap]. rewrite <- IH.
  case_decide as Hin.
  - by apply dict_keys_set_in.
  - by apply dict_keys_set_notin.
Qed.

Lemma foldl_conditional {A B} (c : A → bool) (f : B → A → B) (l : list A) b :
  foldl (λ acc x, if c x then f acc x else acc) b l
  = foldl f b (filter (λ x, c x = true) l).
Proof.
  revert b. induction l as [|x l IH]; intros b; [done|].
  rewrite filter_cons. cbn [foldl]. rewrite IH.
  destruct (c x); by case_decide.
Qed.

Lemma collect_output_loops n :
  collect_output n
  = foldl (λ o f, dict_set o (rf_alias f) (FieldMeta (rf_alias f) None))
      (foldl (λ o f, dict_set o (rf_alias f) (FieldMeta (rf_alias f) None))
         (foldl (λ o f, dict_set o (rf_alias f)
                          (FieldMeta (default "" (rf_formula f)) None))
                [] (rn_output n))
         (rn_inoutput n))
      (filter (λ f, rf_select f = true) (rn_fields n)).
Proof.
  unfold collect_output.
  by rewrite (foldl_conditional rf_select
                (λ o f, dict_set o (rf_alias f) (FieldMeta (rf_alias f) None))).
Qed.

Lemma last_filter_is_Some {A} (P : A → Prop) `{∀ x, Decision (P x)}
    (l : list A) x :
  last (filter P l) = Some x → P x ∧ x ∈ l.
Proof.
  intros Hlast. apply last_Some_elem_of in Hlast.
  by apply list_elem_of_filter in Hlast.
Qed.

Lemma last_filter_None {A} (P : A → Prop) `{∀ x, Decision (P x)}
    (l : list A) :
  last (filter P l) = None ↔ ∀ x, x ∈ l → ¬ P x.
Proof.
  rewrite last_None. split.
  - intros Hnil x Hx HP.
    assert (x ∈ filter P l) as Hin by by apply list_elem_of_filter.
    rewrite Hnil in Hin. by apply elem_of_nil in Hin.
  - apply filter_none.
Qed.

(** X1: the catalog maps an alias to the entry built from the last input
    node with that alias that is not an exception node, and has no entry
    for an alias that only exception nodes (or no node) carry. *)
Theorem catalog_holds_last_kept_node ns k :
  dict_get (build_nodes ns) k = catalog_entry <$> last (filter (kept_as k) ns).
Proof.
  unfold build_nodes.
  induction ns as [|n ns IH] using rev_ind; [done|].
  rewrite foldl_app, filter_app, last_app. cbn [foldl].
  rewrite filter_cons, filter_nil. unfold kept_as at 2.
  destruct (decide (rn_type n = Some "exception")) as [He|He].
  - rewrite decide_False by (by intros [_ ?]). exact IH.
  - rewrite dict_get_set. destruct (decide (rn_alias n = k)) as [Hk|Hk].
    + by rewrite decide_True.
    + rewrite decide_False by (by intros [? _]). exact IH.
Qed.

(** X2: in the output mapping of a node, a field that is a pass-through
    field or a selected generic field has its own alias as formula,
    whatever the output group says; any other field has the formula of the
    last output entry with its alias (empty when that entry has none); an
    alias in none of the three groups has no entry. No entry is annotated. *)
Theorem later_field_groups_overwrite n a :
  dict_get (collect_output n) a
  = if decide (a ∈ rf_alias <$> rn_inoutput n
               ∨ a ∈ rf_alias <$> filter (λ f, rf_select f = true) (rn_fields n))
    then Some (FieldMeta a None)
    else (λ f, FieldMeta (default "" (rf_formula f)) None)
           <$> last (filter (λ f, rf_alias f = a) (rn_output n)).
Proof.
  rewrite collect_output_loops, !foldl_dict_set_last.
  destruct (last (filter (λ f, rf_alias f = a)
                    (filter (λ f, rf_select f = true) (rn_fields n))))
    as [f|] eqn:Hsel.
  { apply last_filter_is_Some in Hsel as [<- Hin].
    rewrite decide_True; [done|]. right.
    apply list_elem_of_fmap. by exists f. }
  destruct (last (filter (λ f, rf_alias f = a) (rn_inoutput n)))
    as [f|] eqn:Hio.
  { apply last_filter_is_Some in Hio as [<- Hin].
    rewrite decide_True; [done|]. left.
    apply list_elem_of_fmap. by exists f. }
  rewrite decide_False.
  - by destruct (last (filter _ (rn_output n))).
  - rewrite last_filter_None in Hsel, Hio.
    intros [(f & -> & Hin)%list_elem_of_fmap|(f & -> & Hin)%list_elem_of_fmap].
    + by apply (Hio f).
    + by apply (Hsel f).
Qed.

(** X3: the field aliases of a node are kept in the order in which they
    are first declared: output fields, then pass-through fields, then the
    selected generic fields; overwriting an alias does not move it. *)
Theorem field_order_is_first_declaration n :
  dict_keys (collect_output n) = first_seen (declared_aliases n).
Proof.
  rewrite collect_output_loops, !foldl_dict_set_keys.
  unfold first_seen, declared_aliases. by rewrite !foldl_app.
Qed.

(** ** The Lineage Inferrer changes annotations only *)

Lemma set_source_clear nodes tgt tField r nodes' :
  set_source nodes tgt tField r = Ok nodes' →
  clear_sources nodes' = clear_sources nodes.
Proof.
  unfold set_source.
  intros (n & Hn%subscript_Ok & H)%bind_Ok.
  apply bind_Ok in H as (m & Hm%subscript_Ok & [= <-]).
  unfold clear_sources. eapply dict_set_fmap_same; [done|].
  unfold clear_node. simpl. f_equal. by eapply dict_set_fmap_same.
Qed.

Lemma infer_edge_clear e st st' :
  infer_edge e st = Ok st' → clear_sources st'.1 = clear_sources st.1.
Proof.
  unfold infer_edge.
  intros (sn & _ & H)%bind_Ok. apply bind_Ok in H as (tn & _ & H).
  revert H. apply (for_each_inv (λ s, clear_sources s.1 = clear_sources st.1));
    [|done].
  intros t s1 s2 _ Hs1. unfold match_target.
  apply (for_each_inv (λ s, clear_sources s.1 = clear_sources st.1)); [|done].
  intros sField s3 s4 _ Hs3. unfold match_source.
  destruct (re_search _ _); [|by intros [= <-]].
  intros (nodes' & Hset & [= <-])%bind_Ok. simpl.
  by rewrite (set_source_clear _ _ _ _ _ Hset).
Qed.

Lemma fmap_fixed {A} (g : A → A) (l : list A) :
  Forall (λ x, g x = x) l → g <$> l = l.
Proof.
  induction 1 as [|x l Hx _ IH]; [done|].
  rewrite fmap_cons. by rewrite Hx, IH.
Qed.

Lemma clear_sources_pristine ns :
  clear_sources (build_nodes ns) = build_nodes ns.
Proof.
  destruct (build_nodes_pristine ns) as [_ Hp].
  unfold clear_sources. apply fmap_fixed.
  eapply Forall_impl; [exact Hp|]. intros [k [nm al ty o]] [_ Ho]. simpl in *.
  unfold prod_map, clear_node. simpl. do 2 f_equal.
  apply fmap_fixed. eapply Forall_impl; [exact Ho|].
  intros [f [fml src]] Hsrc. simpl in *. by subst.
Qed.

(** X4: whenever [readFlow] returns, the returned catalog is the catalog of
    the Field Catalog Builder up to the annotations: the inference adds,
    removes, renames and reorders no node and no field and changes no
    display name, type tag or formula. *)
Theorem inference_only_annotates file nodes links :
  readFlow file = Ok (nodes, links) →
  clear_sources nodes = build_nodes (fl_nodes file).
Proof.
  unfold readFlow. intros Hrun.
  rewrite <- clear_sources_pristine.
  revert Hrun.
  apply (for_each_inv
           (λ s, clear_sources s.1
                 = clear_sources (build_nodes (fl_nodes file)))); [|done].
  intros e s1 s2 _ Hs1 Hstep.
  by rewrite (infer_edge_clear _ _ _ Hstep).
Qed.

Lemma inference_only_annotates_witness :
  ∃ nodes links,
    readFlow flow_fan_in = Ok (nodes, links)
    ∧ field_of nodes (Ref "Node2" "c")
      = Some (FieldMeta "a + b" (Some (Ref "Node1" "b")))
    ∧ clear_sources nodes = build_nodes (fl_nodes flow_fan_in).
Proof.
  eexists _, _. split; [vm_compute; reflexivity|].
  split; [vm_compute; reflexivity|].
  eapply (inference_only_annotates flow_fan_in). vm_compute. reflexivity.
Defined.

(** ** When the Lineage Inferrer returns *)

Lemma for_each_app {A S} (body : A → S → outcome S) xs ys s :
  for_each body (xs ++ ys) s = bind (for_each body xs s) (for_each body ys).
Proof.
  revert s. induction xs as [|x xs IH]; intros s; simpl; [done|].
  destruct (body x s); simpl; auto.
Qed.

(** X5: on a document of the expected shape (a [flow]: the aliases are
    strings and every formula that an entry has is a string), [readFlow]
    returns a catalog and a link list exactly when both ends of every
    structural edge are keys of the field catalog. *)
Theorem readFlow_returns_iff_edges_resolve file :
  (∃ nodes links, readFlow file = Ok (nodes, links))
  ↔ ∀ e, e ∈ fl_edges file →
         e_source e ∈ dict_keys (build_nodes (fl_nodes file))
         ∧ e_target e ∈ dict_keys (build_nodes (fl_nodes file)).
Proof.
  split.
  - intros (nodes & links & Hrun) e He.
    apply readFlow_Ok in Hrun as (_ & _ & _ & _ & Hall).
    rewrite Forall_forall in Hall. apply Hall in He as [Hs Ht].
    by rewrite shape_keys in Hs, Ht.
  - intros Hall. apply readFlow_total. apply Forall_forall.
    intros e He. unfold resolvable. rewrite shape_keys. by apply Hall.
Qed.

(** X6: the edges are resolved in order and, per edge, the source before
    the target: when the edges before [e] resolve and [e] does not,
    [readFlow] raises [KeyError] for the source alias of [e] if that is
    not in the catalog, and for its target alias otherwise; the edges
    after [e] are not looked at. *)
Theorem first_unresolvable_edge_raises file good e rest :
  let keys := dict_keys (build_nodes (fl_nodes file)) in
  fl_edges file = good ++ e :: rest →
  (∀ e', e' ∈ good → e_source e' ∈ keys ∧ e_target e' ∈ keys) →
  ¬ (e_source e ∈ keys ∧ e_target e ∈ keys) →
  readFlow file
  = Raise (KeyError (if decide (e_source e ∈ keys)
                     then e_target e else e_source e)).
Proof.
  intros keys Hedges Hgood Hbad. unfold readFlow.
  rewrite Hedges, for_each_app.
  set (sh := shape (build_nodes (fl_nodes file))).
  destruct (infer_edges_outcome sh good (build_nodes (fl_nodes file), []))
    as [[_ (st1 & -> & [Hsh _] & _)]|(e' & k & He' & Hk & Hn & _)].
  - apply build_nodes_wf.
  - split; [done | apply build_nodes_annotated].
  - simpl. unfold infer_edge, subscript.
    assert (dict_keys st1.1 = keys) as Hkeys.
    { unfold keys. rewrite <- (shape_keys st1.1), Hsh. apply shape_keys. }
    destruct (dict_get st1.1 (e_source e)) as [sn|] eqn:Hs.
    + apply dict_get_Some_key in Hs as Hs'. rewrite Hkeys in Hs'.
      rewrite decide_True by done. simpl.
      destruct (dict_get st1.1 (e_target e)) as [tn|] eqn:Ht; [|done].
      apply dict_get_Some_key in Ht. rewrite Hkeys in Ht. by destruct Hbad.
    + apply dict_get_None in Hs. rewrite Hkeys in Hs.
      by rewrite decide_False.
  - apply Hgood in He' as [? ?]. unfold sh in Hn. rewrite shape_keys in Hn.
    destruct Hk; by subst.
Qed.

Lemma first_unresolvable_edge_raises_witness :
  readFlow (Flow (fl_nodes flow_A)
              [RawEdge "Node1" "Node2"; RawEdge "Node7" "Node8";
               RawEdge "Node9" "Node1"])
  = Raise (KeyError "Node7").
Proof.
  apply (first_unresolvable_edge_raises
           (Flow (fl_nodes flow_A)
              [RawEdge "Node1" "Node2"; RawEdge "Node7" "Node8";
               RawEdge "Node9" "Node1"])
           [RawEdge "Node1" "Node2"] (RawEdge "Node7" "Node8")
           [RawEdge "Node9" "Node1"]).
  - reflexivity.
  - intros e' He'. each_elem He'. split; compute_done.
  - intros [Hs _]. apply list_elem_of_In in Hs. vm_compute in Hs.
    destruct Hs as [Hs|[Hs|[]]]; discriminate Hs.
Defined.

(** ** Formulas that are a single identifier *)

Lemma occurs_append c (a b : string) :
  occurs c (a +:+ b) ↔ occurs c a ∨ occurs c b.
Proof.
  induction a as [|x a IH].
  - rewrite append_nil. simpl. split; [by right | by intros [[]|?]].
  - rewrite append_cons. simpl. rewrite IH. split.
    + intros [?|[?|?]]; auto.
    + intros [[?|?]|?]; auto.
Qed.

Lemma last_char_occurs prev (pre : string) :
  pre ≠ "" → ∃ c, last_char prev pre = Some c ∧ occurs c pre.
Proof.
  revert prev. induction pre as [|x pre IH]; intros prev Hne; [done|].
  simpl. destruct pre as [|y pre].
  - exists x. simpl. auto.
  - destruct (IH (Some x)) as (c & Hc & Ho); [done|].
    exists c. split; [done | by right].
Qed.

Lemma append_nil_r (s : string) : s +:+ "" = s.
Proof.
  induction s as [|x s IH]; [done|]. by rewrite append_cons, IH.
Qed.

Lemma re_search_self a : re_search (pattern a) a = true.
Proof.
  apply re_search_whole_token. exists "", "".
  by rewrite append_nil, append_nil_r.
Qed.

Lemma re_search_identifier a fml :
  all_word fml → fml ≠ "" →
  re_search (pattern a) fml = true ↔ a = fml.
Proof.
  intros Hw Hne. split; [|intros ->; apply re_search_self].
  intros (pre & post & Heq & Hb & Ha)%re_search_whole_token.
  assert (pre = "") as ->.
  { destruct (decide (pre = "")) as [|Hpre]; [done|]. exfalso.
    destruct (last_char_occurs None pre Hpre) as (c & Hc & Ho).
    rewrite Hc in Hb. apply Hb, Hw. rewrite Heq.
    apply occurs_append. by left. }
  assert (post = "") as ->.
  { destruct post as [|c post]; [done|]. exfalso.
    apply Ha, Hw. rewrite Heq. apply occurs_append. right.
    apply occurs_append. right. by left. }
  by rewrite append_nil, append_nil_r in Heq.
Qed.

(** X7: a formula that is one non-empty identifier (letters, digits,
    underscores), as the formula the catalog gives to a pass-through or
    selected field with such an alias, is matched by exactly one alias,
    the identifier itself. So in a returned flow every link into a field
    with such a formula comes from a source field of that name, and along
    every structural edge every source field of that name is linked to
    the field. *)
Theorem identifier_formula_links_same_name :
  (∀ a fml, all_word fml → fml ≠ "" →
            (re_search (pattern a) fml = true ↔ a = fml))
  ∧ (∀ file nodes links l m,
       readFlow file = Ok (nodes, links) → l ∈ links →
       field_of nodes (target l) = Some m →
       all_word (formula m) → formula m ≠ "" →
       fieldAlias (source l) = formula m)
  ∧ (∀ file nodes links e sn tn tField m,
       readFlow file = Ok (nodes, links) → e ∈ fl_edges file →
       dict_get nodes (e_source e) = Some sn →
       dict_get nodes (e_target e) = Some tn →
       dict_get (output tn) tField = Some m →
       formula m ∈ dict_keys (output sn) →
       Link (Ref (e_source e) (formula m)) (Ref (e_target e) tField) ∈ links).
Proof.
  split_and!.
  - exact re_search_identifier.
  - intros file nodes links l m Hrun Hl Hm Hw Hne.
    destruct (readFlow_link _ _ _ _ Hrun Hl)
      as (e & sn & tn & m' & _ & _ & Ht & _ & Htn & _ & Hm' & Hre).
    unfold field_of in Hm. rewrite Ht, Htn in Hm. simpl in Hm.
    rewrite Hm' in Hm. injection Hm as ->.
    by apply re_search_identifier in Hre.
  - intros file nodes links e sn tn tField m Hrun He Hsn Htn Hm Hs.
    pose proof (readFlow_Ok _ _ _ Hrun) as (Hsh & _ & _ & Hl & _).
    simpl in *. rewrite Hl. apply elem_of_all_links. exists e.
    split; [done|]. apply elem_of_edge_links.
    exists (shape_node sn), (shape_node tn), (tField, formula m), (formula m).
    rewrite <- Hsh, !shape_get, Hsn, Htn, shape_node_keys.
    split_and!; try done.
    + apply dict_get_elem_of. by rewrite shape_node_get, Hm.
    + apply re_search_self.
Qed.

Lemma identifier_formula_links_same_name_witness :
  let l := Link (Ref "Node1" "total") (Ref "Node2" "total") in
  ∃ nodes,
    readFlow flow_carrier = Ok (nodes, [l])
    ∧ all_word "total"
    ∧ fieldAlias (source l) = "total".
Proof.
  intros l.
  assert (all_word "total") as Hw.
  { intros c Hc. simpl in Hc. apply in_class_word_char.
    repeat (destruct Hc as [<-|Hc]; [reflexivity|]). destruct Hc. }
  eexists. split; [vm_compute; reflexivity|]. split; [exact Hw|].
  eapply (proj1 (proj2 identifier_formula_links_same_name)
            flow_carrier _ [l] l
            (FieldMeta "total" (Some (Ref "Node1" "total")))).
  - vm_compute. reflexivity.
  - left.
  - vm_compute. reflexivity.
  - exact Hw.
  - discriminate.
Defined.

(** ** How many links there are *)

Lemma length_emitted src tgt sourceFields t :
  (length (emitted src tgt sourceFields t) ≤ length sourceFields)%nat.
Proof.
  unfold emitted. induction sourceFields as [|s ss IH]; [done|].
  cbn [mbind list_bind]. rewrite length_app.
  destruct (re_search (pattern s) t.2); simpl in *; lia.
Qed.

Lemma length_target_links src tgt ks (tf : dict string) :
  (length (tf ≫= emitted src tgt ks) ≤ length ks * length tf)%nat.
Proof.
  induction tf as [|t tf IH]; [simpl; lia|].
  cbn [mbind list_bind]. rewrite length_app. fold (tf ≫= emitted src tgt ks).
  pose proof (length_emitted src tgt ks t). simpl. lia.
Qed.

Lemma length_edge_links nodes e :
  (length (edge_links (shape nodes) e)
   ≤ length (field_keys nodes (e_source e))
     * length (field_keys nodes (e_target e)))%nat.
Proof.
  unfold edge_links, field_keys. rewrite !shape_get.
  destruct (dict_get nodes (e_source e)) as [sn|]; simpl; [|lia].
  destruct (dict_get nodes (e_target e)) as [tn|]; simpl; [|lia].
  pose proof (length_target_links (e_source e) (e_target e)
                (dict_keys (shape_node sn)) (shape_node tn)) as Hlen.
  rewrite shape_node_keys in Hlen.
  replace (length (shape_node tn)) with (length (dict_keys (output tn)))
    in Hlen; [by rewrite shape_node_keys|].
  unfold shape_node, dict_keys. by rewrite !length_fmap.
Qed.

(** X8: the link list is never longer than the sum, over the structural
    edges, of the number of fields of the source node times the number of
    fields of the target node. *)
Theorem link_count_is_bounded file nodes links :
  readFlow file = Ok (nodes, links) →
  (length links
   ≤ sum_list ((λ e, length (field_keys nodes (e_source e))
                     * length (field_keys nodes (e_target e)))%nat
                 <$> fl_edges file))%nat.
Proof.
  intros Hrun.
  apply readFlow_Ok in Hrun as (Hsh & _ & _ & -> & _). simpl in Hsh.
  rewrite <- Hsh. unfold all_links.
  induction (fl_edges file) as [|e edges IH]; [done|].
  cbn [mbind list_bind fmap list_fmap sum_list sum_list_with].
  rewrite length_app. pose proof (length_edge_links nodes e).
  simpl in *. lia.
Qed.

Lemma link_count_is_bounded_witness :
  ∃ nodes links,
    readFlow flow_fan_in = Ok (nodes, links)
    ∧ length links = 2%nat
    ∧ (length links
       ≤ sum_list ((λ e, length (field_keys nodes (e_source e))
                         * length (field_keys nodes (e_target e)))%nat
                     <$> fl_edges flow_fan_in))%nat.
Proof.
  eexists _, _. split; [vm_compute; reflexivity|]. split; [reflexivity|].
  apply (link_count_is_bounded flow_fan_in). vm_compute. reflexivity.
Defined.

Lemma emitted_NoDup src tgt sourceFields t :
  NoDup sourceFields → NoDup (emitted src tgt sourceFields t).
Proof.
  intros Hnd. unfold emitted. apply NoDup_bind; [|intros s _|done].
  - intros s1 s2 l _ _ H1 H2.
    destruct (re_search (pattern s1) t.2); [|by apply elem_of_nil in H1].
    destruct (re_search (pattern s2) t.2); [|by apply elem_of_nil in H2].
    apply list_elem_of_singleton in H1, H2. congruence.
  - destruct (re_search (pattern s) t.2);
      [apply NoDup_singleton | apply NoDup_nil_2].
Qed.

Lemma edge_links_NoDup sh e :
  wf_shape sh → NoDup (edge_links sh e).
Proof.
  intros [_ Hwf]. unfold edge_links. rewrite Forall_forall in Hwf.
  destruct (dict_get sh (e_source e)) as [sf|] eqn:Hsf; [|apply NoDup_nil_2].
  destruct (dict_get sh (e_target e)) as [tf|] eqn:Htf; [|apply NoDup_nil_2].
  apply dict_get_elem_of, Hwf in Hsf, Htf. simpl in *.
  apply NoDup_bind.
  - intros [f1 m1] [f2 m2] l H1 H2 Hl1%emitted_targets Hl2%emitted_targets.
    simpl in *. assert (f1 = f2) as -> by congruence.
    apply (dict_elem_of_get _ _ _ Htf) in H1, H2. congruence.
  - intros t _. by apply emitted_NoDup.
  - apply (NoDup_fmap_1 fst). exact Htf.
Qed.

(** X9: when no structural edge is declared twice, no link is emitted
    twice. *)
Theorem distinct_edges_give_distinct_links file nodes links :
  readFlow file = Ok (nodes, links) →
  NoDup (fl_edges file) → NoDup links.
Proof.
  intros Hrun Hnd.
  apply readFlow_Ok in Hrun as (_ & Hwf & _ & -> & _).
  unfold all_links. apply NoDup_bind; [|intros; by apply edge_links_NoDup|done].
  intros [s1 t1] [s2 t2] l _ _ H1 H2.
  apply elem_of_edge_links in H1 as (? & ? & ? & ? & _ & _ & _ & _ & _ & ->).
  apply elem_of_edge_links in H2 as (? & ? & ? & ? & _ & _ & _ & _ & _ & Heq).
  simpl in Heq. congruence.
Qed.

Lemma distinct_edges_give_distinct_links_witness :
  ∃ nodes links,
    readFlow flow_fan_in = Ok (nodes, links)
    ∧ NoDup (fl_edges flow_fan_in) ∧ NoDup links.
Proof.
  assert (NoDup (fl_edges flow_fan_in)) as Hnd by apply NoDup_singleton.
  eexists _, _. split; [vm_compute; reflexivity|]. split; [done|].
  eapply (distinct_edges_give_distinct_links flow_fan_in); [|done].
  vm_compute. reflexivity.
Defined.

(** ** What [compute_levels] returns or raises (lines 85-88) *)

Lemma collect_integers_raises (ks : list (option Z)) (acc : list Z) :
  None ∈ ks →
  for_each (λ k zs, match k with
                    | Some z => Ok (zs ++ [z])
                    | None => Raise TypeError
                    end) ks acc
  = Raise TypeError.
Proof.
  revert acc. induction ks as [|[z|] ks IH]; intros acc Hin; simpl.
  - by apply elem_of_nil in Hin.
  - apply IH. by apply elem_of_cons in Hin as [|].
  - done.
Qed.

(** [sorted] on distinct keys: [TypeError] when [None] stands next to an
    integer, and a rearrangement of the keys otherwise. *)
Lemma sorted_outcome (ks : list (option Z)) :
  NoDup ks →
  (None ∈ ks ∧ (∃ z, Some z ∈ ks) ∧ sorted ks = Raise TypeError)
  ∨ (¬ (None ∈ ks ∧ ∃ z, Some z ∈ ks)
     ∧ ∃ ls, sorted ks = Ok ls ∧ ls ≡ₚ ks).
Proof.
  intros Hnd. destruct ks as [|k1 [|k2 ks]].
  - right. split; [by intros [?%elem_of_nil _]|]. by exists [].
  - right. split; [|by exists [k1]].
    intros [HN%list_elem_of_singleton (z & Hz%list_elem_of_singleton)].
    congruence.
  - destruct (decide (None ∈ k1 :: k2 :: ks)) as [Hin|Hnot].
    + left. split; [done|]. split.
      * apply NoDup_cons in Hnd as [Hk1 _].
        destruct k1 as [z1|]; [exists z1; left|].
        destruct k2 as [z2|]; [exists z2; right; left|].
        destruct Hk1. left.
      * unfold sorted. by rewrite collect_integers_raises.
    + right. split; [by intros [? _]|].
      destruct (all_Some_fmap (k1 :: k2 :: ks)) as [zs Hzs].
      { intros [z|] Hk; [eauto | done]. }
      destruct (sorted_integers zs) as (zs' & Hs & Hperm & _).
      exists (Some <$> zs'). rewrite Hzs. split; [done|]. by rewrite Hperm.
Qed.

Lemma elem_of_with_level (lev : dict (option Z)) k n :
  NoDup (dict_keys lev) →
  n ∈ with_level lev k ↔ dict_get lev n = Some k.
Proof.
  intros Hnd. unfold with_level. rewrite list_elem_of_fmap. split.
  - intros ([n' k'] & -> & [Hk Hin]%list_elem_of_filter). simpl in *.
    subst k'. by apply dict_elem_of_get.
  - intros Hget%dict_get_elem_of. exists (n, k). split; [done|].
    by apply list_elem_of_filter.
Qed.

(** The levels and the columns on links between catalog nodes. *)
Lemma compute_levels_outcome nodes links :
  closed_links (dict_keys nodes) links →
  ∃ lev,
    assign_levels nodes links = Ok lev
    ∧ NoDup (dict_keys lev)
    ∧ (∀ n, is_Some (dict_get lev n) ↔ n ∈ dict_keys nodes)
    ∧ (((∃ n, dict_get lev n = Some None)
        ∧ (∃ n z, dict_get lev n = Some (Some z))
        ∧ compute_levels nodes links = Raise TypeError)
       ∨ (¬ ((∃ n, dict_get lev n = Some None)
             ∧ (∃ n z, dict_get lev n = Some (Some z)))
          ∧ ∃ ls, NoDup ls
                  ∧ (∀ k, k ∈ ls ↔ ∃ n, dict_get lev n = Some k)
                  ∧ compute_levels nodes links
                    = Ok (with_level lev <$> ls))).
Proof.
  intros Hclosed.
  destruct (assign_levels_spec nodes links Hclosed)
    as (done & st & Hrun & _ & Hinv).
  pose proof (assign_levels_NoDup _ _ _ Hrun) as Hnd.
  exists (levels st). split; [done|]. split; [done|].
  split; [apply (li_keys _ _ _ _ Hinv)|].
  destruct (group_levels_spec (levels st)) as (Hget & Hgk & Hgnd).
  assert (∀ k, k ∈ dict_keys (group_levels (levels st))
               ↔ ∃ n, dict_get (levels st) n = Some k) as Hkeys.
  { intros k. rewrite Hgk. split; intros [n Hn]; exists n.
    - by apply dict_elem_of_get.
    - by apply dict_get_elem_of. }
  unfold compute_levels. rewrite Hrun. simpl.
  destruct (sorted_outcome _ Hgnd)
    as [(HN & [z HS] & ->)|(Hnot & ls & -> & Hperm)].
  - left. apply Hkeys in HN, HS. destruct HS as [n HS]. eauto.
  - right. split.
    + intros [HN%Hkeys (n & z & HS)]. apply Hnot. split; [done|].
      exists z. apply Hkeys. eauto.
    + exists ls. split_and!.
      * by rewrite Hperm.
      * intros k. by rewrite Hperm.
      * simpl. f_equal. apply list_fmap_ext. intros i k _. apply Hget.
Qed.

(** X10: on links between catalog nodes [compute_levels] never raises
    [KeyError]: it raises [TypeError], and does so exactly when the
    propagation leaves some node without a level while another node has
    one; otherwise it returns. *)
Theorem compute_levels_raises_only_on_mixed_levels nodes links :
  closed_links (dict_keys nodes) links →
  ∃ lev,
    assign_levels nodes links = Ok lev
    ∧ (compute_levels nodes links = Raise TypeError
       ↔ (∃ n, dict_get lev n = Some None)
         ∧ (∃ n z, dict_get lev n = Some (Some z)))
    ∧ (∀ e, compute_levels nodes links = Raise e → e = TypeError)
    ∧ ((∃ groups, compute_levels nodes links = Ok groups)
       ↔ ¬ ((∃ n, dict_get lev n = Some None)
            ∧ (∃ n z, dict_get lev n = Some (Some z)))).
Proof.
  intros Hclosed.
  destruct (compute_levels_outcome nodes links Hclosed)
    as (lev & Hrun & _ & _ & [(HN & HS & Hc)|(Hnot & ls & _ & _ & Hc)]).
  - exists lev. rewrite Hc. split_and!; [done| | |].
    + done.
    + by intros e [= <-].
    + split; [by intros [? [=]]|]. intros []. done.
  - exists lev. rewrite Hc. split_and!; [done| | |].
    + split; [done|]. intros ?. by destruct Hnot.
    + done.
    + split; [done|]. eauto.
Qed.

Lemma compute_levels_raises_only_on_mixed_levels_witness :
  closed_links (dict_keys nodes_ABCD) links_cycle
  ∧ compute_levels nodes_ABCD links_cycle = Raise TypeError
  ∧ ∃ lev,
      assign_levels nodes_ABCD links_cycle = Ok lev
      ∧ (∃ n, dict_get lev n = Some None)
      ∧ (∃ n z, dict_get lev n = Some (Some z)).
Proof.
  assert (closed_links (dict_keys nodes_ABCD) links_cycle) as Hclosed.
  { intros l Hl. each_elem Hl; split; compute_done. }
  split; [done|]. split; [vm_compute; reflexivity|].
  destruct (compute_levels_raises_only_on_mixed_levels
              nodes_ABCD links_cycle Hclosed) as (lev & Hrun & Hiff & _).
  exists lev. split; [done|]. apply Hiff. vm_compute. reflexivity.
Defined.

(** X11: whenever [compute_levels] returns on links between catalog nodes,
    its columns partition the catalog: every node of the catalog is in
    exactly one column, a column holds only nodes of the catalog, none of
    them twice, and no column is empty. *)
Theorem columns_partition_the_catalog nodes links groups :
  closed_links (dict_keys nodes) links →
  compute_levels nodes links = Ok groups →
  (∀ n, n ∈ dict_keys nodes ↔ ∃ i, in_column groups n i)
  ∧ (∀ n i j, in_column groups n i → in_column groups n j → i = j)
  ∧ (∀ g, g ∈ groups → g ≠ [] ∧ NoDup g).
Proof.
  intros Hclosed Hc.
  destruct (compute_levels_outcome nodes links Hclosed)
    as (lev & Hrun & Hnd & Hkeys
        & [(_ & _ & Hr)|(_ & ls & Hls & Hmem & Hok)]); [congruence|].
  rewrite Hc in Hok. injection Hok as ->.
  assert (∀ n i, in_column (with_level lev <$> ls) n i
                 ↔ ∃ k, ls !! i = Some k ∧ dict_get lev n = Some k) as Hcol.
  { intros n i. unfold in_column. rewrite list_lookup_fmap. split.
    - intros (g & Hg & Hn). destruct (ls !! i) as [k|]; [|done].
      injection Hg as <-. exists k. split; [done|].
      by apply elem_of_with_level.
    - intros (k & -> & Hn). exists (with_level lev k). split; [done|].
      by apply elem_of_with_level. }
  split_and!.
  - intros n. rewrite <- Hkeys. split.
    + intros [k Hk]. assert (k ∈ ls) as Hin by (apply Hmem; eauto).
      apply list_elem_of_lookup in Hin as [i Hi]. exists i.
      apply Hcol. eauto.
    + intros (i & (k & _ & Hk)%Hcol). eauto.
  - intros n i j (k & Hi & Hk)%Hcol (k' & Hj & Hk')%Hcol.
    assert (k' = k) as -> by congruence.
    by eapply NoDup_lookup.
  - intros g (k & -> & Hk)%list_elem_of_fmap. split.
    + apply Hmem in Hk as [n Hn]. apply elem_of_with_level in Hn; [|done].
      intros Hnil. rewrite Hnil in Hn. by apply elem_of_nil in Hn.
    + unfold with_level. eapply sublist_NoDup; [exact Hnd|].
      unfold dict_keys. apply fmap_sublist, sublist_filter.
Qed.

Lemma columns_partition_the_catalog_witness :
  closed_links (dict_keys nodes_ABC) links_cycle
  ∧ compute_levels nodes_ABC links_cycle = Ok [["A"; "B"; "C"]]
  ∧ (∀ n, n ∈ dict_keys nodes_ABC ↔ ∃ i, in_column [["A"; "B"; "C"]] n i).
Proof.
  assert (closed_links (dict_keys nodes_ABC) links_cycle) as Hclosed.
  { intros l Hl. each_elem Hl; split; compute_done. }
  assert (compute_levels nodes_ABC links_cycle = Ok [["A"; "B"; "C"]])
    as Hrun by (vm_compute; reflexivity).
  split; [done|]. split; [done|].
  exact (proj1 (columns_partition_the_catalog
                  nodes_ABC links_cycle _ Hclosed Hrun)).
Defined.

(** ** The order of the nodes in the levels and in the columns *)

Lemma first_seen_from (acc l : list string) :
  ∃ extra,
    foldl (λ acc x, if decide (x ∈ acc) then acc else acc ++ [x]) acc l
    = acc ++ extra
    ∧ ∀ x, x ∈ extra → x ∉ acc.
Proof.
  revert acc. induction l as [|x l IH]; intros acc; cbn [foldl].
  - exists []. split; [by rewrite app_nil_r | by intros ? ?%elem_of_nil].
  - destruct (decide (x ∈ acc)) as [Hx|Hx]; [apply IH|].
    destruct (IH (acc ++ [x])) as (extra & -> & Hex).
    exists (x :: extra). split; [by rewrite <- app_assoc|].
    intros y [->|Hy]%elem_of_cons; [done|]. apply Hex in Hy. set_solver.
Qed.

Lemma first_seen_NoDup (acc l : list string) :
  NoDup (acc ++ l) →
  foldl (λ acc x, if decide (x ∈ acc) then acc else acc ++ [x]) acc l
  = acc ++ l.
Proof.
  revert acc. induction l as [|x l IH]; intros acc Hnd; cbn [foldl].
  - by rewrite app_nil_r.
  - assert (x ∉ acc) as Hx.
    { apply NoDup_app in Hnd as (_ & Hdis & _). intros Hin.
      apply (Hdis x Hin). left. }
    rewrite decide_False by done. rewrite IH; [by rewrite <- app_assoc|].
    by rewrite <- app_assoc.
Qed.

Lemma foldl_dict_set_const_keys {V} (v : V) (l : list string) (d0 : dict V) :
  dict_keys (foldl (λ d k, dict_set d k v) d0 l)
  = foldl (λ acc x, if decide (x ∈ acc) then acc else acc ++ [x])
          (dict_keys d0) l.
Proof.
  pose proof (foldl_dict_set_keys id (λ _ : string, v) l d0) as H.
  by rewrite list_fmap_id in H.
Qed.

Lemma visit_child_levels_keys nid c st st' :
  visit_child nid c st = Ok st' →
  dict_keys (levels st') = dict_keys (levels st).
Proof.
  unfold visit_child.
  intros (d & _ & H)%bind_Ok.
  apply bind_Ok in H as (ln & _ & H).
  apply bind_Ok in H as (lvl & _ & H).
  apply bind_Ok in H as (lc & Hlc%subscript_Ok & H).
  apply bind_Ok in H as (d' & _ & H).
  injection H as <-. simpl.
  destruct (match lc with Some l => bool_decide (lvl > l) | None => true end);
    [|done].
  apply dict_keys_set_in. by eapply dict_get_Some_key.
Qed.

Lemma drain_levels_keys children fuel st st' :
  drain children fuel st = Ok st' →
  dict_keys (levels st') = dict_keys (levels st).
Proof.
  revert st. induction fuel as [|fuel IH]; intros st; simpl.
  - destruct (queue st); [by intros [= <-] | done].
  - destruct (queue st) as [|nid rest]; [by intros [= <-]|].
    intros (s1 & H1 & H2)%bind_Ok. rewrite (IH s1 H2).
    eapply (for_each_inv
              (λ s, dict_keys (levels s) = dict_keys (levels st)));
      [| |exact H1].
    + intros c s2 s3 _ <- Hstep. by eapply visit_child_levels_keys.
    + done.
Qed.

(** The levels dict lists the nodes in the order of the catalog. *)
Lemma assign_levels_keys nodes links lev :
  closed_links (dict_keys nodes) links → NoDup (dict_keys nodes) →
  assign_levels nodes links = Ok lev →
  dict_keys lev = dict_keys nodes.
Proof.
  intros Hclosed Hnd Hrun.
  destruct (assign_levels_spec nodes links Hclosed)
    as (done & st & Hrun' & _ & Hinv).
  rewrite Hrun in Hrun'. injection Hrun' as ->.
  pose proof (li_keys _ _ _ _ Hinv) as Hkeys.
  revert Hrun. unfold assign_levels.
  destruct (foldl count_link _ links) as [children ind1].
  intros (st' & Hdrain & [= Hlev])%bind_Ok.
  apply drain_levels_keys in Hdrain. simpl in Hdrain.
  rewrite Hlev in Hdrain. rewrite Hdrain.
  rewrite !foldl_dict_set_const_keys. simpl.
  rewrite (first_seen_NoDup [] (dict_keys nodes)) by done. simpl.
  destruct (first_seen_from (dict_keys nodes)
              (filter (λ p, p.2 = 0) ind1).*1) as (extra & Heq & Hex).
  rewrite Heq. destruct extra as [|x extra]; [by rewrite app_nil_r|].
  exfalso. apply (Hex x); [left|]. apply Hkeys, dict_get_is_Some.
  rewrite Hdrain, !foldl_dict_set_const_keys. simpl.
  rewrite (first_seen_NoDup [] (dict_keys nodes)) by done. simpl.
  rewrite Heq. set_solver.
Qed.

(** X12: whenever [compute_levels] returns on links between catalog nodes,
    every column lists its nodes in the order of the catalog. *)
Theorem columns_keep_catalog_order nodes links groups :
  closed_links (dict_keys nodes) links → NoDup (dict_keys nodes) →
  compute_levels nodes links = Ok groups →
  ∀ g, g ∈ groups → g `sublist_of` dict_keys nodes.
Proof.
  intros Hclosed Hnd Hc.
  destruct (compute_levels_outcome nodes links Hclosed)
    as (lev & Hrun & _ & _
        & [(_ & _ & Hr)|(_ & ls & _ & _ & Hok)]); [congruence|].
  rewrite Hc in Hok. injection Hok as ->.
  intros g (k & -> & _)%list_elem_of_fmap.
  rewrite <- (assign_levels_keys nodes links lev Hclosed Hnd Hrun).
  unfold with_level, dict_keys. apply fmap_sublist, sublist_filter.
Qed.

Lemma columns_keep_catalog_order_witness :
  closed_links (dict_keys nodes_ABCD) links_diamond
  ∧ NoDup (dict_keys nodes_ABCD)
  ∧ compute_levels nodes_ABCD links_diamond = Ok [["A"]; ["B"; "C"]; ["D"]]
  ∧ ["B"; "C"] `sublist_of` dict_keys nodes_ABCD.
Proof.
  assert (closed_links (dict_keys nodes_ABCD) links_diamond) as Hclosed.
  { intros l Hl. each_elem Hl; split; compute_done. }
  assert (NoDup (dict_keys nodes_ABCD)) as Hnd by compute_done.
  assert (compute_levels nodes_ABCD links_diamond
          = Ok [["A"]; ["B"; "C"]; ["D"]]) as Hrun by (vm_compute; reflexivity).
  split; [done|]. split; [done|]. split; [done|].
  apply (columns_keep_catalog_order nodes_ABCD links_diamond _
           Hclosed Hnd Hrun).
  right. left.
Defined.

Lemma NoDup_only_element {A} (l : list A) x :
  NoDup l → (∀ y, y ∈ l ↔ y = x) → l = [x].
Proof.
  intros Hnd Hmem. destruct l as [|a l].
  - assert (x ∈ @nil A) as Hx by by apply Hmem. by apply elem_of_nil in Hx.
  - assert (a = x) as -> by (apply Hmem; left).
    destruct l as [|b l]; [done|].
    assert (b = x) as -> by (apply Hmem; right; left).
    apply NoDup_cons in Hnd as [Hx _]. destruct Hx. left.
Qed.

(** X13: without any link every node is a root: a non-empty catalog is
    returned as one column that lists all nodes in catalog order, and the
    empty catalog gives no column. *)
Theorem no_links_one_column nodes :
  NoDup (dict_keys nodes) →
  compute_levels nodes []
  = Ok (match nodes with [] => [] | _ => [dict_keys nodes] end).
Proof.
  intros Hnd.
  assert (closed_links (dict_keys nodes) []) as Hclosed
    by (by intros l ?%elem_of_nil).
  destruct (assign_levels_spec nodes [] Hclosed)
    as (done & st & Hrun & _ & Hinv).
  assert (∀ n, n ∈ dict_keys nodes →
               dict_get (levels st) n = Some (Some 0)) as Hzero.
  { intros n Hn. apply (li_root _ _ _ _ Hinv); [done|].
    by intros l ?%elem_of_nil. }
  destruct (compute_levels_outcome nodes [] Hclosed)
    as (lev & Hrun' & Hndl & Hkeys
        & [((n & HN) & _)|(_ & ls & Hls & Hmem & ->)]).
  { rewrite Hrun in Hrun'. injection Hrun' as <-.
    rewrite Hzero in HN; [done|]. apply Hkeys. eauto. }
  rewrite Hrun in Hrun'. injection Hrun' as <-. f_equal.
  pose proof (assign_levels_keys nodes [] _ Hclosed Hnd Hrun) as Hk.
  destruct nodes as [|p nodes].
  - destruct ls as [|k ls]; [done|]. exfalso.
    destruct (proj1 (Hmem k)) as [n Hn]; [left|].
    assert (n ∈ dict_keys (levels st)) as Hin by by eapply dict_get_Some_key.
    rewrite Hk in Hin. by apply elem_of_nil in Hin.
  - rewrite (NoDup_only_element ls (Some 0) Hls).
    + change (with_level (levels st) <$> [Some 0])
        with [with_level (levels st) (Some 0)].
      f_equal. rewrite <- Hk. unfold with_level, dict_keys.
      f_equal. apply filter_all. intros [n k] Hin. simpl.
      apply dict_elem_of_get in Hin; [|done].
      rewrite Hzero in Hin; [congruence|]. rewrite <- Hk.
      by eapply dict_get_Some_key.
    + intros k. rewrite Hmem. split.
      * intros [n Hn]. rewrite Hzero in Hn; [congruence|].
        rewrite <- Hk. by eapply dict_get_Some_key.
      * intros ->. exists p.1. apply Hzero. left.
Qed.

Lemma no_links_one_column_witness :
  NoDup (dict_keys nodes_ABC)
  ∧ compute_levels nodes_ABC [] = Ok [["A"; "B"; "C"]].
Proof.
  assert (NoDup (dict_keys nodes_ABC)) as Hnd by compute_done.
  split; [done|]. exact (no_links_one_column nodes_ABC Hnd).
Defined.

(** ** Levels are longest paths *)

(** The state in which the [while] loop is entered. *)
Lemma assign_levels_entry nodes links :
  closed_links (dict_keys nodes) links →
  ∃ children fuel st0,
    (∀ n, default [] (dict_get children n) = children_of links n)
    ∧ (waiting st0 ≤ fuel)%nat
    ∧ level_inv (dict_keys nodes) links [] st0
    ∧ (∀ n z, dict_get (levels st0) n = Some (Some z) →
              z = 0 ∧ no_inbound links n)
    ∧ assign_levels nodes links
      = bind (drain children fuel st0) (λ st, Ok (levels st)).
Proof.
  intros Hclosed. unfold assign_levels.
  set (ks := dict_keys nodes) in *.
  set (ind0 := foldl (λ d nid, dict_set d nid 0) [] ks).
  pose proof (count_links_spec links [] ind0) as (Hch & Hind & Hsome & Hnd).
  destruct (foldl count_link ([], ind0) links) as [children ind1].
  simpl in Hch, Hind, Hsome, Hnd.
  assert (∀ n, is_Some (dict_get ind0 n) ↔ n ∈ ks) as Hks0.
  { intros n. unfold ind0. rewrite foldl_dict_set_get.
    case_decide; simpl; split; try done; by intros [? ?]. }
  assert (NoDup (dict_keys ind1)) as Hnd1.
  { apply Hnd. unfold ind0. apply foldl_dict_set_NoDup, NoDup_nil_2. }
  assert (∀ n, n ∈ ks →
               dict_get ind1 n = Some (Z.of_nat (pending links [] n))) as Hget1.
  { intros n Hn. specialize (Hind n).
    assert (is_Some (dict_get ind1 n)) as [z Hz].
    { apply Hsome. left. by apply Hks0. }
    rewrite Hz in *. simpl in Hind. unfold ind0 in Hind.
    rewrite foldl_dict_set_get, decide_True in Hind by done.
    simpl in Hind. f_equal. lia. }
  assert (∀ n, is_Some (dict_get ind1 n) → n ∈ ks) as Hks1.
  { intros n [?|(l & Hl & <-)]%Hsome; [by apply Hks0|]. by apply Hclosed. }
  set (queue0 := (filter (λ p, p.2 = 0) ind1).*1).
  assert (∀ n, n ∈ queue0 ↔ dict_get ind1 n = Some 0) as Hq0.
  { intros n. by apply elem_of_zero_keys. }
  set (levels0 := foldl (λ d nid, dict_set d nid None) [] ks).
  set (levels1 := foldl (λ d nid, dict_set d nid (Some 0)) levels0 queue0).
  assert (∀ n, dict_get levels1 n
               = if decide (n ∈ queue0) then Some (Some 0)
                 else if decide (n ∈ ks) then Some None else None) as Hl1.
  { intros n. unfold levels1, levels0. by rewrite !foldl_dict_set_get. }
  exists children, (S (length ind1)), (LevelState queue0 ind1 levels1).
  split_and!.
  - intros n. by rewrite Hch.
  - unfold waiting. simpl. pose proof (filter_zero_positive ind1).
    fold queue0 in H. lia.
  - split; simpl.
    + by apply zero_keys_NoDup.
    + intros n Hn%Hq0. apply Hks1. eauto.
    + done.
    + intros n Hn. rewrite Hq0, Hget1 by done. split; [|by intros ->].
      intros [= Hz]. lia.
    + intros n. rewrite Hl1.
      destruct (decide (n ∈ queue0)) as [Hn%Hq0|Hn].
      * split; [|done]. intros _. apply Hks1. eauto.
      * case_decide; split; try done; by intros [? ?].
    + intros n Hn. exists 0. rewrite Hl1. by rewrite decide_True.
    + by intros l _ ?%elem_of_nil.
    + intros n Hn Hno. rewrite Hl1, decide_True; [done|].
      apply Hq0. rewrite Hget1 by done.
      apply (pending_root links) in Hno. by rewrite Hno.
  - simpl. intros n z. rewrite Hl1.
    destruct (decide (n ∈ queue0)) as [Hn%Hq0|Hn].
    + intros [= <-]. split; [done|]. apply pending_root.
      assert (n ∈ ks) as Hks by (apply Hks1; eauto).
      rewrite Hget1 in Hn by done. injection Hn as Hn. lia.
    + by case_decide.
  - done.
Qed.

(** The loop with one more invariant [J] of its iterations. *)
Lemma drain_inv_with ks links children
    (J : list string → level_state → Prop) :
  closed_links ks links →
  (∀ n, default [] (dict_get children n) = children_of links n) →
  (∀ done st nid rest st',
     level_inv ks links done st → J done st → queue st = nid :: rest →
     for_each (visit_child nid) (children_of links nid)
              (LevelState rest (indegree st) (levels st)) = Ok st' →
     J (done ++ [nid]) st') →
  ∀ fuel done st,
    level_inv ks links done st → J done st → (waiting st ≤ fuel)%nat →
    ∃ done' st',
      drain children fuel st = Ok st'
      ∧ queue st' = [] ∧ level_inv ks links done' st' ∧ J done' st'.
Proof.
  intros Hclosed Hch Hstep.
  induction fuel as [|fuel IH]; intros done st Hinv HJ Hw.
  - unfold waiting in Hw. simpl.
    destruct (queue st) as [|nid rest] eqn:Hq; [|simpl in Hw; lia].
    by exists done, st.
  - simpl. destruct (queue st) as [|nid rest] eqn:Hq; [by exists done, st|].
    destruct (drain_step ks links Hclosed done st nid rest Hinv Hq)
      as (st1 & Hrun & Hinv1).
    rewrite Hch, Hrun. simpl. apply (IH (done ++ [nid])); [done| |].
    + by eapply Hstep.
    + apply visit_children_waiting in Hrun. rewrite Hrun.
      unfold waiting in *. rewrite Hq in Hw. simpl in *. lia.
Qed.

(** The levels after the children of [nid] are visited: a child either
    keeps its level or gets the level of [nid] plus one. *)
Lemma visit_children_levels nid L cs st st' :
  nid ∉ cs →
  dict_get (levels st) nid = Some (Some L) →
  for_each (visit_child nid) cs st = Ok st' →
  (∀ n, n ∉ cs → dict_get (levels st') n = dict_get (levels st) n)
  ∧ (∀ n z, dict_get (levels st') n = Some (Some z) →
            dict_get (levels st) n = Some (Some z) ∨ n ∈ cs ∧ z = L + 1).
Proof.
  intros Hnid HL.
  apply (for_each_inv
           (λ s, (∀ n, n ∉ cs → dict_get (levels s) n = dict_get (levels st) n)
                 ∧ (∀ n z, dict_get (levels s) n = Some (Some z) →
                           dict_get (levels st) n = Some (Some z)
                           ∨ n ∈ cs ∧ z = L + 1))); [|by auto].
  intros c s1 s2 Hc [Hsame Hnew]. unfold visit_child.
  intros (d & _ & H)%bind_Ok.
  apply bind_Ok in H as (ln & Hln%subscript_Ok & H).
  rewrite Hsame, HL in Hln by done. injection Hln as <-.
  apply bind_Ok in H as (lvl & [= <-] & H).
  apply bind_Ok in H as (lc & _ & H).
  apply bind_Ok in H as (d' & _ & H).
  injection H as <-. simpl.
  destruct (match lc with Some l => bool_decide (L + 1 > l) | None => true end);
    [|by auto].
  split.
  - intros n Hn. rewrite dict_get_set_ne; [by apply Hsame|]. by intros ->.
  - intros n z. rewrite dict_get_set.
    destruct (decide (c = n)) as [<-|Hne]; [|by apply Hnew].
    intros [= <-]. by right.
Qed.

Lemma tight_step ks links done st nid rest st' :
  level_inv ks links done st → tight links done st →
  queue st = nid :: rest →
  for_each (visit_child nid) (children_of links nid)
           (LevelState rest (indegree st) (levels st)) = Ok st' →
  tight links (done ++ [nid]) st'.
Proof.
  intros Hinv Htight Hq Hrun.
  assert (∀ n, n ∈ done ++ queue st → n ∉ children_of links nid) as Hsettled.
  { intros n Hn (l & Hl & Hs & Ht)%elem_of_children_of.
    assert (pending links done n = 0%nat) as Hp.
    { apply (li_ready _ _ _ _ Hinv); [|done]. by apply (li_nodes _ _ _ _ Hinv). }
    assert (src_node l ∈ done) as Hd by (by apply (pending_zero links done n)).
    pose proof (li_nodup _ _ _ _ Hinv) as Hnd. rewrite Hq in Hnd.
    apply NoDup_app in Hnd as (_ & Hdis & _). apply (Hdis nid); [congruence|].
    left. }
  destruct (li_level _ _ _ _ Hinv nid) as [L HL]; [rewrite Hq; set_solver|].
  destruct (visit_children_levels nid L (children_of links nid)
              (LevelState rest (indegree st) (levels st)) st')
    as [Hsame Hnew]; [|done|done|].
  { apply Hsettled. rewrite Hq. set_solver. }
  simpl in *. destruct (Htight nid L HL) as [HL0 _].
  intros n z Hz. destruct (Hnew n z Hz) as [Hold|[Hc ->]].
  - destruct (Htight n z Hold) as [Hz0 [Hroot|(l & Hl & Ht & Hs & Hlev)]].
    + split; [done|]. by left.
    + split; [done|]. right. exists l. split_and!; [done..|set_solver|].
      rewrite Hsame; [done|]. apply Hsettled. set_solver.
  - split; [lia|]. right.
    apply elem_of_children_of in Hc as (l & Hl & Hs & Ht).
    exists l. split_and!; [done..|set_solver|].
    rewrite Hs, Hsame by (apply Hsettled; rewrite Hq; set_solver).
    rewrite HL. do 2 f_equal. lia.
Qed.

(** The levels of an acyclic graph, with their justification. *)
Lemma assign_levels_tight nodes links :
  closed_links (dict_keys nodes) links →
  ∃ done st,
    assign_levels nodes links = Ok (levels st)
    ∧ queue st = []
    ∧ level_inv (dict_keys nodes) links done st
    ∧ tight links done st.
Proof.
  intros Hclosed.
  destruct (assign_levels_entry nodes links Hclosed)
    as (children & fuel & st0 & Hch & Hw & Hinv0 & Hroot & ->).
  destruct (drain_inv_with (dict_keys nodes) links children (tight links)
              Hclosed Hch) with (fuel := fuel) (done := @nil string)
    (st := st0) as (dn & st & -> & Hq & Hinv & Htight).
  - intros. by eapply tight_step.
  - exact Hinv0.
  - intros n z Hz. destruct (Hroot n z Hz) as [-> Hno]. split; [lia|].
    by left.
  - exact Hw.
  - by exists dn, st.
Qed.

(** X14: on links between catalog nodes with an acyclic projection, the
    level of a node is 0 exactly when no link targets it, and otherwise
    one more than the greatest level among the nodes that have a link
    into it: every such node has a smaller level, and one of them has the
    level just below. No level is negative. *)
Theorem levels_are_longest_paths nodes links :
  closed_links (dict_keys nodes) links → acyclic links →
  ∃ lev,
    assign_levels nodes links = Ok lev
    ∧ ∀ n, n ∈ dict_keys nodes →
           ∃ z, dict_get lev n = Some (Some z)
                ∧ 0 ≤ z
                ∧ (z = 0 ↔ no_inbound links n)
                ∧ (∀ l, l ∈ links → tgt_node l = n →
                        ∃ zs, dict_get lev (src_node l) = Some (Some zs)
                              ∧ zs < z)
                ∧ (0 < z →
                   ∃ l, l ∈ links ∧ tgt_node l = n
                        ∧ dict_get lev (src_node l) = Some (Some (z - 1))).
Proof.
  intros Hclosed Hacyc.
  destruct (assign_levels_tight nodes links Hclosed)
    as (done & st & Hrun & Hq & Hinv & Htight).
  pose proof (acyclic_all_done links _ done st Hclosed Hacyc Hinv Hq) as Hall.
  exists (levels st). split; [done|]. intros n Hn.
  destruct (li_level _ _ _ _ Hinv n) as [z Hz].
  { rewrite Hq, app_nil_r. auto. }
  destruct (Htight n z Hz) as [Hz0 Hwhy].
  exists z. split_and!; [done..| | |].
  - split.
    + intros ->. destruct Hwhy as [[_ ?]|(l & _ & _ & _ & Hl)]; [done|].
      apply Htight in Hl as [? _]. lia.
    + intros Hno. pose proof (li_root _ _ _ _ Hinv n Hn Hno). congruence.
  - intros l Hl Ht.
    destruct (li_forward _ _ _ _ Hinv l Hl) as (zs & zt & Hs & Ht' & Hlt).
    { by apply Hall, Hclosed. }
    rewrite Ht, Hz in Ht'. injection Ht' as <-. eauto.
  - intros Hpos. destruct Hwhy as [[? _]|(l & Hl & Ht & _ & Hlev)]; [lia|].
    eauto.
Qed.

Lemma levels_are_longest_paths_witness :
  closed_links (dict_keys nodes_ABCD) links_diamond
  ∧ acyclic links_diamond
  ∧ ∃ lev,
      assign_levels nodes_ABCD links_diamond = Ok lev
      ∧ dict_get lev "A" = Some (Some 0)
      ∧ dict_get lev "D" = Some (Some 2).
Proof.
  assert (closed_links (dict_keys nodes_ABCD) links_diamond) as Hclosed.
  { intros l Hl. each_elem Hl; split; compute_done. }
  assert (acyclic links_diamond) as Hacyc.
  { apply (ranked_acyclic rank_diamond). intros l Hl.
    each_elem Hl; vm_compute; lia. }
  split; [done|]. split; [done|].
  destruct (levels_are_longest_paths nodes_ABCD links_diamond Hclosed Hacyc)
    as (lev & Hrun & _).
  exists lev. split; [done|].
  assert (Ok lev = assign_levels nodes_ABCD links_diamond) as Heq by done.
  vm_compute in Heq. injection Heq as ->. split; reflexivity.
Defined.

(** ** The index of a column is the level of its nodes *)

Lemma sorted_contiguous (zs : list Z) :
  StronglySorted Z.le zs → NoDup zs →
  (∀ z, z ∈ zs → 0 ≤ z ∧ (0 < z → z - 1 ∈ zs)) →
  ∀ i z, zs !! i = Some z → z = Z.of_nat i.
Proof.
  intros Hss Hnd Hdown i.
  induction (lt_wf i) as [i _ IH]. intros z Hi.
  assert (z ∈ zs) as Hz by by eapply list_elem_of_lookup_2.
  destruct (Hdown z Hz) as [Hz0 Hpred].
  assert (Z.of_nat i ≤ z) as Hge.
  { destruct i as [|i]; [lia|].
    destruct (lookup_lt_is_Some_2 zs i) as [z' Hi'].
    { apply lookup_lt_Some in Hi. lia. }
    pose proof (IH i ltac:(lia) z' Hi') as ->.
    assert (Z.of_nat i ≤ z)
      by (apply (StronglySorted_lookup_lt Z.le zs i (S i)); [done..|lia]).
    assert (z ≠ Z.of_nat i).
    { intros ->. pose proof (NoDup_lookup _ _ _ _ Hnd Hi Hi'). lia. }
    lia. }
  destruct (decide (z = 0)) as [->|Hne]; [lia|].
  destruct (proj1 (list_elem_of_lookup zs (z - 1))) as [j Hj]; [apply Hpred; lia|].
  destruct (decide (j < i)%nat) as [Hlt|Hge'].
  - pose proof (IH j Hlt _ Hj). lia.
  - destruct (decide (j = i)) as [->|Hji].
    + rewrite Hi in Hj. injection Hj as Hj. lia.
    + assert (z ≤ z - 1); [|lia].
      apply (StronglySorted_lookup_lt Z.le zs i j); [done..|lia].
Qed.

Lemma columns_of_integer_levels nodes links lev :
  assign_levels nodes links = Ok lev →
  (∀ n k, dict_get lev n = Some k → is_Some k) →
  ∃ zs,
    compute_levels nodes links = Ok ((λ z, with_level lev (Some z)) <$> zs)
    ∧ StronglySorted Z.le zs ∧ NoDup zs
    ∧ ∀ z, z ∈ zs ↔ ∃ n, dict_get lev n = Some (Some z).
Proof.
  intros Hrun Hint.
  pose proof (assign_levels_NoDup _ _ _ Hrun) as Hnd.
  destruct (group_levels_spec lev) as (Hget & Hgk & Hgnd).
  destruct (all_Some_fmap (dict_keys (group_levels lev))) as [zs Hzs].
  { intros k (n & Hin)%Hgk. apply dict_elem_of_get in Hin; [|done].
    by eapply Hint. }
  destruct (sorted_integers zs) as (zs' & Hsort & Hperm & Hss).
  exists zs'. split_and!; [|done| |].
  - unfold compute_levels. rewrite Hrun. simpl. rewrite Hzs, Hsort. simpl.
    f_equal. rewrite <- list_fmap_compose. apply list_fmap_ext.
    intros i z _. simpl. apply Hget.
  - rewrite Hperm. apply (NoDup_fmap_1 Some). by rewrite <- Hzs.
  - intros z. rewrite Hperm.
    assert (z ∈ zs ↔ Some z ∈ dict_keys (group_levels lev)) as ->.
    { rewrite Hzs, list_elem_of_fmap. split; [by eauto|].
      by intros (z' & [= ->] & ?). }
    rewrite Hgk. split; intros [n Hn]; exists n.
    + by apply dict_elem_of_get.
    + by apply dict_get_elem_of.
Qed.

(** ** Roots are in the first column *)

(** C6: on a catalog and a link list whose links join nodes of the catalog
    (as every output of [readFlow] does), the loop assigns the levels, and
    a node that no link targets has level 0, whether or not the projected
    graph has a cycle elsewhere. Whenever [compute_levels] returns its
    columns, such a node is in the first column and in no other; the
    columns are returned exactly when no node is left without a level, so
    whenever the projected graph has no cycle. *)
Theorem node_without_inbound_link_has_level_0 nodes links n :
  closed_links (dict_keys nodes) links →
  n ∈ dict_keys nodes → no_inbound links n →
  ∃ lev, assign_levels nodes links = Ok lev
         ∧ dict_get lev n = Some (Some 0)
         ∧ (∀ groups, compute_levels nodes links = Ok groups →
                      in_column groups n 0
                      ∧ ∀ i, in_column groups n i → i = 0%nat)
         ∧ ((∃ groups, compute_levels nodes links = Ok groups)
            ↔ ∀ m, dict_get lev m ≠ Some None)
         ∧ (acyclic links →
            ∃ groups, compute_levels nodes links = Ok groups).
Proof.
  intros Hclosed Hn Hno.
  destruct (assign_levels_tight nodes links Hclosed)
    as (dn & st & Hrun & Hq & Hinv & Htight).
  assert (dict_get (levels st) n = Some (Some 0)) as Hroot
    by by apply (li_root _ _ _ _ Hinv).
  pose proof (assign_levels_NoDup _ _ _ Hrun) as Hnd.
  assert ((∃ groups, compute_levels nodes links = Ok groups) →
          ∀ m, dict_get (levels st) m ≠ Some None) as Hall.
  { intros [groups Hg] m Hm.
    destruct (compute_levels_outcome nodes links Hclosed)
      as (lev & Hlev & _ & _ & [(_ & _ & Hr)|(Hmix & _)]); [congruence|].
    rewrite Hrun in Hlev. injection Hlev as <-.
    apply Hmix. split; [by exists m | by exists n, 0]. }
  assert ((∀ m, dict_get (levels st) m ≠ Some None) →
          ∃ zs, compute_levels nodes links
                = Ok ((λ z, with_level (levels st) (Some z)) <$> zs)
                ∧ zs !! 0%nat = Some 0 ∧ NoDup zs) as Hcols.
  { intros Hsome.
    destruct (columns_of_integer_levels nodes links (levels st) Hrun)
      as (zs & Hc & Hsorted & Hndz & Hzs).
    { intros m [z|] Hm; [by eexists | by apply Hsome in Hm]. }
    exists zs. split; [done|]. split; [|done].
    assert (0 ∈ zs) as H0 by (apply Hzs; by exists n).
    destruct zs as [|z0 zs]; [by apply elem_of_nil in H0|].
    assert (0 ≤ z0) as Hge.
    { destruct (proj1 (Hzs z0)) as [m Hm]; [left|].
      by destruct (Htight m z0 Hm). }
    apply StronglySorted_inv in Hsorted as [_ Hle].
    apply elem_of_cons in H0 as [<-|H0]; [done|].
    rewrite Forall_forall in Hle. apply Hle in H0. simpl. f_equal. lia. }
  exists (levels st). split_and!; [done|done| | |].
  - intros groups Hg.
    destruct Hcols as (zs & Hc & Hz0 & Hndz); [apply Hall; by exists groups|].
    rewrite Hc in Hg. injection Hg as <-. split.
    + exists (with_level (levels st) (Some 0)). split.
      * by rewrite list_lookup_fmap, Hz0.
      * by apply elem_of_with_level.
    + intros i (g & Hg & Hin). rewrite list_lookup_fmap in Hg.
      destruct (zs !! i) as [z|] eqn:Hi; [|done]. injection Hg as <-.
      apply elem_of_with_level in Hin; [|done].
      rewrite Hroot in Hin. injection Hin as <-.
      by apply (NoDup_lookup zs i 0%nat 0).
  - split; [done|]. intros Hsome.
    destruct (Hcols Hsome) as (zs & Hc & _). by eexists.
  - intros Hacyc.
    destruct (compute_levels_acyclic nodes links Hclosed Hacyc)
      as (lev & zs & _ & Hc & _). by eexists.
Qed.

Lemma node_without_inbound_link_has_level_0_witness :
  closed_links (dict_keys nodes_ABCD) links_diamond
  ∧ "A" ∈ dict_keys nodes_ABCD
  ∧ no_inbound links_diamond "A"
  ∧ compute_levels nodes_ABCD links_diamond = Ok [["A"]; ["B"; "C"]; ["D"]]
  ∧ in_column [["A"]; ["B"; "C"]; ["D"]] "A" 0.
Proof.
  assert (closed_links (dict_keys nodes_ABCD) links_diamond) as Hclosed.
  { intros l Hl. unfold links_diamond in Hl.
    each_elem Hl; split; compute_done. }
  assert ("A" ∈ dict_keys nodes_ABCD) as HA by compute_done.
  assert (no_inbound links_diamond "A") as Hno.
  { intros l Hl. unfold links_diamond in Hl. each_elem Hl; discriminate. }
  assert (compute_levels nodes_ABCD links_diamond
          = Ok [["A"]; ["B"; "C"]; ["D"]]) as Hc by (vm_compute; reflexivity).
  split_and!; [done..|].
  destruct (node_without_inbound_link_has_level_0
              nodes_ABCD links_diamond "A" Hclosed HA Hno)
    as (lev & _ & _ & Hcol & _).
  by apply Hcol.
Defined.

(** X15: on links between catalog nodes with an acyclic projection, the
    levels that occur are 0, 1, 2, ... without a gap, so the column with
    index [i] of the result holds exactly the nodes of level [i]. *)
Theorem column_index_is_level nodes links :
  closed_links (dict_keys nodes) links → acyclic links →
  ∃ lev groups,
    assign_levels nodes links = Ok lev
    ∧ compute_levels nodes links = Ok groups
    ∧ ∀ n i, in_column groups n i
             ↔ dict_get lev n = Some (Some (Z.of_nat i)).
Proof.
  intros Hclosed Hacyc.
  destruct (assign_levels_tight nodes links Hclosed)
    as (done & st & Hrun & Hq & Hinv & Htight).
  pose proof (acyclic_all_done links _ done st Hclosed Hacyc Hinv Hq) as Hall.
  pose proof (assign_levels_NoDup _ _ _ Hrun) as Hnd.
  destruct (columns_of_integer_levels nodes links (levels st) Hrun)
    as (zs & Hc & Hss & Hzs & Hmem).
  { intros n k Hk.
    destruct (li_level _ _ _ _ Hinv n) as [z Hz];
      [|rewrite Hz in Hk; injection Hk as <-; eauto].
    rewrite Hq, app_nil_r. apply Hall, (li_keys _ _ _ _ Hinv). eauto. }
  assert (∀ i z, zs !! i = Some z → z = Z.of_nat i) as Hidx.
  { apply sorted_contiguous; [done..|]. intros z [n Hn]%Hmem.
    destruct (Htight n z Hn) as [Hz0 [[-> _]|(l & _ & _ & _ & Hl)]].
    - split; [done|lia].
    - split; [done|]. intros _. apply Hmem. eauto. }
  exists (levels st), ((λ z, with_level (levels st) (Some z)) <$> zs).
  split_and!; [done..|]. intros n i. unfold in_column.
  rewrite list_lookup_fmap. split.
  - intros (g & Hg & Hn). destruct (zs !! i) as [z|] eqn:Hi; [|done].
    injection Hg as <-. apply elem_of_with_level in Hn; [|done].
    by rewrite (Hidx i z Hi) in Hn.
  - intros Hn. assert (Z.of_nat i ∈ zs) as Hin by (apply Hmem; eauto).
    apply list_elem_of_lookup in Hin as [j Hj].
    pose proof (Hidx j _ Hj) as Hij. apply Nat2Z.inj in Hij. subst j.
    exists (with_level (levels st) (Some (Z.of_nat i))). rewrite Hj.
    split; [done|]. by apply elem_of_with_level.
Qed.

Lemma column_index_is_level_witness :
  closed_links (dict_keys nodes_ABCD) links_diamond
  ∧ acyclic links_diamond
  ∧ ∃ lev groups,
      assign_levels nodes_ABCD links_diamond = Ok lev
      ∧ compute_levels nodes_ABCD links_diamond = Ok groups
      ∧ ∀ n i, in_column groups n i
               ↔ dict_get lev n = Some (Some (Z.of_nat i)).
Proof.
  assert (closed_links (dict_keys nodes_ABCD) links_diamond) as Hclosed.
  { intros l Hl. each_elem Hl; split; compute_done. }
  assert (acyclic links_diamond) as Hacyc.
  { apply (ranked_acyclic rank_diamond). intros l Hl.
    each_elem Hl; vm_compute; lia. }
  split; [done|]. split; [done|].
  exact (column_index_is_level nodes_ABCD links_diamond Hclosed Hacyc).
Defined.

(** ** Keys of fields (lines 178-179) *)

(** X16: the key [nodeId|fieldAlias] identifies the field as long as node
    ids hold no [|]: two fields of such nodes with the same key are the
    same field. Without that the keys collide: field [c] of node [a|b] and
    field [b|c] of node [a] share the key [a|b|c]. *)
Theorem key_identifies_field :
  (∀ r r', no_bar (nodeId r) → no_bar (nodeId r') →
           key_of r = key_of r' → r = r')
  ∧ key_of (Ref "a|b" "c") = key_of (Ref "a" "b|c").
Proof.
  split; [|reflexivity].
  intros [n f] [n' f'] Hn Hn' Heq. simpl in *.
  by destruct (key_split n n' f f' Hn Hn' Heq) as [-> ->].
Qed.

Lemma key_identifies_field_witness :
  no_bar "Node1"
  ∧ key_of (Ref "Node1" "a") = "Node1|a"
  ∧ ∀ r', no_bar (nodeId r') → "Node1|a" = key_of r' → Ref "Node1" "a" = r'.
Proof.
  assert (no_bar "Node1") as Hn.
  { intros H. simpl in H. repeat (destruct H as [H|H]; [discriminate H|]).
    destruct H. }
  split; [done|]. split; [reflexivity|]. intros r' Hr'.
  exact (proj1 key_identifies_field (Ref "Node1" "a") r' Hn Hr').
Defined.

(** ** The walks of the highlighter *)

Lemma listed_converse links a b :
  listed (adjacency links).2 a b ↔ listed (adjacency links).1 b a.
Proof.
  destruct (adjacency_listed links a b) as [_ Hb].
  destruct (adjacency_listed links b a) as [Hf _].
  rewrite Hb, Hf. split; intros (l & ? & ? & ?); by exists l.
Qed.

Lemma reachable_converse links a b :
  reachable (adjacency links).2 a b ↔ reachable (adjacency links).1 b a.
Proof.
  unfold reachable. split.
  - induction 1 as [|x y z Hxy%listed_converse _ IH]; [done|].
    by eapply rtc_r.
  - induction 1 as [|x y z Hxy%listed_converse _ IH]; [done|].
    by eapply rtc_r.
Qed.

Lemma all_keys_Ok stack links key all :
  all_keys stack links key = Ok all →
  ∃ anc desc, ancestors stack links key = Ok anc
              ∧ descendants stack links key = Ok desc
              ∧ all = {[key]} ∪ (anc ∪ desc).
Proof.
  unfold all_keys.
  destruct (ancestors stack links key) as [anc| |]; simpl; [|done|done].
  destruct (descendants stack links key) as [desc| |]; simpl; [|done|done].
  intros [= <-]. by exists anc, desc.
Qed.

Lemma all_keys_returns stack links key :
  (length links < stack)%nat → ∃ all, all_keys stack links key = Ok all.
Proof.
  intros Hstack.
  destruct (walks_return stack links key Hstack) as (anc & desc & Ha & Hd).
  unfold all_keys. rewrite Ha, Hd. simpl. by eexists.
Qed.

(** X17: ancestors and descendants are converse: whenever the two walks
    return, [k] is among the ancestors of [key] exactly when [key] is
    among the descendants of [k]; hence the set [all] is symmetric:
    selecting [key] puts [k] into it exactly when selecting [k] puts
    [key] into it. The sets are there when more levels fit on the stack
    than there are links. *)
Theorem ancestors_and_descendants_are_converse stack links key k :
  (∀ anc desc,
     ancestors stack links key = Ok anc →
     descendants stack links k = Ok desc →
     (k ∈ anc ↔ key ∈ desc))
  ∧ (∀ all all',
       all_keys stack links key = Ok all →
       all_keys stack links k = Ok all' →
       (k ∈ all ↔ key ∈ all'))
  ∧ ((length links < stack)%nat →
     ∃ all all', all_keys stack links key = Ok all
                 ∧ all_keys stack links k = Ok all').
Proof.
  split_and!.
  - intros anc desc Ha Hd.
    rewrite (proj1 (walks_sound stack links key) anc Ha).
    rewrite (proj2 (walks_sound stack links k) desc Hd).
    apply reachable_converse.
  - intros all all' (anc & desc & Ha & Hd & ->)%all_keys_Ok
                    (anc' & desc' & Ha' & Hd' & ->)%all_keys_Ok.
    rewrite !elem_of_union, !elem_of_singleton.
    rewrite (proj1 (walks_sound stack links key) anc Ha).
    rewrite (proj2 (walks_sound stack links key) desc Hd).
    rewrite (proj1 (walks_sound stack links k) anc' Ha').
    rewrite (proj2 (walks_sound stack links k) desc' Hd').
    rewrite (reachable_converse links key k).
    rewrite (reachable_converse links k key). naive_solver.
  - intros Hstack.
    destruct (all_keys_returns stack links key Hstack) as [all Hall].
    destruct (all_keys_returns stack links k Hstack) as [all' Hall'].
    by exists all, all'.
Qed.

Lemma ancestors_and_descendants_are_converse_witness :
  (length links_diamond < 6)%nat
  ∧ ∃ all all', all_keys 6 links_diamond "A|f" = Ok all
                ∧ all_keys 6 links_diamond "D|f" = Ok all'
                ∧ ("D|f" ∈ all ↔ "A|f" ∈ all').
Proof.
  assert (length links_diamond < 6)%nat as Hlen by (simpl; lia).
  split; [done|].
  destruct (ancestors_and_descendants_are_converse
              6%nat links_diamond "A|f" "D|f") as (_ & Hsym & Hret).
  destruct (Hret Hlen) as (all & all' & Hall & Hall').
  exists all, all'. split_and!; [done|done|]. by apply Hsym.
Defined.

(** ** What a selection highlights *)

Lemma elem_of_drawLinks found links p :
  p ∈ drawLinks found links
  ↔ ∃ l, l ∈ links ∧ p = draw_path l
         ∧ found (source l) = true ∧ found (target l) = true.
Proof.
  unfold drawLinks. rewrite list_elem_of_fmap. split.
  - intros (l & -> & [Hf Hl]%list_elem_of_filter).
    apply Is_true_true, andb_true_iff in Hf as [? ?]. by exists l.
  - intros (l & Hl & -> & Hs & Ht). exists l. split; [done|].
    apply list_elem_of_filter. split; [|done].
    apply Is_true_true, andb_true_iff. by split.
Qed.



Lemma unlinked_walks stack links key :
  unlinked links key →
  ancestors stack links key = Ok {[key]}
  ∧ descendants stack links key = Ok {[key]}.
Proof.
  intros Hun. unfold ancestors, descendants. cbn [traverse].
  rewrite !decide_False by set_solver.
  assert (default [] ((adjacency links).2 !! key) = []) as ->.
  { destruct (default [] ((adjacency links).2 !! key)) as [|c cs] eqn:Hcs;
      [done|].
    assert (listed (adjacency links).2 key c) as Hc.
    { unfold listed, successors. rewrite Hcs. left. }
    apply adjacency_listed in Hc as (l & Hl & Ht & _).
    by destruct (Hun l Hl) as [_ ?]. }
  assert (default [] ((adjacency links).1 !! key) = []) as ->.
  { destruct (default [] ((adjacency links).1 !! key)) as [|c cs] eqn:Hcs;
      [done|].
    assert (listed (adjacency links).1 key c) as Hc.
    { unfold listed, successors. rewrite Hcs. left. }
    apply adjacency_listed in Hc as (l & Hl & Hs & _).
    by destruct (Hun l Hl) as [? _]. }
  simpl. split; f_equal; set_solver.
Qed.

(** X19: selecting a field that no link touches marks that field alone
    and highlights no connector, whatever room the call stack has below
    the first call of each walk. *)
Theorem unlinked_selection_highlights_nothing stack found links key :
  unlinked links key →
  all_keys stack links key = Ok {[key]}
  ∧ highlighted_paths stack links (drawLinks found links) key = Ok [].
Proof.
  intros Hun.
  destruct (unlinked_walks stack links key Hun) as [Ha Hd].
  unfold highlighted_paths, all_keys. rewrite Ha, Hd. simpl.
  assert (({[key]} ∪ ({[key]} ∪ {[key]}) : gset string) = {[key]}) as ->
    by set_solver.
  split; [done|]. f_equal. apply filter_none.
  intros p (l & Hl & -> & _)%elem_of_drawLinks [Hs%elem_of_singleton _].
  by destruct (Hun l Hl).
Qed.

Lemma unlinked_selection_highlights_nothing_witness :
  unlinked links_diamond "E|f"
  ∧ all_keys 0 links_diamond "E|f" = Ok {[ "E|f" ]}
  ∧ highlighted_paths 0 links_diamond
      (drawLinks (λ _, true) links_diamond) "E|f" = Ok [].
Proof.
  assert (unlinked links_diamond "E|f") as Hun.
  { intros l Hl. unfold links_diamond in Hl. each_elem Hl; by vm_compute. }
  split; [done|].
  exact (unlinked_selection_highlights_nothing 0%nat (λ _, true)
           links_diamond "E|f" Hun).
Defined.

(** ** Redrawing on scroll and resize *)








(** ** The command from end to end *)

(** X21: the command writes the diagram of the first flow of the file:
    whenever [readFlow] returns on that flow and the links it returns have
    no cycle, the command exits with code 0 and nothing on stderr; the
    payload holds the catalog and the links that [readFlow] returned, the
    links being the ones the closed form gives, and the columns of
    [compute_levels], which hold every node of the catalog; further flows
    of the file are not read. With an output file that cannot be written
    the command exits with code 1. *)
Theorem main_writes_the_first_flow file rest nodes links :
  readFlow file = Ok (nodes, links) →
  acyclic links →
  ∃ levels,
    main (Ok (file :: rest)) true
    = Exit 0 None (Some (Payload nodes links levels))
    ∧ main (Ok (file :: rest)) false = Exit 1 (Some FailedToWrite) None
    ∧ links = all_links (shape (build_nodes (fl_nodes file))) (fl_edges file)
    ∧ shape nodes = shape (build_nodes (fl_nodes file))
    ∧ compute_levels nodes links = Ok levels
    ∧ ∀ n, n ∈ dict_keys nodes → ∃ i, in_column levels n i.
Proof.
  intros Hrun Hacyc.
  destruct (readFlow_Ok _ _ _ Hrun) as (Hsh & _ & _ & Hlinks & _).
  pose proof (readFlow_closed _ _ _ Hrun) as Hclosed.
  destruct (assign_levels_acyclic nodes _ Hclosed Hacyc)
    as (lev' & Hrun' & Hall & Hkeys & _).
  destruct (compute_levels_acyclic nodes _ Hclosed Hacyc)
    as (lev & zs & Hlev & Hcl & _ & Hzs).
  rewrite Hrun' in Hlev. injection Hlev as <-.
  eexists. unfold main. simpl. rewrite Hrun. simpl.
  rewrite Hcl. split_and!; [done..|].
  intros n Hn. destruct (Hall n Hn) as [z Hz].
  destruct (proj1 (list_elem_of_lookup zs z) (Hzs n z Hz)) as [i Hi].
  exists i, (with_level lev' (Some z)). split.
  - by rewrite list_lookup_fmap, Hi.
  - apply elem_of_with_level; [|done].
    by apply (assign_levels_NoDup _ _ _ Hrun').
Qed.

Lemma main_writes_the_first_flow_witness :
  ∃ nodes levels,
    readFlow flow_A = Ok (nodes, [Link (Ref "Node1" "a") (Ref "Node2" "b")])
    ∧ acyclic [Link (Ref "Node1" "a") (Ref "Node2" "b")]
    ∧ main (Ok [flow_A; flow_exception]) true
      = Exit 0 None
          (Some (Payload nodes [Link (Ref "Node1" "a") (Ref "Node2" "b")]
                         levels)).
Proof.
  assert (∃ nodes, readFlow flow_A
                   = Ok (nodes, [Link (Ref "Node1" "a") (Ref "Node2" "b")]))
    as [nodes Hrun] by (eexists; vm_compute; reflexivity).
  assert (acyclic [Link (Ref "Node1" "a") (Ref "Node2" "b")]) as Hacyc.
  { apply (ranked_acyclic (λ n, if decide (n = "Node1") then 0 else 1)%nat).
    intros l Hl. apply list_elem_of_In in Hl.
    destruct Hl as [<-|[]]. vm_compute. lia. }
  destruct (main_writes_the_first_flow flow_A [flow_exception] nodes _
              Hrun Hacyc) as (levels & Hmain & _).
  by exists nodes, levels.
Defined.

(** X22: the command ends, with exit code 0 or 1, whatever the input: the
    payload is written exactly when the code is 0, and then nothing goes
    to stderr; with code 1 there is a message and no payload. A failure of
    the level computation is not among the caught ones: it ends the run
    with a traceback, not with the message of line 105. *)
Theorem main_exit_codes loaded writable :
  loaded ≠ OutOfFuel →
  (∃ p, main loaded writable = Exit 0 None (Some p) ∧ writable = true
        ∧ ∃ file rest, loaded = Ok (file :: rest)
                       ∧ readFlow file = Ok (p_nodes p, p_links p)
                       ∧ compute_levels (p_nodes p) (p_links p)
                         = Ok (p_levels p))
  ∨ (∃ r, main loaded writable = Exit 1 (Some r) None
          ∧ match r with
            | FailedToLoad e =>
                loaded = Raise e ∨ (loaded = Ok [] ∧ e = IndexError)
                ∨ ∃ file rest, loaded = Ok (file :: rest)
                               ∧ readFlow file = Raise e
            | Traceback e =>
                e = TypeError
                ∧ ∃ file rest nodes links,
                    loaded = Ok (file :: rest)
                    ∧ readFlow file = Ok (nodes, links)
                    ∧ compute_levels nodes links = Raise TypeError
            | FailedToWrite => writable = false
            end).
Proof.
  intros Hl. unfold main.
  destruct loaded as [[|file rest]|e|]; simpl; [| | |done].
  - right. exists (FailedToLoad IndexError). split; [done|]. by right; left.
  - destruct (readFlow file) as [[nodes links]|e|] eqn:Hrun; simpl.
    + destruct (compute_levels nodes links) as [levels|e|] eqn:Hc.
      * destruct writable.
        -- left. exists (Payload nodes links levels). split_and!; [done..|].
           by exists file, rest.
        -- right. by exists FailedToWrite.
      * right. exists (Traceback e). split; [done|].
        destruct (compute_levels_outcome nodes links
                    (readFlow_closed _ _ _ Hrun))
          as (lev & _ & _ & _ & [(_ & _ & Hr)|(_ & ls & _ & _ & Hok)]);
          [|congruence].
        assert (e = TypeError) as -> by congruence.
        split; [done|]. by exists file, rest, nodes, links.
      * by apply compute_levels_fuel in Hc.
    + right. exists (FailedToLoad e). split; [done|].
      right; right. by exists file, rest.
    + by apply readFlow_fuel in Hrun.
  - right. exists (FailedToLoad e). split; [done|]. by left.
Qed.

Lemma main_exit_codes_witness :
  (Ok [flow_cycle_and_root] : outcome (list flow)) ≠ OutOfFuel
  ∧ ∃ r, main (Ok [flow_cycle_and_root]) true = Exit 1 (Some r) None.
Proof.
  assert ((Ok [flow_cycle_and_root] : outcome (list flow)) ≠ OutOfFuel)
    as Hl by done.
  split; [done|].
  destruct (main_exit_codes (Ok [flow_cycle_and_root]) true Hl)
    as [(p & Hp & _)|(r & Hr & _)].
  - vm_compute in Hp. discriminate Hp.
  - by exists r.
Defined.
